(** * cmdconfig: the scanner, the dedent pass and the formatter of parser.go

    A shallow embedding of [parser.go] and the properties of its
    specification that can be settled on it.

    Conventions of the embedding.
    - A Go [byte] is an [ascii]; a Go [string] and a [[]byte] are both a
      [list ascii] (Go strings are byte sequences, and the scanner never
      writes to its buffer).
    - Go's [int] is 64 bits wide.  The fields [line], [column], [baseOffset]
      and the brace counter are integers in [Z] whose increments wrap as
      Go's do ([wrap64]).  The cursor [pos] and the slice bounds index the
      buffer: they stay between 0 and [len(s.s)], so they are natural
      numbers.
    - A method with a pointer receiver takes the scanner and returns the
      scanner it leaves behind, next to its Go results.
    - A [for] loop is a [Fixpoint] on a fuel counting the iterations of its
      body: the loop test comes first, [None] means that the fuel ran out
      while the test still held. *)

From Stdlib Require Import String Ascii List ZArith NArith Arith Bool Lia.
Import ListNotations.
Local Open Scope list_scope.

(** ** Bytes and strings *)

Definition byte := ascii.
Definition gostring := list byte.

(** [bytes "..."] is the Go string literal with the same bytes. *)
Definition bytes (lit : string) : gostring := list_ascii_of_string lit.

Definition byte_eqb (a b : byte) : bool := Ascii.eqb a b.
Definition byte_val (b : byte) : N := N_of_ascii b.

Definition ch_tab : byte := "009"%char.
Definition ch_nl : byte := "010"%char.
Definition ch_cr : byte := "013"%char.
Definition ch_space : byte := " "%char.
Definition ch_dquote : byte := "034"%char.
Definition ch_squote : byte := "'"%char.
Definition ch_backslash : byte := "\"%char.
Definition ch_backquote : byte := "`"%char.
Definition ch_lbrace : byte := "{"%char.
Definition ch_rbrace : byte := "}"%char.

Fixpoint gostring_eqb (a b : gostring) : bool :=
  match a, b with
  | [], [] => true
  | x :: a', y :: b' => byte_eqb x y && gostring_eqb a' b'
  | _, _ => false
  end.

Definition is_empty (a : gostring) : bool :=
  match a with [] => true | _ :: _ => false end.

(** [s[i:j]] and [s[i:]].  Go panics unless [i <= j <= len(s)]; every slice
    taken by the scanner satisfies it, since [i] is an earlier value of the
    cursor. *)
Definition slice (buf : gostring) (i j : nat) : gostring :=
  firstn (j - i) (skipn i buf).
Definition slice_from (buf : gostring) (i : nat) : gostring := skipn i buf.

(** [string(b)] for a byte [b].  Go converts an integer value to the string
    that holds the UTF-8 encoding of the code point of that value: the byte
    itself below 128, two bytes from 128 on. *)
Definition string_of_byte (b : byte) : gostring :=
  if (byte_val b <? 128)%N then [b]
  else [ascii_of_N (N.lor 192 (N.shiftr (byte_val b) 6));
        ascii_of_N (N.lor 128 (N.land (byte_val b) 63))].

(** ** Go's int *)

Definition wrap64 (z : Z) : Z := ((z + 2 ^ 63) mod 2 ^ 64 - 2 ^ 63)%Z.
Definition int_add (a b : Z) : Z := wrap64 (a + b).
Definition int_sub (a b : Z) : Z := wrap64 (a - b).

(** ** Byte classes *)

Definition isQuote1 (b : byte) : bool := byte_eqb b ch_squote.
Definition isQuote2 (b : byte) : bool := byte_eqb b ch_dquote.
Definition isSpace (b : byte) : bool := byte_eqb b ch_space || byte_eqb b ch_tab.
Definition isLeftBrace (b : byte) : bool := byte_eqb b ch_lbrace.
Definition isNewLine (b : byte) : bool := byte_eqb b ch_nl.
Definition isBackQuote (b : byte) : bool := byte_eqb b ch_backquote.

Definition isBareword (b : byte) : bool :=
  if (byte_val b <? 32)%N then false
  else if isSpace b then false
  else if isQuote1 b then false
  else if isQuote2 b then false
  else if isLeftBrace b then false
  else if isBackQuote b then false
  else true.

(** ** Positions, errors, the scanner *)

Record Position := mkPosition { Line : Z; Column : Z; Offset : Z }.

Record ScanError := mkScanError { Pos : Position; Msg : string }.

(** A Go [error] value that is not nil: [io.EOF] or a [*ScanError]. *)
Inductive error :=
| io_EOF
| ScanErr (e : ScanError).

Record Scanner := mkScanner {
  s : gostring;
  pos : nat;
  line : Z;
  column : Z;
  baseOffset : Z
}.

Definition NewScanner (input : gostring) : Scanner :=
  {| s := input; pos := 0; line := 1; column := 1; baseOffset := 0 |}.

Definition currentPos (sc : Scanner) : Position :=
  {| Line := line sc;
     Column := column sc;
     Offset := int_add (baseOffset sc) (Z.of_nat (pos sc)) |}.

Definition NewFromScanner (parent : Scanner) (input : gostring) : Scanner :=
  let parentPos := currentPos parent in
  {| s := input;
     pos := 0;
     line := Line parentPos;
     column := 1;
     baseOffset := Offset parentPos |}.

(** The loop test [s.pos < len(s.s)] followed by [b := s.s[s.pos]]. *)
Definition peek (sc : Scanner) : option byte := nth_error (s sc) (pos sc).

Definition advance (sc : Scanner) : Scanner :=
  match peek sc with
  | Some b =>
      if byte_eqb b ch_nl
      then {| s := s sc; pos := S (pos sc); line := int_add (line sc) 1;
              column := 1; baseOffset := baseOffset sc |}
      else {| s := s sc; pos := S (pos sc); line := line sc;
              column := int_add (column sc) 1; baseOffset := baseOffset sc |}
  | None =>
      {| s := s sc; pos := S (pos sc); line := line sc;
         column := int_add (column sc) 1; baseOffset := baseOffset sc |}
  end.

Definition errorAt (sc : Scanner) (msg : string) : error :=
  ScanErr {| Pos := currentPos sc; Msg := msg |}.

(** ** Sub-parsers

    A sub-parser returns the scanner it leaves and its Go results
    [(string, error)], the error being [None] for nil. *)

Definition parsed := (gostring * option error)%type.

Definition remaining (sc : Scanner) : nat := length (s sc) - pos sc.

Fixpoint parseBackQuote_loop (fuel : nat) (sc : Scanner) (i : nat)
  : option (Scanner * parsed) :=
  match peek sc with
  | None => Some (sc, ([], Some (errorAt sc "got EOF in back quote")))
  | Some b =>
      match fuel with
      | O => None
      | S fuel' =>
          if byte_eqb b ch_backquote
          then let out := slice (s sc) i (pos sc) in
               Some (advance sc, (out, None))
          else parseBackQuote_loop fuel' (advance sc) i
      end
  end.

Definition parseBackQuote (sc : Scanner) : option (Scanner * parsed) :=
  let sc := advance sc in
  parseBackQuote_loop (remaining sc) sc (pos sc).

Fixpoint parseQuote1_loop (fuel : nat) (sc : Scanner) (i : nat)
  : option (Scanner * parsed) :=
  match peek sc with
  | None => Some (sc, ([], Some (errorAt sc "got EOF in single quote")))
  | Some b =>
      match fuel with
      | O => None
      | S fuel' =>
          if byte_eqb b ch_squote
          then let out := slice (s sc) i (pos sc) in
               Some (advance sc, (out, None))
          else parseQuote1_loop fuel' (advance sc) i
      end
  end.

Definition parseQuote1 (sc : Scanner) : option (Scanner * parsed) :=
  let sc := advance sc in
  parseQuote1_loop (remaining sc) sc (pos sc).

(** The full escape decoder, for barewords and double quotes. *)
Definition parseBackslashEscape (sc : Scanner) : Scanner * parsed :=
  match peek sc with
  | None => (sc, ([], Some (errorAt sc "got EOF after backslash")))
  | Some _ =>
      let sc := advance sc in
      match peek sc with
      | None => (sc, ([], Some (errorAt sc "got EOF after backslash")))
      | Some b =>
          let sc := advance sc in
          if byte_eqb b "n"%char then (sc, ([ch_nl], None))
          else if byte_eqb b "r"%char then (sc, ([ch_cr], None))
          else if byte_eqb b "t"%char then (sc, ([ch_tab], None))
          else if byte_eqb b ch_backslash then (sc, ([ch_backslash], None))
          else if byte_eqb b ch_dquote then (sc, ([ch_dquote], None))
          else if byte_eqb b ch_squote then (sc, ([ch_squote], None))
          else if byte_eqb b ch_nl then (sc, ([], None))
          else (sc, (string_of_byte b, None))
      end
  end.

(** The minimal escape decoder, for brace content. *)
Definition parseBraceEscape (sc : Scanner) : Scanner * parsed :=
  match peek sc with
  | None => (sc, ([], Some (errorAt sc "got EOF after backslash")))
  | Some _ =>
      let sc := advance sc in
      match peek sc with
      | None => (sc, ([], Some (errorAt sc "got EOF after backslash")))
      | Some b =>
          let sc := advance sc in
          if byte_eqb b ch_lbrace then (sc, ([ch_lbrace], None))
          else if byte_eqb b ch_rbrace then (sc, ([ch_rbrace], None))
          else if byte_eqb b ch_backslash then (sc, ([ch_backslash], None))
          else (sc, (ch_backslash :: string_of_byte b, None))
      end
  end.

Fixpoint parseQuote2_loop (fuel : nat) (sc : Scanner) (i : nat) (out : gostring)
  : option (Scanner * parsed) :=
  match peek sc with
  | None => Some (sc, ([], Some (errorAt sc "got EOF in double quote")))
  | Some b =>
      match fuel with
      | O => None
      | S fuel' =>
          if byte_eqb b ch_dquote
          then let out := out ++ slice (s sc) i (pos sc) in
               Some (advance sc, (out, None))
          else if byte_eqb b ch_backslash
          then let out := out ++ slice (s sc) i (pos sc) in
               match parseBackslashEscape sc with
               | (sc', (_, Some err)) => Some (sc', (out, Some err))
               | (sc', (escaped, None)) =>
                   parseQuote2_loop fuel' sc' (pos sc') (out ++ escaped)
               end
          else parseQuote2_loop fuel' (advance sc) i out
      end
  end.

Definition parseQuote2 (sc : Scanner) : option (Scanner * parsed) :=
  let sc := advance sc in
  parseQuote2_loop (remaining sc) sc (pos sc) [].

Fixpoint parseBareword_loop (fuel : nat) (sc : Scanner) (i : nat) (out : gostring)
  : option (Scanner * parsed) :=
  match peek sc with
  | None =>
      if is_empty out
      then Some (sc, (slice_from (s sc) i, None))
      else Some (sc, (out ++ slice_from (s sc) i, None))
  | Some b =>
      match fuel with
      | O => None
      | S fuel' =>
          if isSpace b
          then Some (sc, (out ++ slice (s sc) i (pos sc), None))
          else if isQuote1 b
          then let out := out ++ slice (s sc) i (pos sc) in
               match parseQuote1 sc with
               | None => None
               | Some (sc', (_, Some err)) => Some (sc', (out, Some err))
               | Some (sc', (inner, None)) =>
                   parseBareword_loop fuel' sc' (pos sc') (out ++ inner)
               end
          else if isQuote2 b
          then let out := out ++ slice (s sc) i (pos sc) in
               match parseQuote2 sc with
               | None => None
               | Some (sc', (_, Some err)) => Some (sc', (out, Some err))
               | Some (sc', (inner, None)) =>
                   parseBareword_loop fuel' sc' (pos sc') (out ++ inner)
               end
          else if byte_eqb b ch_nl
          then Some (sc, (out ++ slice (s sc) i (pos sc), None))
          else if byte_eqb b ch_backslash
          then let out := out ++ slice (s sc) i (pos sc) in
               match parseBackslashEscape sc with
               | (sc', (_, Some err)) => Some (sc', (out, Some err))
               | (sc', (escaped, None)) =>
                   parseBareword_loop fuel' sc' (pos sc') (out ++ escaped)
               end
          else parseBareword_loop fuel' (advance sc) i out
      end
  end.

Definition parseBareword (sc : Scanner) : option (Scanner * parsed) :=
  parseBareword_loop (remaining sc) sc (pos sc) [].

(** ** Dedent *)

(** [strings.Split(str, "\n")]: never empty, one more line than newlines. *)
Fixpoint splitLines (str : gostring) : list gostring :=
  match str with
  | [] => [[]]
  | b :: rest =>
      if byte_eqb b ch_nl then [] :: splitLines rest
      else match splitLines rest with
           | l :: ls => (b :: l) :: ls
           | [] => [[b]]
           end
  end.

(** [strings.Join(parts, sep)]. *)
Fixpoint Join (parts : list gostring) (sep : gostring) : gostring :=
  match parts with
  | [] => []
  | p :: rest =>
      match rest with
      | [] => p
      | _ :: _ => p ++ sep ++ Join rest sep
      end
  end.

(** The six ASCII bytes of Go's [unicode.IsSpace]: tab, newline, vertical
    tab, form feed, carriage return, space. *)
Definition asciiSpace (c : N) : bool :=
  ((9 <=? c) && (c <=? 13) || (c =? 32))%N.

(** [strings.TrimSpace(line) == ""].  [TrimSpace] strips the runes of
    [unicode.IsSpace] from both ends, so the result is empty exactly when the
    line is a sequence of UTF-8 encoded white space: the six ASCII bytes,
    U+0085 and U+00A0 (two bytes after 0xC2), U+1680 (E1 9A 80), U+2000 to
    U+200A, U+2028, U+2029, U+202F (E2 80 ..), U+205F (E2 81 9F) and U+3000
    (E3 80 80).  Any other byte, or a truncated sequence, is a rune that is
    not white space and stays. *)
Fixpoint TrimSpace_is_empty (line : gostring) : bool :=
  match line with
  | [] => true
  | b0 :: r0 =>
      let c0 := byte_val b0 in
      if (c0 <? 128)%N then asciiSpace c0 && TrimSpace_is_empty r0
      else
        match r0 with
        | [] => false
        | b1 :: r1 =>
            let c1 := byte_val b1 in
            if ((c0 =? 194) && ((c1 =? 133) || (c1 =? 160)))%N
            then TrimSpace_is_empty r1
            else
              match r1 with
              | [] => false
              | b2 :: r2 =>
                  let c2 := byte_val b2 in
                  if ((c0 =? 225) && (c1 =? 154) && (c2 =? 128)
                      || (c0 =? 226) && (c1 =? 128)
                         && ((128 <=? c2) && (c2 <=? 138)
                             || (c2 =? 168) || (c2 =? 169) || (c2 =? 175))
                      || (c0 =? 226) && (c1 =? 129) && (c2 =? 159)
                      || (c0 =? 227) && (c1 =? 128) && (c2 =? 128))%N
                  then TrimSpace_is_empty r2
                  else false
              end
        end
  end.

(** The inner loop of [dedent]: the leading run of spaces and tabs.  The
    source ranges over runes; a space or a tab is a rune of one byte and no
    byte of a longer rune equals either, so the run is the same byte by
    byte. *)
Fixpoint leadingWS (line : gostring) : gostring :=
  match line with
  | [] => []
  | b :: rest =>
      if byte_eqb b ch_space || byte_eqb b ch_tab
      then b :: leadingWS rest
      else []
  end.

(** One round of the prefix loop: the bytes on which [commonPrefix] and [ws]
    agree, up to the first mismatch or the end of the shorter. *)
Fixpoint newCommon (commonPrefix ws : gostring) : gostring :=
  match commonPrefix, ws with
  | x :: cp, y :: ws' => if byte_eqb x y then x :: newCommon cp ws' else []
  | _, _ => []
  end.

Definition dedentLine (commonPrefix line : gostring) : gostring :=
  let prefixLen := length commonPrefix in
  if TrimSpace_is_empty line then line
  else if (prefixLen <=? length line)
          && gostring_eqb (firstn prefixLen line) commonPrefix
  then skipn prefixLen line
  else line.

Definition dedent (str : gostring) : gostring :=
  if is_empty str then str
  else
    let lines := splitLines str in
    if length lines <=? 1 then str
    else
      let nonEmptyLines :=
        filter (fun l => negb (TrimSpace_is_empty l)) lines in
      let leadingWhitespace := map leadingWS nonEmptyLines in
      match leadingWhitespace with
      | [] => str
      | first :: others =>
          let commonPrefix := fold_left newCommon others first in
          if is_empty commonPrefix then str
          else Join (map (dedentLine commonPrefix) lines) [ch_nl]
      end.

(** ** Brace blocks and the scan step *)

Fixpoint parseBrace_loop (fuel : nat) (sc : Scanner) (i : nat) (out : gostring)
                         (stack : Z) : option (Scanner * parsed) :=
  match peek sc with
  | None => Some (sc, ([], Some (errorAt sc "got EOF in opening brace")))
  | Some b =>
      match fuel with
      | O => None
      | S fuel' =>
          if byte_eqb b ch_backslash
          then let out := out ++ slice (s sc) i (pos sc) in
               match parseBraceEscape sc with
               | (sc', (_, Some err)) => Some (sc', (out, Some err))
               | (sc', (escaped, None)) =>
                   parseBrace_loop fuel' sc' (pos sc') (out ++ escaped) stack
               end
          else if byte_eqb b ch_lbrace
          then parseBrace_loop fuel' (advance sc) i out (int_add stack 1)
          else if byte_eqb b ch_rbrace
          then let stack := int_sub stack 1 in
               if (stack =? 0)%Z
               then let out := out ++ slice (s sc) i (pos sc) in
                    Some (advance sc, (dedent out, None))
               else parseBrace_loop fuel' (advance sc) i out stack
          else parseBrace_loop fuel' (advance sc) i out stack
      end
  end.

Definition parseBrace (sc : Scanner) : option (Scanner * parsed) :=
  let sc := advance sc in
  parseBrace_loop (remaining sc) sc (pos sc) [] 1.

(** What [Next] returns: [(args, body, err)].  Go's nil slice and its empty
    slice are both the empty list; the body is a Go string, so a command
    without a body and a command with an empty one both carry the empty
    string. *)
Definition command := (list gostring * gostring * option error)%type.

(** One iteration of the loop of [Next] either goes round again or
    returns. *)
Inductive step :=
| Continue (sc : Scanner) (args : list gostring)
| Return (sc : Scanner) (r : command).

(** The body of the loop of [Next], at byte [b] under the cursor.  [body] is
    still the empty string wherever it is returned without being assigned.
    When no case of the switch applies the iteration changes nothing. *)
Definition Next_body (sc : Scanner) (b : byte) (args : list gostring)
  : option step :=
  let body : gostring := [] in
  if isSpace b then Some (Continue (advance sc) args)
  else if isBareword b || isQuote1 b || isQuote2 b || byte_eqb b ch_backslash
  then match parseBareword sc with
       | None => None
       | Some (sc', (_, Some err)) => Some (Return sc' (args, body, Some err))
       | Some (sc', (arg, None)) => Some (Continue sc' (args ++ [arg]))
       end
  else if isBackQuote b
  then match parseBackQuote sc with
       | None => None
       | Some (sc', (_, Some err)) => Some (Return sc' (args, body, Some err))
       | Some (sc', (arg, None)) => Some (Continue sc' (args ++ [arg]))
       end
  else if isLeftBrace b
  then match parseBrace sc with
       | None => None
       | Some (sc', (body, err)) => Some (Return sc' (args, body, err))
       end
  else if isNewLine b
  then let sc := advance sc in
       if 0 <? length args
       then Some (Return sc (args, body, None))
       else Some (Continue sc args)
  else Some (Continue sc args).

Fixpoint Next_loop (fuel : nat) (sc : Scanner) (args : list gostring)
  : option (Scanner * command) :=
  match peek sc with
  | None =>
      if length args =? 0
      then Some (sc, ([], [], Some io_EOF))
      else Some (sc, (args, [], None))
  | Some b =>
      match fuel with
      | O => None
      | S fuel' =>
          match Next_body sc b args with
          | None => None
          | Some (Return sc' r) => Some (sc', r)
          | Some (Continue sc' args') => Next_loop fuel' sc' args'
          end
      end
  end.

(** [Next fuel sc]: the scan step, with [fuel] iterations of its loop at
    hand. *)
Definition Next (fuel : nat) (sc : Scanner) : option (Scanner * command) :=
  Next_loop fuel sc [].

(** The Go results of a call, without the scanner left behind. *)
Definition results (r : option (Scanner * command)) : option command :=
  match r with
  | Some (_, c) => Some c
  | None => None
  end.

(** ** The formatter *)

Definition byte_of_Z (z : Z) : byte := ascii_of_N (Z.to_N z).
Definition Z_of_byte (b : byte) : Z := Z.of_N (byte_val b).

Definition lowerhex (d : Z) : byte :=
  nth (Z.to_nat d) (bytes "0123456789abcdef") "0"%char.

(** [`\x`] followed by the two hexadecimal digits of the byte [c]:
    [fmt.Sprintf("\\x%02x", b)], and the same bytes in [strconv]. *)
Definition hexEscape (c : Z) : gostring :=
  [ch_backslash; "x"%char; lowerhex (Z.shiftr c 4); lowerhex (Z.land c 15)].

Definition isBarewordString (str : gostring) : bool :=
  if is_empty str then false
  else forallb (fun b => negb (negb (isBareword b) || byte_eqb b ch_backslash))
               str.

(** [strings.ContainsAny(str, chars)], for [chars] made of ASCII bytes. *)
Definition ContainsAny (str chars : gostring) : bool :=
  existsb (fun b => existsb (byte_eqb b) chars) str.

(** One round of the manual quoting loop of [quoteArg]. *)
Definition quoteByte (b : byte) : gostring :=
  if byte_eqb b ch_dquote then [ch_backslash; ch_dquote]
  else if byte_eqb b ch_backslash then [ch_backslash; ch_backslash]
  else if byte_eqb b ch_lbrace then [ch_backslash; ch_lbrace]
  else if byte_eqb b ch_rbrace then [ch_backslash; ch_rbrace]
  else if byte_eqb b ch_nl then [ch_backslash; "n"%char]
  else if byte_eqb b ch_cr then [ch_backslash; "r"%char]
  else if byte_eqb b ch_tab then [ch_backslash; "t"%char]
  else if (byte_val b <? 32)%N then hexEscape (Z_of_byte b)
  else [b].

(** *** Go's [strconv.Quote]

    [quoteArg] hands the arguments without braces to [strconv.Quote] of the
    Go library.  It is modelled here after the library: [utf8] decoding and
    encoding, [appendEscapedRune] for the double quote, and [IsPrint], whose
    tables for the runes beyond Latin-1 are a parameter. *)

Definition RuneError : Z := 65533.

Local Open Scope Z_scope.

(** [utf8.DecodeRuneInString]: the rune at the head of [str] and its width;
    an invalid or truncated encoding is [RuneError] of width 1. *)
Definition DecodeRuneInString (str : gostring) : Z * nat :=
  match str with
  | [] => (RuneError, 0%nat)
  | b0 :: r0 =>
      let s0 := Z_of_byte b0 in
      if s0 <? 128 then (s0, 1%nat)
      else if (s0 <? 194) || (244 <? s0) then (RuneError, 1%nat)
      else
        let lo := if s0 =? 224 then 160 else if s0 =? 240 then 144 else 128 in
        let hi := if s0 =? 237 then 159 else if s0 =? 244 then 143 else 191 in
        match r0 with
        | [] => (RuneError, 1%nat)
        | b1 :: r1 =>
            let s1 := Z_of_byte b1 in
            if s0 <? 224
            then if (s1 <? lo) || (hi <? s1) then (RuneError, 1%nat)
                 else (Z.lor (Z.shiftl (Z.land s0 31) 6) (Z.land s1 63), 2%nat)
            else
              match r1 with
              | [] => (RuneError, 1%nat)
              | b2 :: r2 =>
                  let s2 := Z_of_byte b2 in
                  if s0 <? 240
                  then if (s1 <? lo) || (hi <? s1) then (RuneError, 1%nat)
                       else if (s2 <? 128) || (191 <? s2) then (RuneError, 1%nat)
                       else (Z.lor (Z.shiftl (Z.land s0 15) 12)
                               (Z.lor (Z.shiftl (Z.land s1 63) 6) (Z.land s2 63)),
                             3%nat)
                  else
                    match r2 with
                    | [] => (RuneError, 1%nat)
                    | b3 :: _ =>
                        let s3 := Z_of_byte b3 in
                        if (s1 <? lo) || (hi <? s1) then (RuneError, 1%nat)
                        else if (s2 <? 128) || (191 <? s2) then (RuneError, 1%nat)
                        else if (s3 <? 128) || (191 <? s3) then (RuneError, 1%nat)
                        else (Z.lor (Z.shiftl (Z.land s0 7) 18)
                                (Z.lor (Z.shiftl (Z.land s1 63) 12)
                                   (Z.lor (Z.shiftl (Z.land s2 63) 6)
                                          (Z.land s3 63))),
                              4%nat)
                    end
              end
        end
  end.

(** [utf8.AppendRune] on an empty buffer. *)
Definition AppendRune (r : Z) : gostring :=
  let cont (x : Z) := byte_of_Z (Z.lor 128 (Z.land x 63)) in
  if (0 <=? r) && (r <=? 127) then [byte_of_Z r]
  else if (0 <=? r) && (r <=? 2047)
  then [byte_of_Z (Z.lor 192 (Z.shiftr r 6)); cont r]
  else
    let r := if (r <? 0) || (1114111 <? r) || (55296 <=? r) && (r <=? 57343)
             then RuneError else r in
    if r <=? 65535
    then [byte_of_Z (Z.lor 224 (Z.shiftr r 12)); cont (Z.shiftr r 6); cont r]
    else [byte_of_Z (Z.lor 240 (Z.shiftr r 18)); cont (Z.shiftr r 12);
          cont (Z.shiftr r 6); cont r].

Definition ValidRune (r : Z) : bool :=
  (0 <=? r) && (r <? 55296) || (57343 <? r) && (r <=? 1114111).

Section Formatter.

(** [strconv.IsPrint] beyond Latin-1: tables of the Go library. *)
Variable isPrintTable : Z -> bool.

Definition IsPrint (r : Z) : bool :=
  if r <=? 255
  then if (32 <=? r) && (r <=? 126) then true
       else if (161 <=? r) && (r <=? 255) then negb (r =? 173)
       else false
  else isPrintTable r.

(** [strconv.appendEscapedRune] with the double quote as [quote], neither
    ASCII-only nor graphic-only. *)
Definition appendEscapedRune (r : Z) : gostring :=
  let hexdigits (x : Z) (n : nat) :=
    map (fun k => lowerhex (Z.land (Z.shiftr x (4 * Z.of_nat k)) 15))
        (rev (seq 0 n)) in
  if (r =? 34) || (r =? 92) then [ch_backslash; byte_of_Z r]
  else if IsPrint r then AppendRune r
  else if r =? 7 then [ch_backslash; "a"%char]
  else if r =? 8 then [ch_backslash; "b"%char]
  else if r =? 12 then [ch_backslash; "f"%char]
  else if r =? 10 then [ch_backslash; "n"%char]
  else if r =? 13 then [ch_backslash; "r"%char]
  else if r =? 9 then [ch_backslash; "t"%char]
  else if r =? 11 then [ch_backslash; "v"%char]
  else if (r <? 32) || (r =? 127) then hexEscape (Z.land r 255)
  else if negb (ValidRune r)
  then ch_backslash :: "u"%char :: hexdigits RuneError 4%nat
  else if r <? 65536 then ch_backslash :: "u"%char :: hexdigits r 4%nat
  else ch_backslash :: "U"%char :: hexdigits r 8%nat.

(** The loop of [strconv.appendQuotedWith].  Every round drops at least one
    byte of [str], so [length str] rounds suffice. *)
Fixpoint appendQuoted_loop (fuel : nat) (str : gostring) : gostring :=
  match fuel, str with
  | _, [] => []
  | O, _ :: _ => []
  | S fuel', b0 :: _ =>
      let '(r, width) :=
        if Z_of_byte b0 <? 128 then (Z_of_byte b0, 1%nat)
        else DecodeRuneInString str in
      (if (width =? 1)%nat && (r =? RuneError)
       then hexEscape (Z_of_byte b0)
       else appendEscapedRune r)
      ++ appendQuoted_loop fuel' (skipn width str)
  end.

Definition strconv_Quote (str : gostring) : gostring :=
  ch_dquote :: appendQuoted_loop (length str) str ++ [ch_dquote].

Definition quoteArg (str : gostring) : gostring :=
  let needsBraceEscape := ContainsAny str [ch_lbrace; ch_rbrace] in
  if needsBraceEscape
  then ch_dquote :: flat_map quoteByte str ++ [ch_dquote]
  else strconv_Quote str.

Definition formatArg (arg : gostring) : gostring :=
  if isBarewordString arg then arg else quoteArg arg.

Definition FormatIndent (args : list gostring) (body indent : gostring)
  : gostring :=
  let parts := map formatArg args in
  let result := Join parts [ch_space] in
  if negb (is_empty body)
  then
    let result := result ++ [ch_space; ch_lbrace; ch_nl] in
    let result :=
      if negb (is_empty indent)
      then fold_left (fun res line => res ++ indent ++ line ++ [ch_nl])
                     (splitLines body) result
      else result ++ body ++ [ch_nl] in
    result ++ [ch_rbrace]
  else result.

Definition Format (args : list gostring) (body : gostring) : gostring :=
  FormatIndent args body [].

End Formatter.

Local Close Scope Z_scope.

(** ** Running the scanner on an input

    [parse input] is the first call of [Next] on a fresh scanner over
    [input], given as many iterations of its loop as the input has bytes,
    with the scanner it leaves dropped. *)
Definition parse (input : gostring) : option command :=
  results (Next (length input) (NewScanner input)).

(** [collect n sc args]: [n] iterations of the loop of [Next] from [sc] with
    [args] collected, none of which returns; the scanner reached and the
    arguments collected by then. *)
Fixpoint collect (n : nat) (sc : Scanner) (args : list gostring)
  : option (Scanner * list gostring) :=
  match n with
  | O => Some (sc, args)
  | S n' =>
      match peek sc with
      | None => None
      | Some b =>
          match Next_body sc b args with
          | Some (Continue sc' args') => collect n' sc' args'
          | _ => None
          end
      end
  end.

(** The sub-parser that the loop of [Next] calls at [sc], when that call
    fails: the scanner it leaves and its error. *)
Definition failing_subparser (sc : Scanner) : option (Scanner * error) :=
  let failure (r : option (Scanner * parsed)) :=
    match r with
    | Some (sc', (_, Some err)) => Some (sc', err)
    | _ => None
    end in
  match peek sc with
  | None => None
  | Some b =>
      if isSpace b then None
      else if isBareword b || isQuote1 b || isQuote2 b || byte_eqb b ch_backslash
      then failure (parseBareword sc)
      else if isBackQuote b then failure (parseBackQuote sc)
      else if isLeftBrace b then failure (parseBrace sc)
      else None
  end.

(** A table of printable runes under which no rune beyond Latin-1 prints,
    to run the formatter on ASCII arguments, where the table is not
    consulted. *)
Definition noTable : Z -> bool := fun _ => false.

(** A line without a newline byte, a run of spaces and tabs, and the test
    that [dedent] makes on a line before it counts it. *)
Definition no_newline (l : gostring) : Prop := ~ In ch_nl l.
Definition blanks (p : gostring) : Prop := Forall (fun b => isSpace b = true) p.
Definition nonblank (l : gostring) : bool := negb (TrimSpace_is_empty l).

(** The scanner with its cursor after [pre] and before [rest]. *)
Definition cursor (pre rest : gostring) (sc : Scanner) : Prop :=
  s sc = pre ++ rest /\ pos sc = length pre.

(** A byte that the loop of [parseBareword] steps over. *)
Definition bareword_literal (b : byte) : bool :=
  negb (isSpace b) && negb (isQuote1 b) && negb (isQuote2 b)
  && negb (byte_eqb b ch_nl) && negb (byte_eqb b ch_backslash).

(** Where an argument ends in the output of the formatter: at the end of
    the text or before a space. *)
Definition arg_end (rest : gostring) : Prop :=
  rest = [] \/ exists rest', rest = ch_space :: rest'.

(** What the full decoder gives for the byte after a backslash: a newline,
    a carriage return or a tab for [n], [r] and [t], the byte for a
    backslash or a quote, nothing for a newline, and [string(b)] for any
    other byte. *)
Definition unescape (b : byte) : gostring :=
  if byte_eqb b "n"%char then [ch_nl]
  else if byte_eqb b "r"%char then [ch_cr]
  else if byte_eqb b "t"%char then [ch_tab]
  else if byte_eqb b ch_backslash then [ch_backslash]
  else if byte_eqb b ch_dquote then [ch_dquote]
  else if byte_eqb b ch_squote then [ch_squote]
  else if byte_eqb b ch_nl then []
  else string_of_byte b.

(** [quoted enc dec]: [enc] is made of bytes other than the double quote and
    the backslash, standing for themselves, and of backslash escapes, and
    [dec] is what they stand for. *)
Inductive quoted : gostring -> gostring -> Prop :=
| quoted_nil : quoted [] []
| quoted_byte (b : byte) (enc dec : gostring) :
    byte_eqb b ch_dquote = false -> byte_eqb b ch_backslash = false ->
    quoted enc dec -> quoted (b :: enc) (b :: dec)
| quoted_escape (c : byte) (enc dec : gostring) :
    quoted enc dec -> quoted (ch_backslash :: c :: enc) (unescape c ++ dec).

(** One byte [b] written as [chunk]: as itself, or as a backslash escape that
    the full decoder turns back into [b]. *)
Definition quoted_chunk (chunk : gostring) (b : byte) : bool :=
  match chunk with
  | [x] => byte_eqb x b && negb (byte_eqb b ch_dquote)
           && negb (byte_eqb b ch_backslash)
  | [x; c] => byte_eqb x ch_backslash && gostring_eqb (unescape c) [b]
  | _ => false
  end.

(** The bytes of an argument with a brace that survive the manual quoting:
    all but the control bytes other than newline, carriage return and tab. *)
Definition brace_arg_byte (b : byte) : bool :=
  ((32 <=? byte_val b) || (byte_val b =? 9) || (byte_val b =? 10)
   || (byte_val b =? 13))%N.

(** The runes that [strconv.Quote] writes so that the full decoder reads
    them back: the printable ones, which it writes as they are, and the
    double quote, the backslash, the newline, the carriage return and the
    tab, for which it writes an escape that the decoder knows.  Every other
    rune becomes an escape that the decoder does not know ([\a], [\x07],
    [\u00ad], ...). *)
Definition rune_reads_back (tbl : Z -> bool) (r : Z) : bool :=
  ((r =? 34) || (r =? 92) || (r =? 10) || (r =? 13) || (r =? 9))%Z
  || IsPrint tbl r.

(** Text in valid UTF-8 whose runes all read back, rune by rune as
    [strconv.Quote] reads it; [fuel] bounds the number of runes.  A byte
    that is not part of a valid encoding becomes a hexadecimal escape, which
    the decoder does not know. *)
Fixpoint text_runes (tbl : Z -> bool) (fuel : nat) (str : gostring) : bool :=
  match fuel, str with
  | _, [] => true
  | O, _ :: _ => false
  | S fuel', b0 :: _ =>
      let '(r, width) :=
        if (Z_of_byte b0 <? 128)%Z then (Z_of_byte b0, 1)
        else DecodeRuneInString str in
      negb ((width =? 1) && (r =? RuneError)%Z)
      && rune_reads_back tbl r
      && text_runes tbl fuel' (skipn width str)
  end.

(** The arguments that the formatter writes so that the scanner reads them
    back: the barewords; with a brace, any bytes but the control bytes that
    become a hexadecimal escape; without a brace, valid UTF-8 text whose
    runes read back. *)
Definition arg_round_trips (tbl : Z -> bool) (a : gostring) : bool :=
  isBarewordString a
  || (if ContainsAny a [ch_lbrace; ch_rbrace]
      then forallb brace_arg_byte a
      else text_runes tbl (length a) a).

(** One round of [strconv.Quote] on an ASCII byte. *)
Definition text_round_ok (tbl : Z -> bool) (b : byte) : bool :=
  (Z_of_byte b <? 128)%Z && negb (Z_of_byte b =? RuneError)%Z
  && quoted_chunk (appendEscapedRune tbl (Z_of_byte b)) b.

(** The byte with which a written argument starts sends the loop of [Next]
    to [parseBareword]. *)
Definition starts_argument (b : byte) : bool :=
  negb (isSpace b)
  && (isBareword b || isQuote1 b || isQuote2 b || byte_eqb b ch_backslash).

(** [body_closes depth B]: the scanner, [depth] braces deep inside a block,
    reads all of [B] as content and is back at the level of the block after
    it.  Every closing brace of [B] closes an opening brace of [B] and no
    opening brace is left open, and a backslash stands before a byte below
    128 other than a brace or a backslash (or ends [B]): the minimal decoder
    gives the two bytes back as they are. *)
Fixpoint body_closes (depth : nat) (B : gostring) : bool :=
  match B with
  | [] => depth =? 0
  | b :: r =>
      if byte_eqb b ch_backslash
      then match r with
           | [] => depth =? 0
           | c :: r' =>
               negb (byte_eqb c ch_lbrace || byte_eqb c ch_rbrace
                     || byte_eqb c ch_backslash)
               && (byte_val c <? 128)%N
               && body_closes depth r'
           end
      else if byte_eqb b ch_lbrace then body_closes (S depth) r
      else if byte_eqb b ch_rbrace
      then match depth with
           | O => false
           | S d => body_closes d r
           end
      else body_closes depth r
  end.

(** The block that the formatter writes for the body [B]. *)
Definition block (B : gostring) : gostring :=
  [ch_space; ch_lbrace; ch_nl] ++ B ++ [ch_nl; ch_rbrace].

(** What follows the arguments in the output of the formatter: nothing, or
    the block of the body. *)
Definition tail_of (B : gostring) : gostring :=
  if is_empty B then [] else block B.

Definition body_of (B : gostring) : gostring :=
  if is_empty B then [] else dedent (ch_nl :: B ++ [ch_nl]).

(** [moved sc sc']: the same buffer, the cursor not before where it was. *)
Definition moved (sc sc' : Scanner) : Prop :=
  s sc' = s sc /\ pos sc <= pos sc'.

(** The bytes of the seven classes of the loop of [Next]; the backslash is a
    bareword byte. *)
Definition classified (b : byte) : bool :=
  isSpace b || isQuote1 b || isQuote2 b || isBackQuote b || isLeftBrace b
  || isNewLine b || isBareword b.

(** [advances sc sc']: [sc'] is [sc] advanced over some bytes of its
    buffer, one call of [advance] for each. *)
Inductive advances : Scanner -> Scanner -> Prop :=
| adv_refl (sc : Scanner) : advances sc sc
| adv_step (sc : Scanner) (b : byte) (sc' : Scanner) :
    peek sc = Some b -> advances (advance sc) sc' -> advances sc sc'.

(** The five messages of the scanner. *)
Definition scan_messages : list string :=
  ["got EOF in back quote"; "got EOF in single quote";
   "got EOF in double quote"; "got EOF in opening brace";
   "got EOF after backslash"]%string.

(** An error of a sub-parser: a [ScanError] with one of the five messages,
    raised with the cursor of [sc'] at the end of the buffer and carrying
    the position of [sc']. *)
Definition error_at_end (sc' : Scanner) (oerr : option error) : Prop :=
  match oerr with
  | None => True
  | Some err =>
      peek sc' = None
      /\ exists msg, In msg scan_messages /\ err = errorAt sc' msg
  end.

(** The bytes before the cursor. *)
Definition consumed (sc : Scanner) : gostring := firstn (pos sc) (s sc).

(** The number of newline bytes of a text and the bytes after its last
    newline, read off its lines. *)
Definition newlines (text : gostring) : nat := length (splitLines text) - 1.
Definition last_line (text : gostring) : gostring := last (splitLines text) [].

(** [tracks L0 base sc]: a scanner that started on line [L0], in column 1,
    with base offset [base], has its cursor inside the buffer, its line
    [L0] plus the newlines before the cursor, and its column one more than
    the bytes between the last of them and the cursor. *)
Definition tracks (L0 base : Z) (sc : Scanner) : Prop :=
  pos sc <= length (s sc)
  /\ line sc = wrap64 (L0 + Z.of_nat (newlines (consumed sc)))
  /\ column sc = wrap64 (1 + Z.of_nat (length (last_line (consumed sc))))
  /\ baseOffset sc = base.

(** The bytes that the loop of [Next] has a case for: tab, newline and the
    bytes from 32 on. *)
Definition scannable (b : byte) : bool :=
  ((32 <=? byte_val b) || (byte_val b =? 9) || (byte_val b =? 10))%N.

(** A byte of a bareword that stands for itself wherever it is in the
    argument: a bareword byte other than the backslash. *)
Definition word_byte (b : byte) : bool :=
  isBareword b && negb (byte_eqb b ch_backslash).

(** A body with [indent] before each of its lines. *)
Definition indented (indent body : gostring) : gostring :=
  Join (map (app indent) (splitLines body)) [ch_nl].

(** [indent] put after each newline of a body: the indented body without
    its first indent. *)
Fixpoint indent_after_newlines (indent body : gostring) : gostring :=
  match body with
  | [] => []
  | b :: rest =>
      if byte_eqb b ch_nl
      then ch_nl :: indent ++ indent_after_newlines indent rest
      else b :: indent_after_newlines indent rest
  end.

(** What [FormatIndent] does to a line of a body without blank lines. *)
Definition indent_line (indent l : gostring) : gostring :=
  if nonblank l then indent ++ l else l.

(** ** Reading a whole text

    The loop of the documented use of the scanner (README, Basic Parsing,
    and [UnmarshalText]): call [Next] until it signals [io.EOF], stop at the
    first other error.  [calls] bounds the number of calls, [fuel] the
    iterations of the loop of each call; the result is the list of the
    commands read, with the error that stopped the loop, if any. *)
Fixpoint scanAll (calls fuel : nat) (sc : Scanner)
  : option (list (list gostring * gostring) * option error) :=
  match calls with
  | O => None
  | S calls' =>
      match Next fuel sc with
      | None => None
      | Some (_, (_, _, Some io_EOF)) => Some ([], None)
      | Some (_, (_, _, Some err)) => Some ([], Some err)
      | Some (sc', (args, body, None)) =>
          match scanAll calls' fuel sc' with
          | None => None
          | Some (cmds, err) => Some ((args, body) :: cmds, err)
          end
      end
  end.

(** Where an argument ends: at the end of the text, at a space or at a
    newline. *)
Definition arg_stop (rest : gostring) : Prop :=
  arg_end rest \/ exists rest', rest = ch_nl :: rest'.

(** Where a command written on one line ends: at the end of the text or at
    a newline. *)
Definition line_end (rest : gostring) : Prop :=
  rest = [] \/ exists rest', rest = ch_nl :: rest'.

(** A command that [Format] writes so that [Next] reads it back: arguments
    or a body, arguments that read back, a body that closes. *)
Definition readable_command (tbl : Z -> bool)
           (c : list gostring * gostring) : bool :=
  (negb (is_empty (snd c)) || (0 <? length (fst c)))
  && forallb (arg_round_trips tbl) (fst c)
  && body_closes 0 (snd c)
  && (Z.of_nat (length (snd c)) <? 2 ^ 63 - 1)%Z.

(** ** What a brace body comes to

    The text after an opening brace, read as [parseBrace] reads it: up to
    the closing brace that matches it, with an escaped brace or backslash
    standing for the byte alone and every other backslash kept, followed by
    [string(c)] for the byte [c] after it: [c] itself below 128, two bytes
    from 128 on.  The text may end before the brace is closed, or on a
    backslash with nothing after it. *)
Inductive brace_text :=
| Closed (body rest : gostring)
| Unclosed
| Dangling (partial : gostring).

Definition brace_unescape (c : byte) : gostring :=
  if byte_eqb c ch_lbrace then [ch_lbrace]
  else if byte_eqb c ch_rbrace then [ch_rbrace]
  else if byte_eqb c ch_backslash then [ch_backslash]
  else ch_backslash :: string_of_byte c.

Definition brace_put (x : gostring) (r : brace_text) : brace_text :=
  match r with
  | Closed body rest => Closed (x ++ body) rest
  | Unclosed => Unclosed
  | Dangling partial => Dangling (x ++ partial)
  end.

(** [depth] counts the braces open inside the body. *)
Fixpoint brace_body (depth : nat) (text : gostring) : brace_text :=
  match text with
  | [] => Unclosed
  | b :: r =>
      if byte_eqb b ch_backslash
      then match r with
           | [] => Dangling []
           | c :: r' => brace_put (brace_unescape c) (brace_body depth r')
           end
      else if byte_eqb b ch_lbrace then brace_put [b] (brace_body (S depth) r)
      else if byte_eqb b ch_rbrace
      then match depth with
           | O => Closed [] r
           | S d => brace_put [b] (brace_body d r)
           end
      else brace_put [b] (brace_body depth r)
  end.

(** What a run of [parseBrace] makes of a text: [res] is its result, [out]
    the body collected before the text, [whole] the buffer. *)
Definition brace_outcome (res : option (Scanner * parsed)) (out : gostring)
           (bt : brace_text) (whole : gostring) : Prop :=
  match bt with
  | Closed body rest =>
      exists sc' pre',
        res = Some (sc', (dedent (out ++ body), None))
        /\ cursor pre' rest sc'
  | Unclosed =>
      exists sc',
        res = Some (sc', ([], Some (errorAt sc' "got EOF in opening brace")))
        /\ cursor whole [] sc'
  | Dangling partial =>
      exists sc',
        res = Some (sc', (out ++ partial,
                          Some (errorAt sc' "got EOF after backslash")))
        /\ cursor whole [] sc'
  end.

(** The position after the last byte of an input, as a fresh scanner that
    has read all of it reports it. *)
Definition end_position (input : gostring) : Position :=
  {| Line := wrap64 (1 + Z.of_nat (newlines input));
     Column := wrap64 (1 + Z.of_nat (length (last_line input)));
     Offset := int_add 0 (Z.of_nat (length input)) |}.

(** A byte that is not a control byte: 32 or more. *)
Definition plain_byte (b : byte) : Prop := (32 <= byte_val b)%N.

(** Words after the first of a line, each with the run of spaces and tabs
    before it. *)
Definition spaced (more : list (gostring * gostring)) : gostring :=
  flat_map (fun it => fst it ++ snd it) more.

(** A word: bareword bytes without backslash, at least one. *)
Definition word (w : gostring) : bool :=
  negb (is_empty w) && forallb word_byte w.

(** A separator: spaces and tabs, at least one. *)
Definition separator (sp : gostring) : bool :=
  negb (is_empty sp) && forallb isSpace sp.

(** Where a word ends: at the end of the text, at a space, a tab or a
    newline. *)
Definition word_stop (rest : gostring) : Prop :=
  rest = []
  \/ exists b rest', rest = b :: rest' /\ (isSpace b || isNewLine b) = true.

(** * Properties *)

(** ** Go's int and the cursor *)

Lemma wrap64_idem (z : Z) : wrap64 (wrap64 z) = wrap64 z.
Proof.
  unfold wrap64.
  replace ((z + 2 ^ 63) mod 2 ^ 64 - 2 ^ 63 + 2 ^ 63)%Z
    with ((z + 2 ^ 63) mod 2 ^ 64)%Z by lia.
  rewrite Z.mod_mod by lia. reflexivity.
Qed.

Lemma advance_s (sc : Scanner) : s (advance sc) = s sc.
Proof.
  unfold advance.
  destruct (peek sc) as [b|]; [destruct (byte_eqb b ch_nl)|]; reflexivity.
Qed.

Lemma advance_pos (sc : Scanner) : pos (advance sc) = S (pos sc).
Proof.
  unfold advance.
  destruct (peek sc) as [b|]; [destruct (byte_eqb b ch_nl)|]; reflexivity.
Qed.

Lemma peek_None_iff (sc : Scanner) : peek sc = None <-> length (s sc) <= pos sc.
Proof. unfold peek. apply nth_error_None. Qed.

Lemma peek_Some_lt (sc : Scanner) (b : byte) : peek sc = Some b -> pos sc < length (s sc).
Proof. unfold peek. intros H. apply nth_error_Some. congruence. Qed.

Lemma byte_eqb_eq (a b : byte) : byte_eqb a b = true <-> a = b.
Proof. apply Ascii.eqb_eq. Qed.

Lemma byte_eqb_refl (a : byte) : byte_eqb a a = true.
Proof. apply Ascii.eqb_refl. Qed.

Lemma byte_eqb_neq (a b : byte) : byte_eqb a b = false <-> a <> b.
Proof. apply Ascii.eqb_neq. Qed.

(** ** The scanner on the inputs of the specification *)

(** C5: "cmd { a { b } c }" parses to the arguments ["cmd"] and the body
    " a { b } c ", the inner braces moving the depth and staying in the body;
    and "cmd { x \{ y \} z }", where the two inner braces are escaped by a
    backslash and do not move the depth, parses to the body " x { y } z ". *)
Theorem brace_depth_tracking :
  parse (bytes "cmd { a { b } c }")
    = Some ([bytes "cmd"], bytes " a { b } c ", None)
  /\ parse (bytes "cmd { x \{ y \} z }")
    = Some ([bytes "cmd"], bytes " x { y } z ", None).
Proof. split; vm_compute; reflexivity. Qed.

(** C7: the 9-byte input "'unclosed" fails with the error of the single
    quote left open, at line 1, column 10, offset 9. *)
Theorem unclosed_single_quote_position :
  length (bytes "'unclosed") = 9
  /\ parse (bytes "'unclosed")
     = Some ([], [],
             Some (ScanErr {| Pos := {| Line := 1; Column := 10; Offset := 9 |};
                              Msg := "got EOF in single quote" |})).
Proof. split; vm_compute; reflexivity. Qed.

(** C8: a scanner made by [NewFromScanner] from a parent and any byte slice
    starts at column 1, on the parent's current line, at the parent's
    current absolute offset, which is its base offset. *)
Theorem NewFromScanner_position (parent : Scanner) (input : gostring) :
  let child := NewFromScanner parent input in
  Column (currentPos child) = 1%Z
  /\ Line (currentPos child) = Line (currentPos parent)
  /\ Offset (currentPos child) = Offset (currentPos parent)
  /\ baseOffset child = Offset (currentPos parent)
  /\ s child = input /\ pos child = 0.
Proof.
  cbn. repeat split.
  unfold int_add at 1. rewrite Z.add_0_r. unfold int_add. apply wrap64_idem.
Qed.

(** C2, on the input "a{b}": the opening brace in the middle of the run does
    not end the argument; [parseBareword] takes it, and the closing brace, as
    bytes of the bareword, and the command has one argument and no body. *)
Theorem brace_inside_bareword_is_literal :
  isBareword ch_lbrace = false
  /\ isBarewordString (bytes "a{b}") = false
  /\ option_map snd (parseBareword (NewScanner (bytes "a{b}")))
     = Some (bytes "a{b}", None)
  /\ parse (bytes "a{b}") = Some ([bytes "a{b}"], [], None).
Proof. repeat split; vm_compute; reflexivity. Qed.

(** C3, on the one-byte input of a carriage return: the byte is in none of
    the seven classes, no case of the switch of [Next] takes it, the loop
    goes round without moving the cursor, and no number of iterations makes
    [Next] return. *)
Theorem Next_hangs_on_carriage_return :
  (isSpace ch_cr || isQuote1 ch_cr || isQuote2 ch_cr || isBackQuote ch_cr
   || isLeftBrace ch_cr || isNewLine ch_cr || isBareword ch_cr) = false
  /\ Next_body (NewScanner [ch_cr]) ch_cr [] = Some (Continue (NewScanner [ch_cr]) [])
  /\ forall fuel, Next fuel (NewScanner [ch_cr]) = None.
Proof.
  split; [reflexivity|]. split; [reflexivity|].
  unfold Next. induction fuel as [|fuel IH]; [reflexivity|].
  cbn [Next_loop]. change (peek (NewScanner [ch_cr])) with (Some ch_cr).
  cbv beta iota.
  change (Next_body (NewScanner [ch_cr]) ch_cr [])
    with (Some (Continue (NewScanner [ch_cr]) [])).
  exact IH.
Qed.

(** C10: once the cursor of a scanner has reached the end of its buffer, a
    call of [Next] returns the end-of-input signal [io.EOF], which is not a
    [ScanError], with no arguments and an empty body, and leaves the scanner
    as it was, so that every later call does the same. *)
Theorem Next_at_end_is_EOF (fuel : nat) (sc : Scanner) :
  length (s sc) <= pos sc ->
  Next fuel sc = Some (sc, ([], [], Some io_EOF)).
Proof.
  intros H. apply peek_None_iff in H.
  unfold Next. destruct fuel; cbn [Next_loop]; rewrite H; reflexivity.
Qed.

Lemma Next_at_end_is_EOF_witness :
  length (s (NewScanner (bytes "a"))) <= pos (advance (NewScanner (bytes "a")))
  /\ Next 5 (advance (NewScanner (bytes "a")))
     = Some (advance (NewScanner (bytes "a")), ([], [], Some io_EOF)).
Proof.
  split; [vm_compute; lia|].
  apply (Next_at_end_is_EOF 5 (advance (NewScanner (bytes "a")))).
  vm_compute; lia.
Defined.

(** ** Absent and empty bodies *)

(** With an empty body [FormatIndent] returns the joined arguments and
    nothing else, whatever the indent. *)
Lemma FormatIndent_empty_body (tbl : Z -> bool) (args : list gostring)
      (indent : gostring) :
  FormatIndent tbl args [] indent = Join (map (formatArg tbl) args) [ch_space].
Proof. reflexivity. Qed.

(** Against C4 as stated: the results of parsing "cmd {}" are those of
    parsing "cmd", body included, and formatting ["cmd"] with the empty body
    gives "cmd", with no brace block after it. *)
Lemma empty_body_is_absent_body :
  parse (bytes "cmd {}") = parse (bytes "cmd")
  /\ Format noTable [bytes "cmd"] []
     <> bytes "cmd" ++ [ch_space; ch_lbrace; ch_nl; ch_nl; ch_rbrace].
Proof. split; [vm_compute; reflexivity | vm_compute; discriminate]. Qed.

(** C4, amended: the body is a plain string, so an absent body and an empty
    one are the same value at the interface.  Parsing "cmd {}" succeeds with
    the argument "cmd" and the empty string as body, exactly as parsing "cmd"
    does, and formatting with the empty body appends no block: the output is
    the arguments joined by single spaces, for every argument list and
    indent. *)
Theorem empty_body_same_as_absent :
  parse (bytes "cmd {}") = Some ([bytes "cmd"], [], None)
  /\ parse (bytes "cmd") = Some ([bytes "cmd"], [], None)
  /\ forall (tbl : Z -> bool) (args : list gostring) (indent : gostring),
       FormatIndent tbl args [] indent
         = Join (map (formatArg tbl) args) [ch_space]
       /\ Format tbl args [] = FormatIndent tbl args [] indent.
Proof.
  split; [vm_compute; reflexivity|].
  split; [vm_compute; reflexivity|].
  intros tbl args indent. split; reflexivity.
Qed.

(** ** Errors keep the arguments collected so far *)

Lemma collect_Next_loop (n : nat) :
  forall (sc : Scanner) (args : list gostring) (sc0 : Scanner)
         (args0 : list gostring) (fuel : nat),
    collect n sc args = Some (sc0, args0) ->
    Next_loop (n + fuel) sc args = Next_loop fuel sc0 args0.
Proof.
  induction n as [|n IH]; intros sc args sc0 args0 fuel H.
  - cbn in H. injection H as -> ->. reflexivity.
  - cbn [collect] in H. cbn [Nat.add Next_loop].
    destruct (peek sc) as [b|]; [|discriminate].
    destruct (Next_body sc b args) as [[sc1 args1|sc1 r]|]; try discriminate.
    apply IH. exact H.
Qed.

Lemma failing_subparser_Next_body (sc sc' : Scanner) (err : error)
      (args : list gostring) :
  failing_subparser sc = Some (sc', err) ->
  exists b body,
    peek sc = Some b
    /\ Next_body sc b args = Some (Return sc' (args, body, Some err)).
Proof.
  unfold failing_subparser, Next_body.
  destruct (peek sc) as [b|]; [|discriminate].
  intros H. exists b.
  destruct (isSpace b); [discriminate|].
  destruct (isBareword b || isQuote1 b || isQuote2 b || byte_eqb b ch_backslash).
  - destruct (parseBareword sc) as [[sc1 [out [e|]]]|]; try discriminate.
    injection H as -> ->. exists []. split; reflexivity.
  - destruct (isBackQuote b).
    + destruct (parseBackQuote sc) as [[sc1 [out [e|]]]|]; try discriminate.
      injection H as -> ->. exists []. split; reflexivity.
    + destruct (isLeftBrace b); [|discriminate].
      destruct (parseBrace sc) as [[sc1 [out [e|]]]|]; try discriminate.
      injection H as -> ->. exists out. split; reflexivity.
Qed.

(** C9: when the loop of [Next], started on [sc], has collected the
    arguments [args0] in [n] iterations and the sub-parser it calls next
    fails with [err], the call of [Next] returns, and returns [err] together
    with [args0]: the arguments collected before the failure are handed to
    the caller. *)
Theorem Next_error_keeps_arguments (n : nat) (sc sc0 sc' : Scanner)
        (args0 : list gostring) (err : error) :
  collect n sc [] = Some (sc0, args0) ->
  failing_subparser sc0 = Some (sc', err) ->
  exists body, Next (S n) sc = Some (sc', (args0, body, Some err)).
Proof.
  intros Hc Hf.
  destruct (failing_subparser_Next_body sc0 sc' err args0 Hf)
    as (b & body & Hb & Hstep).
  exists body. unfold Next.
  replace (S n) with (n + 1) by lia.
  rewrite (collect_Next_loop n sc [] sc0 args0 1 Hc).
  cbn [Next_loop]. rewrite Hb, Hstep. reflexivity.
Qed.

Lemma Next_error_keeps_arguments_witness :
  let input := bytes "a b 'c" in
  let sc0 := {| s := input; pos := 4; line := 1; column := 5; baseOffset := 0 |} in
  let sc' := {| s := input; pos := 6; line := 1; column := 7; baseOffset := 0 |} in
  let err := ScanErr {| Pos := {| Line := 1; Column := 7; Offset := 6 |};
                        Msg := "got EOF in single quote" |} in
  collect 4 (NewScanner input) [] = Some (sc0, [bytes "a"; bytes "b"])
  /\ failing_subparser sc0 = Some (sc', err)
  /\ exists body,
       Next 5 (NewScanner input) = Some (sc', ([bytes "a"; bytes "b"], body, Some err)).
Proof.
  intros input sc0 sc' err.
  split; [vm_compute; reflexivity|].
  split; [vm_compute; reflexivity|].
  apply (Next_error_keeps_arguments 4 (NewScanner input) sc0 sc'
           [bytes "a"; bytes "b"] err);
    vm_compute; reflexivity.
Defined.

(** ** Dedent *)

Lemma splitLines_nonempty (str : gostring) : splitLines str <> [].
Proof.
  destruct str as [|b r]; cbn; [discriminate|].
  destruct (byte_eqb b ch_nl); [discriminate|].
  destruct (splitLines r); discriminate.
Qed.

Lemma splitLines_line (l : gostring) :
  no_newline l -> splitLines l = [l].
Proof.
  unfold no_newline. induction l as [|b l IH]; intros H; [reflexivity|].
  cbn. destruct (byte_eqb b ch_nl) eqn:E.
  - apply byte_eqb_eq in E. exfalso. apply H. left. auto.
  - rewrite IH; [reflexivity|]. intros Hin. apply H. right. exact Hin.
Qed.

Lemma splitLines_app_newline (l rest : gostring) :
  no_newline l -> splitLines (l ++ ch_nl :: rest) = l :: splitLines rest.
Proof.
  unfold no_newline. induction l as [|b l IH]; intros H.
  - cbn. reflexivity.
  - cbn. destruct (byte_eqb b ch_nl) eqn:E.
    + apply byte_eqb_eq in E. exfalso. apply H. left. auto.
    + rewrite IH; [reflexivity|]. intros Hin. apply H. right. exact Hin.
Qed.

Lemma splitLines_no_newline (str : gostring) :
  Forall no_newline (splitLines str).
Proof.
  induction str as [|b r IH]; cbn.
  - constructor; [intros []|constructor].
  - destruct (byte_eqb b ch_nl) eqn:E.
    + constructor; [intros []|exact IH].
    + destruct (splitLines r) as [|l ls].
      * constructor; [|constructor].
        intros [Hb|[]]. apply byte_eqb_neq in E. congruence.
      * inversion IH as [|? ? Hl Hls]; subst. constructor; [|exact Hls].
        intros [Hb|Hin]; [|exact (Hl Hin)].
        apply byte_eqb_neq in E. congruence.
Qed.

Lemma splitLines_Join (ls : list gostring) :
  ls <> [] -> Forall no_newline ls -> splitLines (Join ls [ch_nl]) = ls.
Proof.
  induction ls as [|l ls IH]; intros Hne H; [congruence|].
  inversion H as [|? ? Hl Hls]; subst.
  destruct ls as [|l' ls'].
  - cbn. apply splitLines_line. exact Hl.
  - change (Join (l :: l' :: ls') [ch_nl])
      with (l ++ ch_nl :: Join (l' :: ls') [ch_nl]).
    rewrite splitLines_app_newline by exact Hl.
    rewrite IH; [reflexivity|discriminate|exact Hls].
Qed.

(** Prefixes of runs of blanks. *)

Lemma gostring_eqb_refl (a : gostring) : gostring_eqb a a = true.
Proof. induction a as [|x a IH]; cbn; [reflexivity|]. rewrite byte_eqb_refl. exact IH. Qed.

Lemma newCommon_app (p a b : gostring) :
  newCommon (p ++ a) (p ++ b) = p ++ newCommon a b.
Proof.
  induction p as [|x p IH]; cbn; [reflexivity|].
  rewrite byte_eqb_refl, IH. reflexivity.
Qed.

Lemma newCommon_prefix_l (a b : gostring) :
  exists t, a = newCommon a b ++ t.
Proof.
  revert b. induction a as [|x a IH]; intros b.
  - exists []. reflexivity.
  - destruct b as [|y b]; cbn; [exists (x :: a); reflexivity|].
    destruct (byte_eqb x y); [|exists (x :: a); reflexivity].
    destruct (IH b) as [t Ht]. exists t. cbn. congruence.
Qed.

Lemma newCommon_prefix_r (a b : gostring) :
  exists t, b = newCommon a b ++ t.
Proof.
  revert b. induction a as [|x a IH]; intros b.
  - exists b. reflexivity.
  - destruct b as [|y b]; cbn; [exists []; reflexivity|].
    destruct (byte_eqb x y) eqn:E; [|exists (y :: b); reflexivity].
    apply byte_eqb_eq in E. subst y.
    destruct (IH b) as [t Ht]. exists t. cbn. congruence.
Qed.

Lemma newCommon_nil_r (a : gostring) : newCommon a [] = [].
Proof. destruct a; reflexivity. Qed.

(** The common prefix computed by the loop is a prefix of the first run and
    of every other one. *)
Lemma commonPrefix_prefix (others : list gostring) :
  forall first : gostring,
    let cp := fold_left newCommon others first in
    (exists t, first = cp ++ t)
    /\ Forall (fun ws => exists t, ws = cp ++ t) others.
Proof.
  induction others as [|ws others IH]; intros first; cbn.
  - split; [exists []; symmetry; apply app_nil_r|constructor].
  - destruct (IH (newCommon first ws)) as [[t Ht] Hall].
    cbn in Ht, Hall.
    set (cp := fold_left newCommon others (newCommon first ws)) in *.
    destruct (newCommon_prefix_l first ws) as [t1 H1].
    destruct (newCommon_prefix_r first ws) as [t2 H2].
    split; [|constructor].
    + exists (t ++ t1). rewrite app_assoc, <- Ht. exact H1.
    + exists (t ++ t2). rewrite app_assoc, <- Ht. exact H2.
    + exact Hall.
Qed.

Lemma fold_newCommon_app (p : gostring) (others : list gostring) :
  forall first : gostring,
    fold_left newCommon (map (app p) others) (p ++ first)
    = p ++ fold_left newCommon others first.
Proof.
  induction others as [|ws others IH]; intros first; cbn; [reflexivity|].
  rewrite newCommon_app. apply IH.
Qed.

Lemma TrimSpace_is_empty_blank_cons (b : byte) (l : gostring) :
  isSpace b = true -> TrimSpace_is_empty (b :: l) = TrimSpace_is_empty l.
Proof.
  unfold isSpace. intros H. apply orb_true_iff in H.
  destruct H as [H|H]; apply byte_eqb_eq in H; subst b; reflexivity.
Qed.

Lemma TrimSpace_is_empty_blanks_app (p l : gostring) :
  blanks p -> TrimSpace_is_empty (p ++ l) = TrimSpace_is_empty l.
Proof.
  induction 1 as [|b p Hb Hp IH]; [reflexivity|].
  rewrite <- app_comm_cons, TrimSpace_is_empty_blank_cons by exact Hb. exact IH.
Qed.

Lemma leadingWS_blanks (l : gostring) : blanks (leadingWS l).
Proof.
  induction l as [|b l IH]; cbn; [constructor|].
  destruct (byte_eqb b ch_space || byte_eqb b ch_tab) eqn:E; constructor; assumption.
Qed.

Lemma leadingWS_app (p l : gostring) :
  blanks p -> leadingWS (p ++ l) = p ++ leadingWS l.
Proof.
  induction 1 as [|b p Hb Hp IH]; [reflexivity|].
  cbn. unfold isSpace in Hb. rewrite Hb, IH. reflexivity.
Qed.

Lemma leadingWS_prefix (l : gostring) : exists rest, l = leadingWS l ++ rest.
Proof.
  induction l as [|b l [rest IH]]; cbn; [exists []; reflexivity|].
  destruct (byte_eqb b ch_space || byte_eqb b ch_tab).
  - exists rest. cbn. congruence.
  - exists (b :: l). reflexivity.
Qed.

Lemma blanks_app_l (p t : gostring) : blanks (p ++ t) -> blanks p.
Proof. unfold blanks. intros H. apply Forall_app in H. tauto. Qed.

Lemma skipn_length_app {A : Type} (p l : list A) : skipn (length p) (p ++ l) = l.
Proof. induction p; cbn; auto. Qed.

Lemma firstn_length_app {A : Type} (p l : list A) : firstn (length p) (p ++ l) = p.
Proof. induction p; cbn; congruence. Qed.

(** What [dedentLine] does to a line that has the prefix among its leading
    blanks: a blank line stays, another line loses the prefix, stays
    non-blank, and its leading blanks are the old ones without the prefix. *)
Lemma dedentLine_prefixed (cp t l : gostring) :
  leadingWS l = cp ++ t ->
  TrimSpace_is_empty l = false ->
  dedentLine cp l = skipn (length cp) l
  /\ TrimSpace_is_empty (dedentLine cp l) = false
  /\ leadingWS (dedentLine cp l) = t.
Proof.
  intros Hws Hnb.
  destruct (leadingWS_prefix l) as [rest Hl]. rewrite Hws in Hl.
  assert (Hb : blanks (cp ++ t)) by (rewrite <- Hws; apply leadingWS_blanks).
  assert (Hcp : blanks cp) by (eapply blanks_app_l; eauto).
  rewrite <- app_assoc in Hl. subst l.
  assert (Hd : dedentLine cp (cp ++ t ++ rest) = t ++ rest).
  { unfold dedentLine. rewrite Hnb.
    rewrite firstn_length_app, gostring_eqb_refl, skipn_length_app.
    rewrite length_app.
    replace (length cp <=? length cp + length (t ++ rest)) with true
      by (symmetry; apply Nat.leb_le; lia).
    reflexivity. }
  split; [|split].
  - rewrite Hd, skipn_length_app. reflexivity.
  - rewrite Hd.
    rewrite TrimSpace_is_empty_blanks_app in Hnb by exact Hcp. exact Hnb.
  - rewrite Hd.
    rewrite leadingWS_app in Hws by exact Hcp.
    apply app_inv_head in Hws. exact Hws.
Qed.

Lemma dedentLine_blank (cp l : gostring) :
  TrimSpace_is_empty l = true -> dedentLine cp l = l.
Proof. unfold dedentLine. intros ->. reflexivity. Qed.

Lemma Forall_map_filter {A B : Type} (P : B -> Prop) (f : A -> B) (g : A -> bool)
      (l : list A) :
  Forall P (map f (filter g l)) -> Forall (fun x => g x = true -> P (f x)) l.
Proof.
  induction l as [|x l IH]; cbn; intros H; [constructor|].
  destruct (g x) eqn:E.
  - inversion H; subst. constructor; [auto|apply IH; assumption].
  - constructor; [congruence|apply IH; assumption].
Qed.

(** The second pass sees the leading blanks of the first pass without the
    common prefix. *)
Lemma leading_after_dedentLine (cp : gostring) (lines : list gostring) :
  Forall (fun l => nonblank l = true -> exists t, leadingWS l = cp ++ t) lines ->
  exists lw',
    map leadingWS (filter nonblank lines) = map (app cp) lw'
    /\ map leadingWS (filter nonblank (map (dedentLine cp) lines)) = lw'.
Proof.
  induction 1 as [|l lines Hl Hls (lw' & H1 & H2)]; [exists []; split; reflexivity|].
  cbn [map filter].
  destruct (nonblank l) eqn:Hn.
  - destruct (Hl eq_refl) as [t Ht].
    assert (E : TrimSpace_is_empty l = false)
      by (apply negb_true_iff; exact Hn).
    destruct (dedentLine_prefixed cp t l Ht E) as (_ & Hnb & Hws).
    assert (Hn' : nonblank (dedentLine cp l) = true)
      by (unfold nonblank; rewrite Hnb; reflexivity).
    rewrite Hn'. exists (t :: lw'). cbn [map]. rewrite Ht, H1, Hws, H2.
    split; reflexivity.
  - assert (E : TrimSpace_is_empty l = true)
      by (apply negb_false_iff; exact Hn).
    rewrite dedentLine_blank by exact E. rewrite Hn.
    exists lw'. split; assumption.
Qed.

Lemma dedentLine_no_newline (cp l : gostring) :
  no_newline l -> no_newline (dedentLine cp l).
Proof.
  unfold no_newline, dedentLine. intros H.
  destruct (TrimSpace_is_empty l); [exact H|].
  destruct ((length cp <=? length l) && gostring_eqb (firstn (length cp) l) cp);
    [|exact H].
  intros Hin. apply H. rewrite <- (firstn_skipn (length cp) l).
  apply in_or_app. right. exact Hin.
Qed.

(** The two ways out of [dedent]: the input itself, or its lines without a
    non-empty prefix that all the leading blanks of the non-blank lines
    share. *)
Lemma dedent_cases (str : gostring) :
  dedent str = str
  \/ exists cp first others,
       map leadingWS (filter nonblank (splitLines str)) = first :: others
       /\ cp = fold_left newCommon others first
       /\ dedent str = Join (map (dedentLine cp) (splitLines str)) [ch_nl].
Proof.
  unfold dedent.
  destruct (is_empty str); [left; reflexivity|].
  destruct (length (splitLines str) <=? 1); [left; reflexivity|].
  fold nonblank.
  destruct (map leadingWS (filter nonblank (splitLines str))) as [|first others] eqn:E;
    [left; reflexivity|].
  destruct (is_empty (fold_left newCommon others first)); [left; reflexivity|].
  right. exists (fold_left newCommon others first), first, others.
  repeat split.
Qed.

(** C6: [dedent] is idempotent. *)
Theorem dedent_idempotent (str : gostring) :
  dedent (dedent str) = dedent str.
Proof.
  destruct (dedent_cases str) as [H|(cp & first & others & Hlw & Hcp & H)].
  - rewrite H. exact H.
  - rewrite H. set (lines := splitLines str) in *.
    set (R := Join (map (dedentLine cp) lines) [ch_nl]).
    assert (Hsplit : splitLines R = map (dedentLine cp) lines).
    { apply splitLines_Join.
      - intros Hnil. apply map_eq_nil in Hnil.
        exact (splitLines_nonempty str Hnil).
      - apply Forall_map.
        eapply Forall_impl; [|apply (splitLines_no_newline str)].
        intros l. apply dedentLine_no_newline. }
    assert (Hpre : Forall (fun l => nonblank l = true ->
                                    exists t, leadingWS l = cp ++ t) lines).
    { destruct (commonPrefix_prefix others first) as [Hf Ho].
      cbn in Hf, Ho. rewrite <- Hcp in Hf, Ho.
      assert (Hall : Forall (fun ws : gostring => exists t, ws = cp ++ t)
                            (first :: others))
        by (constructor; assumption).
      apply (Forall_map_filter (fun ws : gostring => exists t, ws = cp ++ t)
               leadingWS nonblank lines).
      exact (eq_ind_r (Forall _) Hall Hlw). }
    destruct (leading_after_dedentLine cp lines Hpre) as (lw' & H1 & H2).
    unfold dedent. destruct (is_empty R); [reflexivity|].
    rewrite Hsplit.
    destruct (length (map (dedentLine cp) lines) <=? 1); [reflexivity|].
    fold nonblank. rewrite H2.
    destruct lw' as [|first' others']; [reflexivity|].
    rewrite Hlw in H1. cbn in H1. injection H1 as Hfirst Hothers.
    rewrite Hfirst, Hothers, fold_newCommon_app in Hcp.
    rewrite <- (app_nil_r cp) in Hcp at 1.
    apply app_inv_head in Hcp. rewrite <- Hcp. reflexivity.
Qed.

(** ** The cursor over a buffer *)

Lemma cursor_peek (pre rest : gostring) (b : byte) (sc : Scanner) :
  cursor pre (b :: rest) sc -> peek sc = Some b.
Proof.
  intros [Hs Hp]. unfold peek. rewrite Hs, Hp.
  rewrite nth_error_app2 by lia. rewrite Nat.sub_diag. reflexivity.
Qed.

Lemma cursor_peek_end (pre : gostring) (sc : Scanner) :
  cursor pre [] sc -> peek sc = None.
Proof.
  intros [Hs Hp]. apply peek_None_iff. rewrite Hs, Hp, app_nil_r. lia.
Qed.

Lemma cursor_advance (pre rest : gostring) (b : byte) (sc : Scanner) :
  cursor pre (b :: rest) sc -> cursor (pre ++ [b]) rest (advance sc).
Proof.
  intros [Hs Hp]. split.
  - rewrite advance_s, Hs, <- app_assoc. reflexivity.
  - rewrite advance_pos, Hp, length_app. cbn. lia.
Qed.

Lemma cursor_remaining (pre rest : gostring) (sc : Scanner) :
  cursor pre rest sc -> remaining sc = length rest.
Proof.
  intros [Hs Hp]. unfold remaining. rewrite Hs, Hp, length_app. lia.
Qed.

Lemma cursor_slice (p0 lit rest : gostring) (sc : Scanner) :
  cursor (p0 ++ lit) rest sc -> slice (s sc) (length p0) (pos sc) = lit.
Proof.
  intros [Hs Hp]. unfold slice. rewrite Hs, Hp, <- app_assoc.
  rewrite skipn_length_app, length_app.
  replace (length p0 + length lit - length p0) with (length lit) by lia.
  apply firstn_length_app.
Qed.

Lemma cursor_slice_from (p0 lit : gostring) (sc : Scanner) :
  cursor (p0 ++ lit) [] sc -> slice_from (s sc) (length p0) = lit.
Proof.
  intros [Hs Hp]. unfold slice_from. rewrite Hs, app_nil_r.
  apply skipn_length_app.
Qed.

Lemma cursor_NewScanner (input : gostring) : cursor [] input (NewScanner input).
Proof. split; reflexivity. Qed.

(** ** Barewords *)

Lemma parseBareword_loop_literal (fuel : nat) (sc : Scanner) (i : nat)
      (out : gostring) (b : byte) :
  peek sc = Some b -> bareword_literal b = true ->
  parseBareword_loop (S fuel) sc i out = parseBareword_loop fuel (advance sc) i out.
Proof.
  unfold bareword_literal. intros Hp H.
  repeat (apply andb_true_iff in H; destruct H as [H ?]).
  repeat match goal with
         | Hn : negb _ = true |- _ => apply negb_true_iff in Hn
         end.
  cbn [parseBareword_loop]. rewrite Hp.
  repeat match goal with
         | Hn : _ = false |- _ => rewrite Hn; clear Hn
         end.
  reflexivity.
Qed.

(** The loop steps over a run of such bytes, one iteration for each. *)
Lemma parseBareword_loop_run (w : gostring) :
  forall (pre rest : gostring) (sc : Scanner) (fuel i : nat) (out : gostring),
    forallb bareword_literal w = true ->
    cursor pre (w ++ rest) sc ->
    remaining sc <= fuel ->
    exists sc' fuel',
      cursor (pre ++ w) rest sc'
      /\ remaining sc' <= fuel'
      /\ parseBareword_loop fuel sc i out = parseBareword_loop fuel' sc' i out.
Proof.
  induction w as [|b w IH]; intros pre rest sc fuel i out Hw Hc Hf.
  - exists sc, fuel. rewrite app_nil_r. auto.
  - cbn in Hw. apply andb_true_iff in Hw. destruct Hw as [Hb Hw].
    cbn [app] in Hc.
    pose proof (cursor_peek _ _ _ _ Hc) as Hp.
    pose proof (cursor_remaining _ _ _ Hc) as Hr. cbn in Hr.
    destruct fuel as [|fuel]; [lia|].
    rewrite (parseBareword_loop_literal fuel sc i out b Hp Hb).
    apply cursor_advance in Hc.
    destruct (IH (pre ++ [b]) rest (advance sc) fuel i out Hw Hc)
      as (sc' & fuel' & Hc' & Hf' & Heq).
    { rewrite (cursor_remaining _ _ _ Hc). lia. }
    exists sc', fuel'. rewrite <- app_assoc in Hc'. auto.
Qed.

(** How the loop of [parseBareword] ends there. *)
Lemma parseBareword_loop_end (p0 lit rest out : gostring) (sc : Scanner)
      (fuel : nat) :
  arg_end rest ->
  cursor (p0 ++ lit) rest sc ->
  remaining sc <= fuel ->
  parseBareword_loop fuel sc (length p0) out = Some (sc, (out ++ lit, None)).
Proof.
  intros [->|[rest' ->]] Hc Hf.
  - pose proof (cursor_peek_end _ _ Hc) as Hp.
    pose proof (cursor_slice_from _ _ _ Hc) as Hs.
    destruct fuel; cbn [parseBareword_loop]; rewrite Hp, Hs;
      destruct out; reflexivity.
  - pose proof (cursor_peek _ _ _ _ Hc) as Hp.
    pose proof (cursor_slice _ _ _ _ Hc) as Hs.
    pose proof (cursor_remaining _ _ _ Hc) as Hr. cbn in Hr.
    destruct fuel as [|fuel]; [lia|].
    cbn [parseBareword_loop]. rewrite Hp, Hs. reflexivity.
Qed.

Lemma isBarewordString_literal (a : gostring) :
  isBarewordString a = true -> forallb bareword_literal a = true.
Proof.
  unfold isBarewordString. destruct a as [|x a]; [discriminate|].
  cbn [is_empty]. intros H. rewrite forallb_forall in *. intros b Hb.
  specialize (H b Hb). apply negb_true_iff, orb_false_iff in H.
  destruct H as [H1 H2]. apply negb_false_iff in H1.
  unfold bareword_literal. rewrite H2.
  unfold isBareword in H1.
  destruct (byte_val b <? 32)%N eqn:E; [discriminate|].
  destruct (isSpace b); [discriminate|].
  destruct (isQuote1 b); [discriminate|].
  destruct (isQuote2 b); [discriminate|].
  destruct (byte_eqb b ch_nl) eqn:En; [|reflexivity].
  apply byte_eqb_eq in En. subst b. discriminate.
Qed.

(** [parseBareword] takes a run of such bytes that ends where an argument
    ends as one argument; the bytes may be opening braces, backticks or
    control bytes. *)
Lemma parseBareword_run (w pre rest : gostring) (sc : Scanner) :
  forallb bareword_literal w = true ->
  arg_end rest ->
  cursor pre (w ++ rest) sc ->
  exists sc', parseBareword sc = Some (sc', (w, None))
              /\ cursor (pre ++ w) rest sc'.
Proof.
  intros Hw He Hc. unfold parseBareword.
  destruct (parseBareword_loop_run w pre rest sc (remaining sc) (pos sc) []
              Hw Hc (le_n _))
    as (sc' & fuel' & Hc' & Hf' & Heq).
  exists sc'. split; [|exact Hc'].
  rewrite Heq. destruct Hc as [_ Hpos]. rewrite Hpos.
  apply (parseBareword_loop_end pre w rest [] sc' fuel' He Hc' Hf').
Qed.

Lemma bareword_literal_brace_backquote_cr :
  bareword_literal ch_lbrace = true /\ bareword_literal ch_backquote = true
  /\ bareword_literal ch_cr = true.
Proof. repeat split. Qed.

(** [parseBareword] reads back an argument that the formatter wrote bare. *)
Lemma parseBareword_bare (a pre rest : gostring) (sc : Scanner) :
  isBarewordString a = true ->
  arg_end rest ->
  cursor pre (a ++ rest) sc ->
  exists sc', parseBareword sc = Some (sc', (a, None))
              /\ cursor (pre ++ a) rest sc'.
Proof.
  intros Ha. apply parseBareword_run. apply isBarewordString_literal. exact Ha.
Qed.

(** ** Double quotes *)

Lemma parseBackslashEscape_cursor (pre rest : gostring) (c : byte) (sc : Scanner) :
  cursor pre (ch_backslash :: c :: rest) sc ->
  exists sc', parseBackslashEscape sc = (sc', (unescape c, None))
              /\ cursor (pre ++ [ch_backslash; c]) rest sc'.
Proof.
  intros Hc. unfold parseBackslashEscape.
  rewrite (cursor_peek _ _ _ _ Hc).
  apply cursor_advance in Hc. rewrite (cursor_peek _ _ _ _ Hc).
  apply cursor_advance in Hc. rewrite <- app_assoc in Hc. cbn [app] in Hc.
  exists (advance (advance sc)). split; [|exact Hc].
  unfold unescape.
  repeat match goal with
         | |- context [if ?c then _ else _] => destruct c
         end; reflexivity.
Qed.

Lemma parseQuote2_loop_quoted (enc dec : gostring) :
  quoted enc dec ->
  forall (p0 lit rest : gostring) (sc : Scanner) (fuel : nat) (out : gostring),
    cursor (p0 ++ lit) (enc ++ rest) sc ->
    remaining sc <= fuel ->
    exists sc' fuel' p0' lit' out',
      cursor (p0' ++ lit') rest sc'
      /\ p0' ++ lit' = p0 ++ lit ++ enc
      /\ remaining sc' <= fuel'
      /\ out' ++ lit' = out ++ lit ++ dec
      /\ parseQuote2_loop fuel sc (length p0) out
         = parseQuote2_loop fuel' sc' (length p0') out'.
Proof.
  induction 1 as [|b enc dec Hq Hb Henc IH|c enc dec Henc IH];
    intros p0 lit rest sc fuel out Hc Hf.
  - exists sc, fuel, p0, lit, out. rewrite !app_nil_r.
    cbn [app] in Hc. auto.
  - cbn [app] in Hc.
    pose proof (cursor_peek _ _ _ _ Hc) as Hp.
    pose proof (cursor_remaining _ _ _ Hc) as Hr. cbn in Hr.
    destruct fuel as [|fuel]; [lia|].
    apply cursor_advance in Hc. rewrite <- app_assoc in Hc.
    destruct (IH p0 (lit ++ [b]) rest (advance sc) fuel out Hc)
      as (sc' & fuel' & p0' & lit' & out' & Hc' & Hpre & Hf' & Hout & Heq).
    { rewrite (cursor_remaining _ _ _ Hc). lia. }
    exists sc', fuel', p0', lit', out'.
    refine (conj Hc' (conj _ (conj Hf' (conj _ _)))).
    + rewrite Hpre, <- !app_assoc. reflexivity.
    + rewrite Hout, <- !app_assoc. reflexivity.
    + cbn [parseQuote2_loop]. rewrite Hp, Hq, Hb. exact Heq.
  - cbn [app] in Hc.
    pose proof (cursor_peek _ _ _ _ Hc) as Hp.
    pose proof (cursor_remaining _ _ _ Hc) as Hr. cbn in Hr.
    pose proof (cursor_slice _ _ _ _ Hc) as Hs.
    destruct fuel as [|fuel]; [lia|].
    destruct (parseBackslashEscape_cursor _ _ _ _ Hc) as (sc1 & He & Hc1).
    rewrite <- (app_nil_r ((p0 ++ lit) ++ [ch_backslash; c])) in Hc1.
    destruct (IH ((p0 ++ lit) ++ [ch_backslash; c]) [] rest sc1 fuel
                 ((out ++ lit) ++ unescape c) Hc1)
      as (sc' & fuel' & p0' & lit' & out' & Hc' & Hpre & Hf' & Hout & Heq).
    { rewrite (cursor_remaining _ _ _ Hc1). lia. }
    exists sc', fuel', p0', lit', out'.
    refine (conj Hc' (conj _ (conj Hf' (conj _ _)))).
    + rewrite Hpre. cbn [app]. rewrite <- !app_assoc. reflexivity.
    + rewrite Hout. cbn [app]. rewrite <- !app_assoc. reflexivity.
    + cbn [parseQuote2_loop]. rewrite Hp.
      change (byte_eqb ch_backslash ch_dquote) with false.
      change (byte_eqb ch_backslash ch_backslash) with true.
      cbv beta iota. rewrite Hs, He.
      destruct Hc1 as [_ Hpos1]. rewrite app_nil_r in Hpos1.
      rewrite Hpos1. exact Heq.
Qed.

(** [parseQuote2] decodes a quoted text between two double quotes. *)
Lemma parseQuote2_quoted (enc dec pre rest : gostring) (sc : Scanner) :
  quoted enc dec ->
  cursor pre (ch_dquote :: enc ++ ch_dquote :: rest) sc ->
  exists sc', parseQuote2 sc = Some (sc', (dec, None))
              /\ cursor (pre ++ ch_dquote :: enc ++ [ch_dquote]) rest sc'.
Proof.
  intros Hq Hc. unfold parseQuote2.
  apply cursor_advance in Hc.
  rewrite <- (app_nil_r (pre ++ [ch_dquote])) in Hc.
  destruct (parseQuote2_loop_quoted enc dec Hq (pre ++ [ch_dquote]) []
              (ch_dquote :: rest) (advance sc) (remaining (advance sc)) []
              Hc (le_n _))
    as (sc' & fuel' & p0' & lit' & out' & Hc' & Hpre & Hf' & Hout & Heq).
  destruct Hc as [_ Hpos]. rewrite app_nil_r in Hpos. rewrite Hpos, Heq.
  pose proof (cursor_peek _ _ _ _ Hc') as Hp.
  pose proof (cursor_remaining _ _ _ Hc') as Hr. cbn in Hr.
  pose proof (cursor_slice _ _ _ _ Hc') as Hs.
  destruct fuel' as [|fuel']; [lia|].
  exists (advance sc'). split.
  - cbn [parseQuote2_loop]. rewrite Hp.
    change (byte_eqb ch_dquote ch_dquote) with true. cbv beta iota.
    rewrite Hs, Hout. reflexivity.
  - apply cursor_advance in Hc'. rewrite Hpre in Hc'.
    cbn [app] in Hc'. rewrite <- !app_assoc in Hc'. exact Hc'.
Qed.

(** [parseBareword] reads back an argument that stands between double
    quotes. *)
Lemma parseBareword_quoted (enc dec pre rest : gostring) (sc : Scanner) :
  quoted enc dec ->
  arg_end rest ->
  cursor pre (ch_dquote :: enc ++ ch_dquote :: rest) sc ->
  exists sc', parseBareword sc = Some (sc', (dec, None))
              /\ cursor (pre ++ ch_dquote :: enc ++ [ch_dquote]) rest sc'.
Proof.
  intros Hq He Hc. unfold parseBareword.
  pose proof (cursor_peek _ _ _ _ Hc) as Hp.
  pose proof (cursor_remaining _ _ _ Hc) as Hr. cbn [length] in Hr.
  destruct (parseQuote2_quoted enc dec pre rest sc Hq Hc) as (sc' & Hq2 & Hc').
  exists sc'. split; [|exact Hc'].
  rewrite Hr. cbn [parseBareword_loop]. rewrite Hp.
  change (isSpace ch_dquote) with false.
  change (isQuote1 ch_dquote) with false.
  change (isQuote2 ch_dquote) with true.
  cbv beta iota. rewrite Hq2.
  pose proof Hc' as Hc''.
  rewrite <- (app_nil_r (pre ++ ch_dquote :: enc ++ [ch_dquote])) in Hc''.
  destruct Hc' as [_ Hpos]. rewrite Hpos.
  rewrite (parseBareword_loop_end _ [] rest _ sc' _ He Hc'').
  - rewrite app_nil_r.
    destruct Hc as [_ Hpos0]. rewrite Hpos0.
    replace (slice (s sc) (length pre) (length pre)) with (@nil byte)
      by (unfold slice; rewrite Nat.sub_diag; reflexivity).
    reflexivity.
  - rewrite (cursor_remaining _ _ _ Hc'').
    rewrite length_app. cbn [length]. lia.
Qed.

(** ** What [quoteArg] writes is what [parseQuote2] reads *)

Lemma gostring_eqb_eq (a b : gostring) : gostring_eqb a b = true -> a = b.
Proof.
  revert b. induction a as [|x a IH]; intros [|y b]; cbn; try discriminate; auto.
  intros H. apply andb_true_iff in H. destruct H as [Hx Ha].
  apply byte_eqb_eq in Hx. f_equal; auto.
Qed.

Lemma quoted_chunk_quoted (chunk : gostring) (b : byte) (enc dec : gostring) :
  quoted_chunk chunk b = true -> quoted enc dec ->
  quoted (chunk ++ enc) (b :: dec).
Proof.
  unfold quoted_chunk. intros H Hq.
  destruct chunk as [|x [|c [|? ?]]]; try discriminate.
  - apply andb_true_iff in H. destruct H as [H H3].
    apply andb_true_iff in H. destruct H as [H1 H2].
    apply byte_eqb_eq in H1. subst x.
    apply negb_true_iff in H2, H3. cbn. constructor; assumption.
  - apply andb_true_iff in H. destruct H as [H1 H2].
    apply byte_eqb_eq in H1. subst x. apply gostring_eqb_eq in H2.
    change (b :: dec) with ([b] ++ dec). rewrite <- H2. cbn [app].
    constructor. exact Hq.
Qed.

Ltac each_byte b :=
  destruct b as [[|] [|] [|] [|] [|] [|] [|] [|]].

Lemma quoteByte_chunk (b : byte) :
  brace_arg_byte b = true -> quoted_chunk (quoteByte b) b = true.
Proof. each_byte b; vm_compute; intros H; try discriminate H; reflexivity. Qed.

Lemma quoted_flat_map_quoteByte (a : gostring) :
  forallb brace_arg_byte a = true -> quoted (flat_map quoteByte a) a.
Proof.
  induction a as [|b a IH]; cbn; intros H; [constructor|].
  apply andb_true_iff in H. destruct H as [Hb Ha].
  apply quoted_chunk_quoted; [apply quoteByte_chunk; exact Hb|auto].
Qed.

(** ** UTF-8: decoding and encoding

    The bit operations of [DecodeRuneInString] and [AppendRune] as
    arithmetic. *)
Lemma lor_mul_add (x k y : Z) :
  (0 <= k)%Z -> (0 <= y < 2 ^ k)%Z ->
  Z.lor (x * 2 ^ k) y = (x * 2 ^ k + y)%Z.
Proof.
  intros Hk Hy. rewrite <- Z.add_lor_land.
  assert (H : Z.land (x * 2 ^ k) y = 0%Z).
  { destruct (Z.eq_dec y 0) as [->|Hne]; [apply Z.land_0_r|].
    apply Z.bits_inj'. intros n Hn.
    rewrite Z.land_spec, Z.bits_0.
    destruct (Z.lt_ge_cases n k) as [Hlt|Hge].
    - rewrite Z.mul_pow2_bits_low by exact Hlt. reflexivity.
    - rewrite (Z.bits_above_log2 y n); [apply andb_false_r|lia|].
      assert (Z.log2 y < k)%Z by (apply Z.log2_lt_pow2; lia). lia. }
  rewrite H. lia.
Qed.

Lemma Z_of_byte_range (b : byte) : (0 <= Z_of_byte b < 256)%Z.
Proof.
  unfold Z_of_byte, byte_val.
  pose proof (N_ascii_bounded b) as H. lia.
Qed.

Lemma byte_of_Z_of_byte (b : byte) : byte_of_Z (Z_of_byte b) = b.
Proof.
  unfold byte_of_Z, Z_of_byte, byte_val. rewrite N2Z.id.
  apply ascii_N_embedding.
Qed.

Lemma land_low (x k : Z) : (0 <= k)%Z -> Z.land x (Z.ones k) = (x mod 2 ^ k)%Z.
Proof. intros Hk. apply Z.land_ones. exact Hk. Qed.

(** The continuation byte of an encoding. *)
Lemma cont_byte (x : Z) (b : byte) :
  (x mod 64 = Z_of_byte b - 128)%Z ->
  byte_of_Z (Z.lor 128 (Z.land x 63)) = b.
Proof.
  intros H. change 63%Z with (Z.ones 6). rewrite land_low by lia.
  change (2 ^ 6)%Z with 64%Z. rewrite H.
  pose proof (Z.mod_pos_bound x 64 ltac:(lia)) as Hm.
  change 128%Z with (2 * 2 ^ 6)%Z at 1.
  rewrite lor_mul_add by (change (2 ^ 6)%Z with 64%Z; lia).
  change (2 * 2 ^ 6)%Z with 128%Z.
  replace (128 + (Z_of_byte b - 128))%Z with (Z_of_byte b) by lia.
  apply byte_of_Z_of_byte.
Qed.

(** The leading byte of an encoding: the marker [m * 2 ^ k] and the high
    bits of the rune. *)
Lemma lead_byte (m k j r : Z) (b : byte) :
  (0 <= k)%Z -> (0 <= j)%Z -> (0 <= r)%Z ->
  (r / 2 ^ j = Z_of_byte b - m * 2 ^ k)%Z ->
  (Z_of_byte b - m * 2 ^ k < 2 ^ k)%Z ->
  byte_of_Z (Z.lor (m * 2 ^ k) (Z.shiftr r j)) = b.
Proof.
  intros Hk Hj Hr Hd Hlt.
  rewrite Z.shiftr_div_pow2 by exact Hj. rewrite Hd.
  assert (0 <= r / 2 ^ j)%Z by (apply Z.div_pos; [lia|apply Z.pow_pos_nonneg; lia]).
  rewrite lor_mul_add by lia.
  replace (m * 2 ^ k + (Z_of_byte b - m * 2 ^ k))%Z with (Z_of_byte b) by lia.
  apply byte_of_Z_of_byte.
Qed.

Ltac zb :=
  repeat match goal with
         | H : (_ || _) = false |- _ =>
             apply orb_false_iff in H; destruct H
         | H : (_ <? _)%Z = true |- _ => apply Z.ltb_lt in H
         | H : (_ <? _)%Z = false |- _ => apply Z.ltb_ge in H
         | H : (_ =? _)%Z = true |- _ => apply Z.eqb_eq in H
         | H : (_ =? _)%Z = false |- _ => apply Z.eqb_neq in H
         end.

Lemma decode2 (s0 s1 : Z) :
  (Z.lor (Z.shiftl (Z.land s0 31) 6) (Z.land s1 63)
   = (s0 mod 32) * 64 + s1 mod 64)%Z.
Proof.
  change 31%Z with (Z.ones 5). change 63%Z with (Z.ones 6).
  rewrite !land_low by lia. rewrite Z.shiftl_mul_pow2 by lia.
  pose proof (Z.mod_pos_bound s1 (2 ^ 6) ltac:(lia)).
  rewrite lor_mul_add by lia. reflexivity.
Qed.

Lemma decode3 (s0 s1 s2 : Z) :
  (Z.lor (Z.shiftl (Z.land s0 15) 12)
     (Z.lor (Z.shiftl (Z.land s1 63) 6) (Z.land s2 63))
   = (s0 mod 16) * 4096 + (s1 mod 64) * 64 + s2 mod 64)%Z.
Proof.
  change 15%Z with (Z.ones 4). change 63%Z with (Z.ones 6).
  rewrite !land_low by lia. rewrite !Z.shiftl_mul_pow2 by lia.
  pose proof (Z.mod_pos_bound s1 (2 ^ 6) ltac:(lia)).
  pose proof (Z.mod_pos_bound s2 (2 ^ 6) ltac:(lia)).
  rewrite (lor_mul_add (s1 mod 2 ^ 6) 6) by lia.
  rewrite lor_mul_add; [|lia|].
  - change (2 ^ 12)%Z with 4096%Z. change (2 ^ 6)%Z with 64%Z.
    change (2 ^ 4)%Z with 16%Z. lia.
  - change (2 ^ 12)%Z with 4096%Z. change (2 ^ 6)%Z with 64%Z in *. lia.
Qed.

Lemma decode4 (s0 s1 s2 s3 : Z) :
  (Z.lor (Z.shiftl (Z.land s0 7) 18)
     (Z.lor (Z.shiftl (Z.land s1 63) 12)
        (Z.lor (Z.shiftl (Z.land s2 63) 6) (Z.land s3 63)))
   = (s0 mod 8) * 262144 + (s1 mod 64) * 4096 + (s2 mod 64) * 64
     + s3 mod 64)%Z.
Proof.
  change 7%Z with (Z.ones 3). change 63%Z with (Z.ones 6).
  rewrite !land_low by lia. rewrite !Z.shiftl_mul_pow2 by lia.
  pose proof (Z.mod_pos_bound s1 (2 ^ 6) ltac:(lia)).
  pose proof (Z.mod_pos_bound s2 (2 ^ 6) ltac:(lia)).
  pose proof (Z.mod_pos_bound s3 (2 ^ 6) ltac:(lia)).
  rewrite (lor_mul_add (s2 mod 2 ^ 6) 6) by lia.
  rewrite (lor_mul_add (s1 mod 2 ^ 6) 12);
    [|lia|change (2 ^ 12)%Z with 4096%Z; change (2 ^ 6)%Z with 64%Z in *; lia].
  rewrite lor_mul_add; [|lia|].
  - change (2 ^ 18)%Z with 262144%Z. change (2 ^ 12)%Z with 4096%Z.
    change (2 ^ 6)%Z with 64%Z. change (2 ^ 3)%Z with 8%Z. lia.
  - change (2 ^ 18)%Z with 262144%Z. change (2 ^ 12)%Z with 4096%Z.
    change (2 ^ 6)%Z with 64%Z in *. lia.
Qed.

Lemma encode2 (b0 b1 : byte) (r : Z) :
  (194 <= Z_of_byte b0 < 224)%Z -> (128 <= Z_of_byte b1 <= 191)%Z ->
  r = ((Z_of_byte b0 - 192) * 64 + (Z_of_byte b1 - 128))%Z ->
  AppendRune r = [b0; b1].
Proof.
  intros H0 H1 Hr. unfold AppendRune.
  replace (r <=? 127)%Z with false by (symmetry; apply Z.leb_gt; lia).
  replace (0 <=? r)%Z with true by (symmetry; apply Z.leb_le; lia).
  replace (r <=? 2047)%Z with true by (symmetry; apply Z.leb_le; lia).
  cbn [andb]. f_equal; [|f_equal].
  - change 192%Z with (3 * 2 ^ 6)%Z.
    apply lead_byte; change (2 ^ 6)%Z with 64%Z; try lia.
    subst r. Z.div_mod_to_equations. lia.
  - apply cont_byte. subst r. Z.div_mod_to_equations. lia.
Qed.

Lemma encode3 (b0 b1 b2 : byte) (r : Z) :
  (224 <= Z_of_byte b0 < 240)%Z -> (128 <= Z_of_byte b1 <= 191)%Z ->
  (128 <= Z_of_byte b2 <= 191)%Z ->
  (Z_of_byte b0 = 224 -> 160 <= Z_of_byte b1)%Z ->
  (Z_of_byte b0 = 237 -> Z_of_byte b1 <= 159)%Z ->
  r = ((Z_of_byte b0 - 224) * 4096 + (Z_of_byte b1 - 128) * 64
       + (Z_of_byte b2 - 128))%Z ->
  AppendRune r = [b0; b1; b2].
Proof.
  intros H0 H1 H2 Hlo Hhi Hr. unfold AppendRune.
  replace (r <=? 127)%Z with false by (symmetry; apply Z.leb_gt; lia).
  replace (r <=? 2047)%Z with false by (symmetry; apply Z.leb_gt; lia).
  rewrite !andb_false_r.
  replace (r <? 0)%Z with false by (symmetry; apply Z.ltb_ge; lia).
  replace (1114111 <? r)%Z with false by (symmetry; apply Z.ltb_ge; lia).
  replace ((55296 <=? r)%Z && (r <=? 57343)%Z) with false.
  2:{ symmetry. apply andb_false_iff.
      destruct (Z.le_gt_cases 55296 r) as [Hge|Hlt];
        [right; apply Z.leb_gt; lia|left; apply Z.leb_gt; lia]. }
  cbn [orb].
  replace (r <=? 65535)%Z with true by (symmetry; apply Z.leb_le; lia).
  f_equal; [|f_equal; [|f_equal]].
  - change 224%Z with (14 * 2 ^ 4)%Z.
    apply lead_byte; change (2 ^ 4)%Z with 16%Z;
      change (2 ^ 12)%Z with 4096%Z; try lia.
    subst r. Z.div_mod_to_equations. lia.
  - apply cont_byte. rewrite Z.shiftr_div_pow2 by lia.
    change (2 ^ 6)%Z with 64%Z. subst r. Z.div_mod_to_equations. lia.
  - apply cont_byte. subst r. Z.div_mod_to_equations. lia.
Qed.

Lemma encode4 (b0 b1 b2 b3 : byte) (r : Z) :
  (240 <= Z_of_byte b0 <= 244)%Z -> (128 <= Z_of_byte b1 <= 191)%Z ->
  (128 <= Z_of_byte b2 <= 191)%Z -> (128 <= Z_of_byte b3 <= 191)%Z ->
  (Z_of_byte b0 = 240 -> 144 <= Z_of_byte b1)%Z ->
  (Z_of_byte b0 = 244 -> Z_of_byte b1 <= 143)%Z ->
  r = ((Z_of_byte b0 - 240) * 262144 + (Z_of_byte b1 - 128) * 4096
       + (Z_of_byte b2 - 128) * 64 + (Z_of_byte b3 - 128))%Z ->
  AppendRune r = [b0; b1; b2; b3].
Proof.
  intros H0 H1 H2 H3 Hlo Hhi Hr. unfold AppendRune.
  replace (r <=? 127)%Z with false by (symmetry; apply Z.leb_gt; lia).
  replace (r <=? 2047)%Z with false by (symmetry; apply Z.leb_gt; lia).
  rewrite !andb_false_r.
  replace (r <? 0)%Z with false by (symmetry; apply Z.ltb_ge; lia).
  replace (1114111 <? r)%Z with false by (symmetry; apply Z.ltb_ge; lia).
  replace (r <=? 57343)%Z with false by (symmetry; apply Z.leb_gt; lia).
  rewrite andb_false_r. cbn [orb].
  replace (r <=? 65535)%Z with false by (symmetry; apply Z.leb_gt; lia).
  f_equal; [|f_equal; [|f_equal; [|f_equal]]].
  - change 240%Z with (30 * 2 ^ 3)%Z.
    apply lead_byte; change (2 ^ 3)%Z with 8%Z;
      change (2 ^ 18)%Z with 262144%Z; try lia.
    subst r. Z.div_mod_to_equations. lia.
  - apply cont_byte. rewrite Z.shiftr_div_pow2 by lia.
    change (2 ^ 12)%Z with 4096%Z. subst r. Z.div_mod_to_equations. lia.
  - apply cont_byte. rewrite Z.shiftr_div_pow2 by lia.
    change (2 ^ 6)%Z with 64%Z. subst r. Z.div_mod_to_equations. lia.
  - apply cont_byte. subst r. Z.div_mod_to_equations. lia.
Qed.

(** A rune that [DecodeRuneInString] reads from a valid encoding is
    written back by [AppendRune] as the bytes it was read from. *)
Lemma DecodeRune_AppendRune (b0 : byte) (tl : gostring) (r : Z) (width : nat) :
  (128 <= Z_of_byte b0)%Z ->
  DecodeRuneInString (b0 :: tl) = (r, width) ->
  ((width =? 1)%nat && (r =? RuneError)%Z) = false ->
  exists enc rest,
    b0 :: tl = enc ++ rest /\ length enc = width /\ AppendRune r = enc
    /\ 1 <= width
    /\ (128 <= r)%Z /\ Forall (fun b => (128 <= Z_of_byte b)%Z) enc.
Proof.
  assert (Hpair : forall (x r : Z) (w width : nat),
             (x, w) = (r, width) -> r = x /\ width = w).
  { intros x r0 w width0 E. split; congruence. }
  intros Hhi H Hne. unfold DecodeRuneInString in H.
  replace (Z_of_byte b0 <? 128)%Z with false in H
    by (symmetry; apply Z.ltb_ge; lia).
  cbv zeta in H.
  destruct ((Z_of_byte b0 <? 194)%Z || (244 <? Z_of_byte b0)%Z) eqn:E0.
  { injection H as <- <-. discriminate Hne. }
  destruct tl as [|b1 r1].
  { injection H as <- <-. discriminate Hne. }
  zb.
  pose proof (Z_of_byte_range b0) as R0.
  pose proof (Z_of_byte_range b1) as R1.
  destruct (Z_of_byte b0 <? 224)%Z eqn:E1.
  { (* two bytes *)
    zb.
    destruct (Z.eqb_spec (Z_of_byte b0) 224); [lia|].
    destruct (Z.eqb_spec (Z_of_byte b0) 240); [lia|].
    destruct (Z.eqb_spec (Z_of_byte b0) 237); [lia|].
    destruct (Z.eqb_spec (Z_of_byte b0) 244); [lia|].
    destruct ((Z_of_byte b1 <? 128)%Z || (191 <? Z_of_byte b1)%Z) eqn:E2.
    { injection H as <- <-. discriminate Hne. }
    zb. apply Hpair in H. destruct H as [-> ->]. rewrite decode2.
    exists [b0; b1], r1.
    split; [reflexivity|]. split; [reflexivity|].
    split; [apply encode2; try lia; Z.div_mod_to_equations; lia|].
    split; [cbn; lia|]. split; [Z.div_mod_to_equations; lia|].
    repeat (constructor; [lia|]). constructor. }
  destruct r1 as [|b2 r2].
  { injection H as <- <-. discriminate Hne. }
  pose proof (Z_of_byte_range b2) as R2.
  assert (Hb1 : (128 <= Z_of_byte b1 <= 191)%Z
                /\ (Z_of_byte b0 = 224 -> 160 <= Z_of_byte b1)%Z
                /\ (Z_of_byte b0 = 237 -> Z_of_byte b1 <= 159)%Z
                /\ (Z_of_byte b0 = 240 -> 144 <= Z_of_byte b1)%Z
                /\ (Z_of_byte b0 = 244 -> Z_of_byte b1 <= 143)%Z
                \/ (r = RuneError /\ width = 1%nat)).
  { destruct ((Z_of_byte b1 <?
               (if Z_of_byte b0 =? 224 then 160
                else if Z_of_byte b0 =? 240 then 144 else 128))%Z
              || ((if Z_of_byte b0 =? 237 then 159
                   else if Z_of_byte b0 =? 244 then 143 else 191)
                  <? Z_of_byte b1)%Z) eqn:E2.
    - right.
      destruct (Z_of_byte b0 <? 240)%Z;
        [|destruct r2]; injection H as <- <-; split; reflexivity.
    - left. zb.
      destruct (Z.eqb_spec (Z_of_byte b0) 224);
        destruct (Z.eqb_spec (Z_of_byte b0) 240);
        destruct (Z.eqb_spec (Z_of_byte b0) 237);
        destruct (Z.eqb_spec (Z_of_byte b0) 244); lia. }
  destruct Hb1 as [Hb1|[-> ->]]; [|discriminate Hne].
  destruct Hb1 as (Hb1 & Hlo3 & Hhi3 & Hlo4 & Hhi4).
  replace ((Z_of_byte b1 <?
            (if Z_of_byte b0 =? 224 then 160
             else if Z_of_byte b0 =? 240 then 144 else 128))%Z
           || ((if Z_of_byte b0 =? 237 then 159
                else if Z_of_byte b0 =? 244 then 143 else 191)
               <? Z_of_byte b1)%Z) with false in H.
  2:{ symmetry. apply orb_false_iff.
      destruct (Z.eqb_spec (Z_of_byte b0) 224);
        destruct (Z.eqb_spec (Z_of_byte b0) 240);
        destruct (Z.eqb_spec (Z_of_byte b0) 237);
        destruct (Z.eqb_spec (Z_of_byte b0) 244);
        split; first [apply Z.ltb_ge; lia|lia]. }
  destruct (Z_of_byte b0 <? 240)%Z eqn:E3.
  { (* three bytes *)
    zb.
    destruct ((Z_of_byte b2 <? 128)%Z || (191 <? Z_of_byte b2)%Z) eqn:E4.
    { injection H as <- <-. discriminate Hne. }
    zb. apply Hpair in H. destruct H as [-> ->]. rewrite decode3.
    exists [b0; b1; b2], r2.
    split; [reflexivity|]. split; [reflexivity|].
    split; [apply encode3; try lia; Z.div_mod_to_equations; lia|].
    split; [cbn; lia|]. split; [Z.div_mod_to_equations; lia|].
    repeat (constructor; [lia|]). constructor. }
  destruct r2 as [|b3 r3].
  { injection H as <- <-. discriminate Hne. }
  pose proof (Z_of_byte_range b3) as R3.
  zb.
  destruct ((Z_of_byte b2 <? 128)%Z || (191 <? Z_of_byte b2)%Z) eqn:E4.
  { injection H as <- <-. discriminate Hne. }
  destruct ((Z_of_byte b3 <? 128)%Z || (191 <? Z_of_byte b3)%Z) eqn:E5.
  { injection H as <- <-. discriminate Hne. }
  zb. apply Hpair in H. destruct H as [-> ->]. rewrite decode4.
  exists [b0; b1; b2; b3], r3.
  split; [reflexivity|]. split; [reflexivity|].
  split; [apply encode4; try lia; Z.div_mod_to_equations; lia|].
  split; [cbn; lia|]. split; [Z.div_mod_to_equations; lia|].
  repeat (constructor; [lia|]). constructor.
Qed.

Section StrconvQuote.

Variable tbl : Z -> bool.

(** An ASCII rune that reads back is written as a chunk that the full
    decoder turns back into its byte. *)
Lemma ascii_rune_round (b : byte) :
  (Z_of_byte b <? 128)%Z = true ->
  rune_reads_back tbl (Z_of_byte b) = true ->
  text_round_ok tbl b = true.
Proof.
  each_byte b; vm_compute; intros H1 H2;
    try discriminate H1; try discriminate H2; reflexivity.
Qed.

(** Bytes from 128 on stand for themselves between double quotes. *)
Lemma quoted_raw (enc e d : gostring) :
  Forall (fun b => (128 <= Z_of_byte b)%Z) enc ->
  quoted e d -> quoted (enc ++ e) (enc ++ d).
Proof.
  induction 1 as [|b enc Hb _ IH]; intros Hq; [exact Hq|].
  cbn [app]. constructor; [| |apply IH; exact Hq].
  - apply byte_eqb_neq. intros ->. vm_compute in Hb. apply Hb. reflexivity.
  - apply byte_eqb_neq. intros ->. vm_compute in Hb. apply Hb. reflexivity.
Qed.

(** A rune from 128 on that reads back is printable, and written as it
    is. *)
Lemma appendEscapedRune_printable (r : Z) :
  (128 <= r)%Z -> rune_reads_back tbl r = true ->
  appendEscapedRune tbl r = AppendRune r.
Proof.
  intros Hr H. unfold rune_reads_back in H. unfold appendEscapedRune.
  replace (r =? 34)%Z with false in * by (symmetry; apply Z.eqb_neq; lia).
  replace (r =? 92)%Z with false in * by (symmetry; apply Z.eqb_neq; lia).
  replace (r =? 10)%Z with false in H by (symmetry; apply Z.eqb_neq; lia).
  replace (r =? 13)%Z with false in H by (symmetry; apply Z.eqb_neq; lia).
  replace (r =? 9)%Z with false in H by (symmetry; apply Z.eqb_neq; lia).
  cbn [orb] in *. rewrite H. reflexivity.
Qed.

Lemma appendQuoted_loop_text (n : nat) :
  forall (a : gostring) (fuel fuel2 : nat),
    length a <= n ->
    length a <= fuel2 ->
    text_runes tbl fuel a = true ->
    quoted (appendQuoted_loop tbl fuel2 a) a.
Proof.
  induction n as [n IH] using lt_wf_ind.
  intros a fuel fuel2 Hn Hf H.
  destruct a as [|b0 tl].
  - destruct fuel2; constructor.
  - destruct fuel as [|fuel]; [discriminate H|].
    destruct fuel2 as [|fuel2]; [cbn in Hf; lia|].
    cbn [text_runes] in H. cbn [appendQuoted_loop].
    destruct (Z_of_byte b0 <? 128)%Z eqn:E.
    + apply andb_true_iff in H. destruct H as [H Hrest].
      apply andb_true_iff in H. destruct H as [_ Hr].
      pose proof (ascii_rune_round b0 E Hr) as Hb.
      unfold text_round_ok in Hb.
      apply andb_true_iff in Hb. destruct Hb as [Hb H3].
      apply andb_true_iff in Hb. destruct Hb as [_ H2].
      apply negb_true_iff in H2.
      rewrite H2, andb_false_r. cbn [skipn] in *.
      apply quoted_chunk_quoted; [exact H3|].
      apply (IH (length tl) ltac:(cbn [length] in Hn; lia) tl fuel fuel2
                (le_n _) ltac:(cbn [length] in Hf; lia) Hrest).
    + destruct (DecodeRuneInString (b0 :: tl)) as [r width] eqn:Hd.
      apply andb_true_iff in H. destruct H as [H Hrest].
      apply andb_true_iff in H. destruct H as [Herr Hr].
      apply negb_true_iff in Herr. apply Z.ltb_ge in E.
      destruct (DecodeRune_AppendRune b0 tl r width E Hd Herr)
        as (enc & rest & Ha & Hlen & Henc & Hw & Hr128 & Hhigh).
      rewrite Herr.
      rewrite (appendEscapedRune_printable r Hr128 Hr), Henc.
      assert (Hskip : skipn width (b0 :: tl) = rest).
      { rewrite Ha, <- Hlen, skipn_app, Nat.sub_diag, skipn_all.
        reflexivity. }
      rewrite Hskip in *. rewrite Ha.
      apply quoted_raw; [exact Hhigh|].
      assert (Hl : length (b0 :: tl) = width + length rest)
        by (rewrite Ha, length_app, Hlen; reflexivity).
      apply (IH (length rest) ltac:(lia) rest fuel fuel2 (le_n _)
                ltac:(cbn [length] in Hf, Hl; lia) Hrest).
Qed.

(** The two ways of writing an argument that reads back. *)
Lemma formatArg_cases (a : gostring) :
  arg_round_trips tbl a = true ->
  (isBarewordString a = true /\ formatArg tbl a = a)
  \/ exists enc, formatArg tbl a = ch_dquote :: enc ++ [ch_dquote]
                 /\ quoted enc a.
Proof.
  unfold arg_round_trips, formatArg, quoteArg, strconv_Quote.
  destruct (isBarewordString a); [left; split; reflexivity|].
  cbn [orb]. intros H. right.
  destruct (ContainsAny a [ch_lbrace; ch_rbrace]).
  - exists (flat_map quoteByte a). split; [reflexivity|].
    apply quoted_flat_map_quoteByte. exact H.
  - exists (appendQuoted_loop tbl (length a) a). split; [reflexivity|].
    apply (appendQuoted_loop_text (length a) a (length a) (length a)
             (le_n _) (le_n _) H).
Qed.

Lemma formatArg_start (a : gostring) :
  arg_round_trips tbl a = true ->
  exists b tl, formatArg tbl a = b :: tl /\ starts_argument b = true.
Proof.
  intros H. destruct (formatArg_cases a H) as [[Hb ->]|(enc & -> & _)].
  - unfold isBarewordString in Hb. destruct a as [|b a]; [discriminate|].
    exists b, a. split; [reflexivity|].
    cbn in Hb. apply andb_true_iff in Hb. destruct Hb as [Hb _].
    apply negb_true_iff, orb_false_iff in Hb. destruct Hb as [Hb _].
    apply negb_false_iff in Hb. unfold starts_argument. rewrite Hb.
    unfold isBareword in Hb.
    destruct (byte_val b <? 32)%N; [discriminate|].
    destruct (isSpace b); [discriminate|reflexivity].
  - exists ch_dquote, (enc ++ [ch_dquote]). split; reflexivity.
Qed.

(** [parseBareword] reads back what [formatArg] wrote. *)
Lemma parseBareword_formatArg (a pre rest : gostring) (sc : Scanner) :
  arg_round_trips tbl a = true ->
  arg_end rest ->
  cursor pre (formatArg tbl a ++ rest) sc ->
  exists sc', parseBareword sc = Some (sc', (a, None))
              /\ cursor (pre ++ formatArg tbl a) rest sc'.
Proof.
  intros H He Hc.
  destruct (formatArg_cases a H) as [[Hb Heq]|(enc & Heq & Hq)];
    rewrite Heq in *.
  - apply parseBareword_bare; assumption.
  - cbn [app] in Hc. rewrite <- app_assoc in Hc. cbn [app] in Hc.
    apply (parseBareword_quoted enc a pre rest sc Hq He Hc).
Qed.

End StrconvQuote.

(** ** Brace blocks *)

Lemma wrap64_small (z : Z) :
  (- 2 ^ 63 <= z < 2 ^ 63)%Z -> wrap64 z = z.
Proof. intros H. unfold wrap64. rewrite Z.mod_small; lia. Qed.

Lemma parseBraceEscape_cursor (pre rest : gostring) (c : byte) (sc : Scanner) :
  (byte_eqb c ch_lbrace || byte_eqb c ch_rbrace || byte_eqb c ch_backslash) = false ->
  (byte_val c <? 128)%N = true ->
  cursor pre (ch_backslash :: c :: rest) sc ->
  exists sc', parseBraceEscape sc = (sc', ([ch_backslash; c], None))
              /\ cursor (pre ++ [ch_backslash; c]) rest sc'.
Proof.
  intros H Hlow Hc. unfold parseBraceEscape.
  rewrite (cursor_peek _ _ _ _ Hc).
  apply cursor_advance in Hc. rewrite (cursor_peek _ _ _ _ Hc).
  apply cursor_advance in Hc. rewrite <- app_assoc in Hc. cbn [app] in Hc.
  exists (advance (advance sc)). split; [|exact Hc].
  apply orb_false_iff in H. destruct H as [H H3].
  apply orb_false_iff in H. destruct H as [H1 H2].
  rewrite H1, H2, H3. unfold string_of_byte. rewrite Hlow. reflexivity.
Qed.

(** An iteration of the loop of [parseBrace] on a byte that is no brace and
    no backslash. *)
Lemma parseBrace_loop_other (fuel : nat) (sc : Scanner) (i : nat)
      (out : gostring) (stack : Z) (b : byte) :
  peek sc = Some b ->
  byte_eqb b ch_backslash = false -> byte_eqb b ch_lbrace = false ->
  byte_eqb b ch_rbrace = false ->
  parseBrace_loop (S fuel) sc i out stack
  = parseBrace_loop fuel (advance sc) i out stack.
Proof.
  intros Hp H1 H2 H3. cbn [parseBrace_loop]. rewrite Hp, H1, H2, H3.
  reflexivity.
Qed.

(** The loop of [parseBrace] over a body that closes, and the newline that
    the formatter writes after it. *)
Lemma parseBrace_loop_body (n : nat) :
  forall (B : gostring) (depth : nat) (p0 lit rest : gostring) (sc : Scanner)
         (fuel : nat) (out : gostring),
    length B <= n ->
    body_closes depth B = true ->
    (Z.of_nat depth + Z.of_nat (length B) < 2 ^ 63 - 1)%Z ->
    cursor (p0 ++ lit) (B ++ ch_nl :: rest) sc ->
    remaining sc <= fuel ->
    exists sc' fuel' p0' lit' out',
      cursor (p0' ++ lit') rest sc'
      /\ remaining sc' <= fuel'
      /\ out' ++ lit' = out ++ lit ++ B ++ [ch_nl]
      /\ parseBrace_loop fuel sc (length p0) out (1 + Z.of_nat depth)
         = parseBrace_loop fuel' sc' (length p0') out' 1.
Proof.
  induction n as [n IH] using lt_wf_ind.
  intros B depth p0 lit rest sc fuel out Hn Hb Hbound Hc Hf.
  pose proof (cursor_remaining _ _ _ Hc) as Hr.
  destruct B as [|b r].
  - (* the newline after the body *)
    cbn [body_closes] in Hb. apply Nat.eqb_eq in Hb. subst depth.
    cbn [app] in Hc. cbn [app length] in Hr.
    pose proof (cursor_peek _ _ _ _ Hc) as Hp.
    destruct fuel as [|fuel]; [lia|].
    rewrite (parseBrace_loop_other fuel sc _ out _ ch_nl Hp eq_refl eq_refl eq_refl).
    apply cursor_advance in Hc. rewrite <- app_assoc in Hc.
    exists (advance sc), fuel, p0, (lit ++ [ch_nl]), out.
    split; [exact Hc|]. split; [rewrite (cursor_remaining _ _ _ Hc); lia|].
    split; [reflexivity|reflexivity].
  - cbn [app] in Hc. cbn [app length] in Hr, Hn, Hbound.
    pose proof (cursor_peek _ _ _ _ Hc) as Hp.
    destruct fuel as [|fuel]; [lia|].
    cbn [body_closes] in Hb.
    destruct (byte_eqb b ch_backslash) eqn:E1.
    + apply byte_eqb_eq in E1. subst b.
      pose proof (cursor_slice _ _ _ _ Hc) as Hs.
      destruct r as [|c r'].
      * (* a backslash at the end of the body, before the newline *)
        apply Nat.eqb_eq in Hb. subst depth. cbn [app] in Hc.
        destruct (parseBraceEscape_cursor _ _ ch_nl _ eq_refl eq_refl Hc)
          as (sc1 & He & Hc1).
        exists sc1, fuel, ((p0 ++ lit) ++ [ch_backslash; ch_nl]), [],
               ((out ++ lit) ++ [ch_backslash; ch_nl]).
        rewrite app_nil_r.
        split; [exact Hc1|]. split; [rewrite (cursor_remaining _ _ _ Hc1); cbn in Hr; lia|].
        split; [rewrite app_nil_r, <- !app_assoc; reflexivity|].
        cbn [parseBrace_loop]. rewrite Hp.
        change (byte_eqb ch_backslash ch_backslash) with true. cbv beta iota.
        rewrite Hs, He. destruct Hc1 as [_ Hpos1]. rewrite Hpos1. reflexivity.
      * apply andb_true_iff in Hb. destruct Hb as [Hc0 Hb].
        apply andb_true_iff in Hc0. destruct Hc0 as [Hc0 Hlow].
        apply negb_true_iff in Hc0. cbn [app] in Hc.
        destruct (parseBraceEscape_cursor _ _ c _ Hc0 Hlow Hc)
          as (sc1 & He & Hc1).
        rewrite <- (app_nil_r ((p0 ++ lit) ++ [ch_backslash; c])) in Hc1.
        destruct (IH (length r') ltac:(cbn [length] in Hn; lia) r' depth
                     ((p0 ++ lit) ++ [ch_backslash; c]) [] rest sc1 fuel
                     ((out ++ lit) ++ [ch_backslash; c]) (le_n _) Hb
                     ltac:(cbn [length] in Hbound; lia) Hc1)
          as (sc' & fuel' & p0' & lit' & out' & Hc' & Hf' & Hout & Heq).
        { rewrite (cursor_remaining _ _ _ Hc1). cbn [app length] in Hr. lia. }
        exists sc', fuel', p0', lit', out'.
        split; [exact Hc'|]. split; [exact Hf'|].
        split; [rewrite Hout; cbn [app]; rewrite <- !app_assoc; reflexivity|].
        cbn [parseBrace_loop]. rewrite Hp.
        change (byte_eqb ch_backslash ch_backslash) with true. cbv beta iota.
        rewrite Hs, He. destruct Hc1 as [_ Hpos1].
        rewrite app_nil_r in Hpos1. rewrite Hpos1. exact Heq.
    + pose proof Hc as Hc1. apply cursor_advance in Hc1.
      rewrite <- app_assoc in Hc1.
      assert (Hf1 : remaining (advance sc) <= fuel)
        by (rewrite (cursor_remaining _ _ _ Hc1); lia).
      destruct (byte_eqb b ch_lbrace) eqn:E2.
      * (* an opening brace: one level deeper *)
        destruct (IH (length r) ltac:(lia) r (S depth) p0 (lit ++ [b]) rest
                     (advance sc) fuel out (le_n _) Hb ltac:(lia) Hc1 Hf1)
          as (sc' & fuel' & p0' & lit' & out' & Hc' & Hf' & Hout & Heq).
        exists sc', fuel', p0', lit', out'.
        split; [exact Hc'|]. split; [exact Hf'|].
        split; [rewrite Hout, <- !app_assoc; reflexivity|].
        cbn [parseBrace_loop]. rewrite Hp, E1, E2.
        unfold int_add. rewrite wrap64_small by lia.
        replace (1 + Z.of_nat depth + 1)%Z with (1 + Z.of_nat (S depth))%Z by lia.
        exact Heq.
      * destruct (byte_eqb b ch_rbrace) eqn:E3.
        -- (* a closing brace inside the body: one level up *)
           destruct depth as [|d]; [discriminate|].
           destruct (IH (length r) ltac:(lia) r d p0 (lit ++ [b]) rest
                        (advance sc) fuel out (le_n _) Hb ltac:(lia) Hc1 Hf1)
             as (sc' & fuel' & p0' & lit' & out' & Hc' & Hf' & Hout & Heq).
           exists sc', fuel', p0', lit', out'.
           split; [exact Hc'|]. split; [exact Hf'|].
           split; [rewrite Hout, <- !app_assoc; reflexivity|].
           cbn [parseBrace_loop]. rewrite Hp, E1, E2, E3.
           unfold int_sub. rewrite wrap64_small by lia.
           replace (1 + Z.of_nat (S d) - 1)%Z with (1 + Z.of_nat d)%Z by lia.
           replace (1 + Z.of_nat d =? 0)%Z with false
             by (symmetry; apply Z.eqb_neq; lia).
           exact Heq.
        -- destruct (IH (length r) ltac:(lia) r depth p0 (lit ++ [b]) rest
                        (advance sc) fuel out (le_n _) Hb ltac:(lia) Hc1 Hf1)
             as (sc' & fuel' & p0' & lit' & out' & Hc' & Hf' & Hout & Heq).
           exists sc', fuel', p0', lit', out'.
           split; [exact Hc'|]. split; [exact Hf'|].
           split; [rewrite Hout, <- !app_assoc; reflexivity|].
           rewrite (parseBrace_loop_other fuel sc _ out _ b Hp E1 E2 E3).
           exact Heq.
Qed.

(** [parseBrace] reads the block back as the body between two newlines,
    dedented. *)
Lemma parseBrace_block (B pre rest : gostring) (sc : Scanner) :
  body_closes 0 B = true ->
  (Z.of_nat (length B) < 2 ^ 63 - 1)%Z ->
  cursor pre (ch_lbrace :: ch_nl :: B ++ ch_nl :: ch_rbrace :: rest) sc ->
  exists sc', parseBrace sc = Some (sc', (dedent (ch_nl :: B ++ [ch_nl]), None)).
Proof.
  intros Hb Hbound Hc. unfold parseBrace.
  apply cursor_advance in Hc.
  pose proof (cursor_peek _ _ _ _ Hc) as Hp.
  pose proof (cursor_remaining _ _ _ Hc) as Hr. cbn [length] in Hr.
  destruct Hc as [Hs Hpos]. rewrite Hr, Hpos.
  rewrite (parseBrace_loop_other _ (advance sc) _ [] 1 ch_nl Hp eq_refl eq_refl eq_refl).
  assert (Hc1 : cursor ((pre ++ [ch_lbrace]) ++ [ch_nl])
                       (B ++ ch_nl :: ch_rbrace :: rest) (advance (advance sc)))
    by (apply cursor_advance; split; assumption).
  destruct (parseBrace_loop_body (length B) B 0 (pre ++ [ch_lbrace]) [ch_nl]
              (ch_rbrace :: rest) (advance (advance sc))
              (length (B ++ ch_nl :: ch_rbrace :: rest)) [] (le_n _) Hb
              ltac:(cbn [Z.of_nat]; lia) Hc1)
    as (sc' & fuel' & p0' & lit' & out' & Hc' & Hf' & Hout & Heq).
  { rewrite (cursor_remaining _ _ _ Hc1). apply le_n. }
  change (1 + Z.of_nat 0)%Z with 1%Z in Heq. rewrite Heq.
  pose proof (cursor_peek _ _ _ _ Hc') as Hp'.
  pose proof (cursor_remaining _ _ _ Hc') as Hr'. cbn [length] in Hr'.
  pose proof (cursor_slice _ _ _ _ Hc') as Hs'.
  destruct fuel' as [|fuel']; [lia|].
  exists (advance sc'). cbn [parseBrace_loop]. rewrite Hp'.
  change (byte_eqb ch_rbrace ch_backslash) with false.
  change (byte_eqb ch_rbrace ch_lbrace) with false.
  change (byte_eqb ch_rbrace ch_rbrace) with true.
  change (int_sub 1 1 =? 0)%Z with true. cbv beta iota.
  rewrite Hs', Hout. reflexivity.
Qed.

(** ** The round trip *)

Section RoundTrip.

Variable tbl : Z -> bool.

(** The loop of [Next] at a block: the space, then the body. *)
Lemma Next_loop_block (B pre : gostring) (sc : Scanner) (fuel : nat)
      (acc : list gostring) :
  body_closes 0 B = true ->
  (Z.of_nat (length B) < 2 ^ 63 - 1)%Z ->
  cursor pre (block B) sc ->
  remaining sc <= fuel ->
  results (Next_loop fuel sc acc)
  = Some (acc, dedent (ch_nl :: B ++ [ch_nl]), None).
Proof.
  intros Hb Hbound Hc Hf. unfold block in Hc. cbn [app] in Hc.
  pose proof (cursor_peek _ _ _ _ Hc) as Hp.
  pose proof (cursor_remaining _ _ _ Hc) as Hr. cbn [length] in Hr.
  destruct fuel as [|fuel]; [lia|].
  cbn [Next_loop]. rewrite Hp.
  change (Next_body sc ch_space acc) with (Some (Continue (advance sc) acc)).
  cbv beta iota.
  apply cursor_advance in Hc.
  pose proof (cursor_peek _ _ _ _ Hc) as Hp1.
  destruct fuel as [|fuel]; [lia|].
  cbn [Next_loop]. rewrite Hp1.
  replace (B ++ [ch_nl; ch_rbrace]) with (B ++ ch_nl :: ch_rbrace :: []) in Hc
    by reflexivity.
  destruct (parseBrace_block B _ [] (advance sc) Hb Hbound Hc) as (sc' & Hpb).
  unfold Next_body.
  change (isSpace ch_lbrace) with false.
  change (isBareword ch_lbrace || isQuote1 ch_lbrace || isQuote2 ch_lbrace
          || byte_eqb ch_lbrace ch_backslash) with false.
  change (isBackQuote ch_lbrace) with false.
  change (isLeftBrace ch_lbrace) with true.
  cbv beta iota. rewrite Hpb. reflexivity.
Qed.

(** The loop of [Next] at the end of the text, with arguments collected. *)
Lemma Next_loop_end (pre : gostring) (sc : Scanner) (fuel : nat)
      (acc : list gostring) :
  acc <> [] ->
  cursor pre [] sc ->
  results (Next_loop fuel sc acc) = Some (acc, [], None).
Proof.
  intros Hacc Hc. pose proof (cursor_peek_end _ _ Hc) as Hp.
  destruct acc as [|a acc]; [congruence|].
  destruct fuel; cbn [Next_loop]; rewrite Hp; reflexivity.
Qed.

Lemma Next_loop_tail (B pre : gostring) (sc : Scanner) (fuel : nat)
      (acc : list gostring) :
  acc <> [] \/ B <> [] ->
  body_closes 0 B = true ->
  (Z.of_nat (length B) < 2 ^ 63 - 1)%Z ->
  cursor pre (tail_of B) sc ->
  remaining sc <= fuel ->
  results (Next_loop fuel sc acc) = Some (acc, body_of B, None).
Proof.
  unfold tail_of, body_of. intros Hne Hb Hbound Hc Hf.
  destruct B as [|b B]; cbn [is_empty] in *.
  - apply (Next_loop_end pre); [|exact Hc].
    destruct Hne as [H|H]; [exact H|congruence].
  - apply (Next_loop_block (b :: B) pre); assumption.
Qed.

Lemma arg_end_tail_of (B : gostring) : arg_end (tail_of B).
Proof.
  unfold tail_of, arg_end. destruct B; cbn [is_empty].
  - left. reflexivity.
  - right. unfold block. cbn [app]. eexists. reflexivity.
Qed.

(** One iteration of the loop of [Next] on a written argument. *)
Lemma Next_loop_argument (a pre rest : gostring) (sc : Scanner) (fuel : nat)
      (acc : list gostring) :
  arg_round_trips tbl a = true ->
  arg_end rest ->
  cursor pre (formatArg tbl a ++ rest) sc ->
  remaining sc <= fuel ->
  exists sc' fuel',
    cursor (pre ++ formatArg tbl a) rest sc'
    /\ remaining sc' <= fuel'
    /\ Next_loop fuel sc acc = Next_loop fuel' sc' (acc ++ [a]).
Proof.
  intros Ha He Hc Hf.
  destruct (formatArg_start tbl a Ha) as (b & tl & Hfa & Hb).
  destruct (parseBareword_formatArg tbl a pre rest sc Ha He Hc) as (sc' & Hpb & Hc').
  pose proof (cursor_remaining _ _ _ Hc) as Hr.
  pose proof (cursor_remaining _ _ _ Hc') as Hr'.
  rewrite Hfa in Hc, Hr. cbn [app] in Hc. cbn [app length] in Hr.
  pose proof (cursor_peek _ _ _ _ Hc) as Hp.
  destruct fuel as [|fuel]; [lia|].
  exists sc', fuel. split; [exact Hc'|].
  split; [rewrite length_app in Hr; lia|].
  cbn [Next_loop]. rewrite Hp. unfold Next_body.
  unfold starts_argument in Hb. apply andb_true_iff in Hb.
  destruct Hb as [Hb1 Hb2]. apply negb_true_iff in Hb1.
  rewrite Hb1, Hb2, Hpb. reflexivity.
Qed.

(** The loop of [Next] over the written arguments and what follows them. *)
Lemma Next_loop_arguments (B : gostring) (A : list gostring) :
  forall (pre : gostring) (sc : Scanner) (fuel : nat) (acc : list gostring),
    A <> [] ->
    forallb (arg_round_trips tbl) A = true ->
    body_closes 0 B = true ->
    (Z.of_nat (length B) < 2 ^ 63 - 1)%Z ->
    cursor pre (Join (map (formatArg tbl) A) [ch_space] ++ tail_of B) sc ->
    remaining sc <= fuel ->
    results (Next_loop fuel sc acc) = Some (acc ++ A, body_of B, None).
Proof.
  induction A as [|a A IH]; intros pre sc fuel acc Hne HA Hb Hbound Hc Hf;
    [congruence|].
  cbn [forallb] in HA. apply andb_true_iff in HA. destruct HA as [Ha HA].
  destruct A as [|a2 A].
  - cbn [map Join] in Hc.
    destruct (Next_loop_argument a pre (tail_of B) sc fuel acc Ha
                (arg_end_tail_of B) Hc Hf)
      as (sc' & fuel' & Hc' & Hf' & Heq).
    rewrite Heq.
    apply (Next_loop_tail B (pre ++ formatArg tbl a) sc' fuel' (acc ++ [a]));
      try assumption.
    left. destruct acc; discriminate.
  - change (Join (map (formatArg tbl) (a :: a2 :: A)) [ch_space])
      with (formatArg tbl a ++ [ch_space]
            ++ Join (map (formatArg tbl) (a2 :: A)) [ch_space]) in Hc.
    rewrite <- !app_assoc in Hc. cbn [app] in Hc.
    destruct (Next_loop_argument a pre _ sc fuel acc Ha
                (or_intror (ex_intro _ _ eq_refl)) Hc Hf)
      as (sc' & fuel' & Hc' & Hf' & Heq).
    rewrite Heq.
    pose proof (cursor_peek _ _ _ _ Hc') as Hp.
    pose proof (cursor_remaining _ _ _ Hc') as Hr. cbn [length] in Hr.
    destruct fuel' as [|fuel']; [lia|].
    cbn [Next_loop]. rewrite Hp.
    change (Next_body sc' ch_space (acc ++ [a]))
      with (Some (Continue (advance sc') (acc ++ [a]))).
    cbv beta iota.
    apply cursor_advance in Hc'.
    rewrite (IH ((pre ++ formatArg tbl a) ++ [ch_space]) (advance sc') fuel'
               (acc ++ [a])); try assumption.
    + rewrite <- app_assoc. reflexivity.
    + discriminate.
    + rewrite (cursor_remaining _ _ _ Hc'). lia.
Qed.

Lemma Format_text (A : list gostring) (B : gostring) :
  Format tbl A B = Join (map (formatArg tbl) A) [ch_space] ++ tail_of B.
Proof.
  unfold Format, FormatIndent, tail_of, block.
  destruct B as [|b B]; cbn [is_empty negb].
  - rewrite app_nil_r. reflexivity.
  - rewrite <- !app_assoc. reflexivity.
Qed.

End RoundTrip.

(** Against C1 as stated: the body "  x" comes back as "\nx\n", the two
    leading spaces taken by [dedent], and not as "\n  x\n". *)
Lemma round_trip_loses_indentation :
  parse (Format noTable [bytes "cmd"] (bytes "  x"))
    = Some ([bytes "cmd"], ch_nl :: bytes "x" ++ [ch_nl], None)
  /\ parse (Format noTable [bytes "cmd"] (bytes "  x"))
     <> Some ([bytes "cmd"], ch_nl :: bytes "  x" ++ [ch_nl], None).
Proof. split; [vm_compute; reflexivity|vm_compute; discriminate]. Qed.

(** Other inputs on which the round trip of C1 fails: a closing brace in
    the body that closes no brace of the body ends the block early; a
    control byte in an argument with a brace is written as a hexadecimal
    escape, which the scanner does not decode; with no argument and no body
    the output is empty and [Next] signals the end of input. *)
Lemma round_trip_other_failures :
  parse (Format noTable [bytes "cmd"] (bytes "}"))
    = Some ([bytes "cmd"], [ch_nl], None)
  /\ parse (Format noTable [[ch_lbrace; "001"%char]] [])
    = Some ([bytes "{x01"], [], None)
  /\ parse (Format noTable [] []) = Some ([], [], Some io_EOF).
Proof. repeat split; vm_compute; reflexivity. Qed.

(** In the body, a backslash before a brace is taken by the minimal decoder,
    and a backslash before a byte from 128 on is followed by the two bytes
    of [string(b)], here C3 83 for the byte C3. *)
Lemma round_trip_body_escapes :
  parse (Format noTable [bytes "cmd"]
                [ch_backslash; ch_lbrace; "x"%char; ch_backslash; ch_rbrace])
    = Some ([bytes "cmd"], ch_nl :: bytes "{x}" ++ [ch_nl], None)
  /\ parse (Format noTable [bytes "cmd"]
                   [ch_backslash; "195"%char; "169"%char])
     = Some ([bytes "cmd"],
             [ch_nl; ch_backslash; "195"%char; "131"%char; "169"%char; ch_nl],
             None).
Proof. split; vm_compute; reflexivity. Qed.

(** In an argument that is no bareword and has no brace, [strconv.Quote]
    writes an escape that the full decoder does not know for a control byte
    (here the bell, 7), for a byte that is not part of a valid encoding
    (here FF, before a space) and for a rune that is not printable (here the
    soft hyphen U+00AD, C2 AD, before a space): the argument comes back with
    the letters of the escape. *)
Lemma round_trip_unknown_escapes :
  parse (Format noTable [["007"%char]] []) = Some ([bytes "a"], [], None)
  /\ parse (Format noTable [["255"%char; ch_space]] [])
     = Some ([bytes "xff "], [], None)
  /\ parse (Format noTable [["194"%char; "173"%char; ch_space]] [])
     = Some ([bytes "u00ad "], [], None).
Proof. repeat split; vm_compute; reflexivity. Qed.

(** C1, amended: for every table of printable runes, every argument list [A]
    whose arguments read back ([arg_round_trips]: barewords; with a brace, no
    control byte but newline, carriage return and tab; without a brace, valid
    UTF-8 text whose runes are printable or a double quote, a backslash, a
    newline, a carriage return or a tab) and every body [B] that closes
    ([body_closes]: balanced braces, no backslash before a brace, a
    backslash or a byte from 128 on) and is shorter than Go's
    largest int, one of [A] and [B] not being empty: parsing [Format A B]
    with a fresh scanner succeeds with the arguments [A]; if [B] is empty the
    parsed body is the empty string; if not, it is
    [dedent ("\n" + B + "\n")], which is ["\n" + B + "\n"] whenever [dedent]
    leaves that string as it is. *)
Theorem Format_round_trip (tbl : Z -> bool) (A : list gostring) (B : gostring) :
  A <> [] \/ B <> [] ->
  forallb (arg_round_trips tbl) A = true ->
  body_closes 0 B = true ->
  (Z.of_nat (length B) < 2 ^ 63 - 1)%Z ->
  parse (Format tbl A B)
    = Some (A, if is_empty B then [] else dedent (ch_nl :: B ++ [ch_nl]), None)
  /\ (dedent (ch_nl :: B ++ [ch_nl]) = ch_nl :: B ++ [ch_nl] ->
      parse (Format tbl A B)
        = Some (A, if is_empty B then [] else ch_nl :: B ++ [ch_nl], None)).
Proof.
  intros Hne HA HB Hbound.
  assert (H : parse (Format tbl A B) = Some (A, body_of B, None)).
  { unfold parse, Next. rewrite Format_text.
    set (input := Join (map (formatArg tbl) A) [ch_space] ++ tail_of B).
    pose proof (cursor_NewScanner input) as Hc.
    assert (Hf : remaining (NewScanner input) <= length input)
      by (rewrite (cursor_remaining _ _ _ Hc); apply le_n).
    destruct A as [|a A].
    - cbn [map Join app] in input.
      apply (Next_loop_tail B [] (NewScanner input) (length input) []);
        assumption.
    - apply (Next_loop_arguments tbl B (a :: A) [] (NewScanner input)
               (length input) []); try assumption.
      discriminate. }
  split; [exact H|].
  intros Hd. rewrite H. unfold body_of. rewrite Hd. reflexivity.
Qed.

Lemma Format_round_trip_witness :
  let A := [bytes "complex"; bytes "arg" ++ [ch_dquote] ++ bytes "with'quotes";
            ["195"%char; "169"%char; ch_space; "195"%char; "169"%char]] in
  let B := bytes "content with \backslashes\ and {braces}" in
  (A <> [] \/ B <> [])
  /\ forallb (arg_round_trips noTable) A = true
  /\ body_closes 0 B = true
  /\ (Z.of_nat (length B) < 2 ^ 63 - 1)%Z
  /\ dedent (ch_nl :: B ++ [ch_nl]) = ch_nl :: B ++ [ch_nl]
  /\ parse (Format noTable A B) = Some (A, ch_nl :: B ++ [ch_nl], None).
Proof.
  intros A B.
  split; [left; discriminate|].
  split; [vm_compute; reflexivity|].
  split; [vm_compute; reflexivity|].
  split; [vm_compute; reflexivity|].
  split; [vm_compute; reflexivity|].
  apply (Format_round_trip noTable A B).
  - left; discriminate.
  - vm_compute; reflexivity.
  - vm_compute; reflexivity.
  - vm_compute; reflexivity.
  - vm_compute; reflexivity.
Defined.

(** ** Termination

    The loops of the sub-parsers consume a byte in every iteration: the
    fuel they get, the number of bytes left, never runs out.  The loop of
    [Next] does the same as long as the byte under the cursor is of one of
    its classes. *)

Lemma remaining_advance (sc : Scanner) (b : byte) :
  peek sc = Some b -> S (remaining (advance sc)) = remaining sc.
Proof.
  intros H. apply peek_Some_lt in H. unfold remaining.
  rewrite advance_s, advance_pos. lia.
Qed.

Lemma moved_refl (sc : Scanner) : moved sc sc.
Proof. split; [reflexivity|apply le_n]. Qed.

Lemma moved_advance (sc sc' : Scanner) : moved (advance sc) sc' -> moved sc sc'.
Proof.
  unfold moved. rewrite advance_s, advance_pos. intros [H1 H2]. split; [exact H1|lia].
Qed.

Lemma moved_remaining (sc sc' : Scanner) (fuel : nat) :
  moved sc sc' -> pos sc < pos sc' -> remaining sc <= S fuel ->
  remaining sc' <= fuel.
Proof. unfold moved, remaining. intros [-> H] Hlt Hf. lia. Qed.

Ltac loop_start fuel IH sc Hf b Hp :=
  induction fuel as [|fuel IH]; intros sc; intros;
  match goal with
  | H : remaining sc <= _ |- _ => rename H into Hf
  end;
  destruct (peek sc) as [b|] eqn:Hp;
  cbn [parseBackQuote_loop parseQuote1_loop parseQuote2_loop
       parseBareword_loop parseBrace_loop];
  rewrite Hp;
  [ pose proof (peek_Some_lt _ _ Hp); unfold remaining in Hf; lia
  | eexists _, _; split; [reflexivity|apply moved_refl]
  | pose proof (remaining_advance _ _ Hp)
  | eexists _, _; split; [reflexivity|apply moved_refl] ].

Ltac loop_returns :=
  eexists _, _; split; [reflexivity|].

Lemma parseBackQuote_loop_total (fuel : nat) :
  forall (sc : Scanner) (i : nat),
    remaining sc <= fuel ->
    exists sc' r, parseBackQuote_loop fuel sc i = Some (sc', r) /\ moved sc sc'.
Proof.
  loop_start fuel IH sc Hf b Hp.
  destruct (byte_eqb b ch_backquote).
  - loop_returns. apply moved_advance, moved_refl.
  - destruct (IH (advance sc) i) as (sc' & r & H1 & Hm); [lia|].
    exists sc', r. split; [exact H1|apply moved_advance; exact Hm].
Qed.

Lemma parseQuote1_loop_total (fuel : nat) :
  forall (sc : Scanner) (i : nat),
    remaining sc <= fuel ->
    exists sc' r, parseQuote1_loop fuel sc i = Some (sc', r) /\ moved sc sc'.
Proof.
  loop_start fuel IH sc Hf b Hp.
  destruct (byte_eqb b ch_squote).
  - loop_returns. apply moved_advance, moved_refl.
  - destruct (IH (advance sc) i) as (sc' & r & H1 & Hm); [lia|].
    exists sc', r. split; [exact H1|apply moved_advance; exact Hm].
Qed.

(** Both escape decoders step over the backslash at least. *)
Lemma parseBackslashEscape_moved (sc : Scanner) (b : byte) :
  peek sc = Some b ->
  moved sc (fst (parseBackslashEscape sc))
  /\ pos sc < pos (fst (parseBackslashEscape sc)).
Proof.
  intros Hp. unfold parseBackslashEscape. rewrite Hp.
  destruct (peek (advance sc)) as [c|].
  - repeat match goal with
           | |- context [if ?c then _ else _] => destruct c
           end;
      cbn [fst]; unfold moved; rewrite !advance_s, !advance_pos;
      (split; [split; [reflexivity|]|]); lia.
  - cbn [fst]. unfold moved. rewrite advance_s, advance_pos.
    split; [split; [reflexivity|]|]; lia.
Qed.

Lemma parseBraceEscape_moved (sc : Scanner) (b : byte) :
  peek sc = Some b ->
  moved sc (fst (parseBraceEscape sc))
  /\ pos sc < pos (fst (parseBraceEscape sc)).
Proof.
  intros Hp. unfold parseBraceEscape. rewrite Hp.
  destruct (peek (advance sc)) as [c|].
  - repeat match goal with
           | |- context [if ?c then _ else _] => destruct c
           end;
      cbn [fst]; unfold moved; rewrite !advance_s, !advance_pos;
      (split; [split; [reflexivity|]|]); lia.
  - cbn [fst]. unfold moved. rewrite advance_s, advance_pos.
    split; [split; [reflexivity|]|]; lia.
Qed.

Lemma moved_trans (a b c : Scanner) : moved a b -> moved b c -> moved a c.
Proof. unfold moved. intros [H1 H2] [H3 H4]. split; [congruence|lia]. Qed.

Lemma parseQuote2_loop_total (fuel : nat) :
  forall (sc : Scanner) (i : nat) (out : gostring),
    remaining sc <= fuel ->
    exists sc' r, parseQuote2_loop fuel sc i out = Some (sc', r) /\ moved sc sc'.
Proof.
  loop_start fuel IH sc Hf b Hp.
  destruct (byte_eqb b ch_dquote).
  - loop_returns. apply moved_advance, moved_refl.
  - destruct (byte_eqb b ch_backslash).
    + destruct (parseBackslashEscape_moved sc b Hp) as [Hm Hlt].
      destruct (parseBackslashEscape sc) as [sc1 [esc [err|]]]; cbn [fst] in *.
      * loop_returns. exact Hm.
      * destruct (IH sc1 (pos sc1) ((out ++ slice (s sc) i (pos sc)) ++ esc))
          as (sc' & r & H1 & Hm').
        { apply (moved_remaining sc); assumption. }
        exists sc', r. split; [exact H1|eapply moved_trans; eassumption].
    + destruct (IH (advance sc) i out) as (sc' & r & H1 & Hm); [lia|].
      exists sc', r. split; [exact H1|apply moved_advance; exact Hm].
Qed.

Lemma parseBrace_loop_total (fuel : nat) :
  forall (sc : Scanner) (i : nat) (out : gostring) (stack : Z),
    remaining sc <= fuel ->
    exists sc' r, parseBrace_loop fuel sc i out stack = Some (sc', r)
                  /\ moved sc sc'.
Proof.
  loop_start fuel IH sc Hf b Hp.
  destruct (byte_eqb b ch_backslash).
  - destruct (parseBraceEscape_moved sc b Hp) as [Hm Hlt].
    destruct (parseBraceEscape sc) as [sc1 [esc [err|]]]; cbn [fst] in *.
    + loop_returns. exact Hm.
    + destruct (IH sc1 (pos sc1) ((out ++ slice (s sc) i (pos sc)) ++ esc) stack)
        as (sc' & r & H1 & Hm').
      { apply (moved_remaining sc); assumption. }
      exists sc', r. split; [exact H1|eapply moved_trans; eassumption].
  - destruct (byte_eqb b ch_lbrace).
    + destruct (IH (advance sc) i out (int_add stack 1)) as (sc' & r & H1 & Hm); [lia|].
      exists sc', r. split; [exact H1|apply moved_advance; exact Hm].
    + destruct (byte_eqb b ch_rbrace).
      * destruct (int_sub stack 1 =? 0)%Z.
        -- loop_returns. apply moved_advance, moved_refl.
        -- destruct (IH (advance sc) i out (int_sub stack 1))
             as (sc' & r & H1 & Hm); [lia|].
           exists sc', r. split; [exact H1|apply moved_advance; exact Hm].
      * destruct (IH (advance sc) i out stack) as (sc' & r & H1 & Hm); [lia|].
        exists sc', r. split; [exact H1|apply moved_advance; exact Hm].
Qed.

(** The three sub-parsers that start by stepping over their opening byte
    return, with the cursor further on. *)
Lemma parseBackQuote_total (sc : Scanner) :
  exists sc' r, parseBackQuote sc = Some (sc', r)
                /\ moved sc sc' /\ pos sc < pos sc'.
Proof.
  unfold parseBackQuote.
  destruct (parseBackQuote_loop_total (remaining (advance sc)) (advance sc)
              (pos (advance sc)) (le_n _)) as (sc' & r & H & Hm).
  exists sc', r. split; [exact H|]. split; [apply moved_advance; exact Hm|].
  destruct Hm as [_ Hm]. rewrite advance_pos in Hm. lia.
Qed.

Lemma parseQuote1_total (sc : Scanner) :
  exists sc' r, parseQuote1 sc = Some (sc', r)
                /\ moved sc sc' /\ pos sc < pos sc'.
Proof.
  unfold parseQuote1.
  destruct (parseQuote1_loop_total (remaining (advance sc)) (advance sc)
              (pos (advance sc)) (le_n _)) as (sc' & r & H & Hm).
  exists sc', r. split; [exact H|]. split; [apply moved_advance; exact Hm|].
  destruct Hm as [_ Hm]. rewrite advance_pos in Hm. lia.
Qed.

Lemma parseQuote2_total (sc : Scanner) :
  exists sc' r, parseQuote2 sc = Some (sc', r)
                /\ moved sc sc' /\ pos sc < pos sc'.
Proof.
  unfold parseQuote2.
  destruct (parseQuote2_loop_total (remaining (advance sc)) (advance sc)
              (pos (advance sc)) [] (le_n _)) as (sc' & r & H & Hm).
  exists sc', r. split; [exact H|]. split; [apply moved_advance; exact Hm|].
  destruct Hm as [_ Hm]. rewrite advance_pos in Hm. lia.
Qed.

Lemma parseBrace_total (sc : Scanner) :
  exists sc' r, parseBrace sc = Some (sc', r)
                /\ moved sc sc' /\ pos sc < pos sc'.
Proof.
  unfold parseBrace.
  destruct (parseBrace_loop_total (remaining (advance sc)) (advance sc)
              (pos (advance sc)) [] 1 (le_n _)) as (sc' & r & H & Hm).
  exists sc', r. split; [exact H|]. split; [apply moved_advance; exact Hm|].
  destruct Hm as [_ Hm]. rewrite advance_pos in Hm. lia.
Qed.

Lemma parseBareword_loop_total (fuel : nat) :
  forall (sc : Scanner) (i : nat) (out : gostring),
    remaining sc <= fuel ->
    exists sc' r, parseBareword_loop fuel sc i out = Some (sc', r) /\ moved sc sc'.
Proof.
  induction fuel as [|fuel IH]; intros sc i out Hf;
    destruct (peek sc) as [b|] eqn:Hp; cbn [parseBareword_loop]; rewrite Hp.
  - pose proof (peek_Some_lt _ _ Hp). unfold remaining in Hf. lia.
  - destruct (is_empty out); loop_returns; apply moved_refl.
  - pose proof (remaining_advance _ _ Hp).
    destruct (isSpace b); [loop_returns; apply moved_refl|].
    destruct (isQuote1 b).
    { destruct (parseQuote1_total sc) as (sc1 & [inner [err|]] & -> & Hm & Hlt).
      - loop_returns. exact Hm.
      - destruct (IH sc1 (pos sc1) ((out ++ slice (s sc) i (pos sc)) ++ inner))
          as (sc' & r & H1 & Hm').
        { apply (moved_remaining sc); assumption. }
        exists sc', r. split; [exact H1|eapply moved_trans; eassumption]. }
    destruct (isQuote2 b).
    { destruct (parseQuote2_total sc) as (sc1 & [inner [err|]] & -> & Hm & Hlt).
      - loop_returns. exact Hm.
      - destruct (IH sc1 (pos sc1) ((out ++ slice (s sc) i (pos sc)) ++ inner))
          as (sc' & r & H1 & Hm').
        { apply (moved_remaining sc); assumption. }
        exists sc', r. split; [exact H1|eapply moved_trans; eassumption]. }
    destruct (byte_eqb b ch_nl); [loop_returns; apply moved_refl|].
    destruct (byte_eqb b ch_backslash).
    { destruct (parseBackslashEscape_moved sc b Hp) as [Hm Hlt].
      destruct (parseBackslashEscape sc) as [sc1 [esc [err|]]]; cbn [fst] in *.
      - loop_returns. exact Hm.
      - destruct (IH sc1 (pos sc1) ((out ++ slice (s sc) i (pos sc)) ++ esc))
          as (sc' & r & H1 & Hm').
        { apply (moved_remaining sc); assumption. }
        exists sc', r. split; [exact H1|eapply moved_trans; eassumption]. }
    destruct (IH (advance sc) i out) as (sc' & r & H1 & Hm); [lia|].
    exists sc', r. split; [exact H1|apply moved_advance; exact Hm].
  - destruct (is_empty out); loop_returns; apply moved_refl.
Qed.

(** [parseBareword] returns; called on a byte that starts an argument, it
    leaves the cursor further on. *)
Lemma parseBareword_total (sc : Scanner) (b : byte) :
  peek sc = Some b -> starts_argument b = true ->
  exists sc' r, parseBareword sc = Some (sc', r)
                /\ moved sc sc' /\ pos sc < pos sc'.
Proof.
  intros Hp Hb. unfold parseBareword.
  pose proof (peek_Some_lt _ _ Hp) as Hlt.
  pose proof (remaining_advance _ _ Hp) as Hr.
  destruct (remaining sc) as [|fuel] eqn:E; [discriminate|].
  injection Hr as Hr.
  cbn [parseBareword_loop]. rewrite Hp.
  unfold starts_argument in Hb. apply andb_true_iff in Hb.
  destruct Hb as [Hs Hb]. apply negb_true_iff in Hs. rewrite Hs.
  destruct (isQuote1 b) eqn:Eq1.
  { destruct (parseQuote1_total sc) as (sc1 & [inner [err|]] & -> & Hm & Hlt1).
    - eexists _, _. split; [reflexivity|]. split; assumption.
    - destruct (parseBareword_loop_total fuel sc1 (pos sc1)
                  (([] ++ slice (s sc) (pos sc) (pos sc)) ++ inner))
        as (sc' & r & H1 & Hm').
      { apply (moved_remaining sc); [assumption|assumption|lia]. }
      exists sc', r. split; [exact H1|].
      split; [eapply moved_trans; eassumption|]. destruct Hm'. lia. }
  destruct (isQuote2 b) eqn:Eq2.
  { destruct (parseQuote2_total sc) as (sc1 & [inner [err|]] & -> & Hm & Hlt1).
    - eexists _, _. split; [reflexivity|]. split; assumption.
    - destruct (parseBareword_loop_total fuel sc1 (pos sc1)
                  (([] ++ slice (s sc) (pos sc) (pos sc)) ++ inner))
        as (sc' & r & H1 & Hm').
      { apply (moved_remaining sc); [assumption|assumption|lia]. }
      exists sc', r. split; [exact H1|].
      split; [eapply moved_trans; eassumption|]. destruct Hm'. lia. }
  assert (Hnl : byte_eqb b ch_nl = false).
  { destruct (byte_eqb b ch_nl) eqn:En; [|reflexivity].
    apply byte_eqb_eq in En. subst b. discriminate. }
  rewrite Hnl.
  destruct (byte_eqb b ch_backslash).
  { destruct (parseBackslashEscape_moved sc b Hp) as [Hm Hlt1].
    destruct (parseBackslashEscape sc) as [sc1 [esc [err|]]]; cbn [fst] in *.
    - eexists _, _. split; [reflexivity|]. split; assumption.
    - destruct (parseBareword_loop_total fuel sc1 (pos sc1)
                  (([] ++ slice (s sc) (pos sc) (pos sc)) ++ esc))
        as (sc' & r & H1 & Hm').
      { apply (moved_remaining sc); [assumption|assumption|lia]. }
      exists sc', r. split; [exact H1|].
      split; [eapply moved_trans; eassumption|]. destruct Hm'. lia. }
  destruct (parseBareword_loop_total fuel (advance sc) (pos sc) [])
    as (sc' & r & H1 & Hm); [lia|].
  exists sc', r. split; [exact H1|].
  split; [apply moved_advance; exact Hm|].
  destruct Hm as [_ Hm]. rewrite advance_pos in Hm. lia.
Qed.

(** The bytes that are in a class: tab, newline and the bytes from 32 on. *)
Lemma classified_spec (b : byte) :
  classified b = ((32 <=? byte_val b) || (byte_val b =? 9) || (byte_val b =? 10))%N.
Proof. each_byte b; reflexivity. Qed.

(** On a byte of a class an iteration of the loop of [Next] returns or
    moves the cursor on. *)
Lemma Next_body_classified (sc : Scanner) (b : byte) (args : list gostring) :
  peek sc = Some b -> classified b = true ->
  exists st, Next_body sc b args = Some st
             /\ match st with
                | Return _ _ => True
                | Continue sc' _ => moved sc sc' /\ pos sc < pos sc'
                end.
Proof.
  intros Hp Hb. unfold Next_body.
  assert (Hadv : moved sc (advance sc) /\ pos sc < pos (advance sc)).
  { split; [apply moved_advance, moved_refl|rewrite advance_pos; lia]. }
  destruct (isSpace b) eqn:E1; [eexists; split; [reflexivity|exact Hadv]|].
  destruct (isBareword b || isQuote1 b || isQuote2 b || byte_eqb b ch_backslash)
    eqn:E2.
  { destruct (parseBareword_total sc b Hp) as (sc' & [arg [err|]] & -> & Hm).
    - unfold starts_argument. rewrite E1, E2. reflexivity.
    - eexists; split; [reflexivity|exact I].
    - eexists; split; [reflexivity|exact Hm]. }
  destruct (isBackQuote b) eqn:E3.
  { destruct (parseBackQuote_total sc) as (sc' & [arg [err|]] & -> & Hm).
    - eexists; split; [reflexivity|exact I].
    - eexists; split; [reflexivity|exact Hm]. }
  destruct (isLeftBrace b) eqn:E4.
  { destruct (parseBrace_total sc) as (sc' & [body err] & -> & Hm).
    eexists; split; [reflexivity|exact I]. }
  destruct (isNewLine b) eqn:E5.
  { destruct (0 <? length args).
    - eexists; split; [reflexivity|exact I].
    - eexists; split; [reflexivity|exact Hadv]. }
  unfold classified in Hb. rewrite E1, E3, E4, E5 in Hb.
  apply orb_false_iff in E2. destruct E2 as [E2 _].
  apply orb_false_iff in E2. destruct E2 as [E2 E7].
  apply orb_false_iff in E2. destruct E2 as [E2 E6].
  rewrite E2, E6, E7 in Hb. discriminate.
Qed.

Lemma nth_error_skipn_In {A : Type} (l : list A) (n : nat) (x : A) :
  nth_error l n = Some x -> In x (skipn n l).
Proof.
  revert l. induction n as [|n IH]; intros [|y l]; cbn; try discriminate.
  - intros [= ->]. left. reflexivity.
  - apply IH.
Qed.

Lemma skipn_incl_le {A : Type} (l : list A) (n m : nat) (x : A) :
  n <= m -> In x (skipn m l) -> In x (skipn n l).
Proof.
  intros Hle. replace m with ((m - n) + n) by lia.
  rewrite <- skipn_skipn. intros H.
  rewrite <- (firstn_skipn (m - n) (skipn n l)).
  apply in_or_app. right. exact H.
Qed.

(** When every byte from the cursor on is of a class, [Next] returns, within
    as many iterations as bytes are left. *)
Lemma Next_loop_total (fuel : nat) :
  forall (sc : Scanner) (args : list gostring),
    forallb classified (slice_from (s sc) (pos sc)) = true ->
    remaining sc <= fuel ->
    exists r, Next_loop fuel sc args = Some r.
Proof.
  induction fuel as [|fuel IH]; intros sc args Hall Hf;
    destruct (peek sc) as [b|] eqn:Hp; cbn [Next_loop]; rewrite Hp.
  - pose proof (peek_Some_lt _ _ Hp). unfold remaining in Hf. lia.
  - destruct (length args =? 0); eexists; reflexivity.
  - assert (Hb : classified b = true).
    { rewrite forallb_forall in Hall. apply Hall.
      apply nth_error_skipn_In. exact Hp. }
    destruct (Next_body_classified sc b args Hp Hb) as ([sc' args'|sc' r] & -> & Hst).
    + destruct Hst as [Hm Hlt].
      apply IH.
      * rewrite forallb_forall in *. intros x Hx. apply Hall.
        destruct Hm as [Hs Hle]. rewrite Hs in Hx. unfold slice_from in *.
        apply (skipn_incl_le _ (pos sc) (pos sc')); [lia|exact Hx].
      * apply (moved_remaining sc); assumption.
    + eexists; reflexivity.
  - destruct (length args =? 0); eexists; reflexivity.
Qed.


(** No byte is in two classes. *)
Lemma classes_exclusive (b : byte) :
  length (filter (fun class => class b)
            [isSpace; isQuote1; isQuote2; isBackQuote; isLeftBrace; isNewLine;
             isBareword]) <= 1.
Proof. each_byte b; vm_compute; lia. Qed.

(** On a byte of no class the loop of [Next] goes round for ever: the
    iteration changes nothing, and no fuel makes the call return. *)
Lemma Next_loop_unclassified (fuel : nat) (sc : Scanner) (b : byte)
      (args : list gostring) :
  peek sc = Some b -> classified b = false -> Next_loop fuel sc args = None.
Proof.
  intros Hp Hb. unfold classified in Hb.
  apply orb_false_iff in Hb. destruct Hb as [Hb H7].
  apply orb_false_iff in Hb. destruct Hb as [Hb H6].
  apply orb_false_iff in Hb. destruct Hb as [Hb H5].
  apply orb_false_iff in Hb. destruct Hb as [Hb H4].
  apply orb_false_iff in Hb. destruct Hb as [Hb H3].
  apply orb_false_iff in Hb. destruct Hb as [H1 H2].
  assert (Hstep : Next_body sc b args = Some (Continue sc args)).
  { unfold Next_body. rewrite H1, H2, H3, H4, H5, H6, H7. cbn [orb].
    destruct (byte_eqb b ch_backslash) eqn:E; [|reflexivity].
    apply byte_eqb_eq in E. subst b. discriminate. }
  induction fuel as [|fuel IH]; cbn [Next_loop]; rewrite Hp; [reflexivity|].
  rewrite Hstep. exact IH.
Qed.

(** More fuel does not change what [Next] returns. *)
Lemma Next_loop_more_fuel (fuel : nat) :
  forall (fuel' : nat) (sc : Scanner) (args : list gostring)
         (r : Scanner * command),
    Next_loop fuel sc args = Some r -> fuel <= fuel' ->
    Next_loop fuel' sc args = Some r.
Proof.
  induction fuel as [|fuel IH]; intros fuel' sc args r H Hle.
  - destruct fuel'; cbn [Next_loop] in *;
      destruct (peek sc); congruence.
  - destruct fuel' as [|fuel']; [lia|].
    cbn [Next_loop] in *. destruct (peek sc) as [b|]; [|exact H].
    destruct (Next_body sc b args) as [[sc' args'|sc' r']|];
      [|exact H|exact H].
    apply IH; [exact H|lia].
Qed.


(** ** How the scanner moves

    The only change that the sub-parsers and [Next] make to a scanner is to
    [advance] it over a byte of its buffer. *)

Lemma advances_trans (a b c : Scanner) :
  advances a b -> advances b c -> advances a c.
Proof.
  induction 1 as [sc|sc x sc' Hp H IH]; intros Hc; [exact Hc|].
  apply (adv_step sc x _ Hp). apply IH. exact Hc.
Qed.

Lemma advances_one (sc : Scanner) (b : byte) :
  peek sc = Some b -> advances sc (advance sc).
Proof. intros Hp. apply (adv_step sc b _ Hp). apply adv_refl. Qed.

Lemma advances_moved (sc sc' : Scanner) :
  advances sc sc' ->
  s sc' = s sc /\ pos sc <= pos sc'
  /\ (pos sc <= length (s sc) -> pos sc' <= length (s sc')).
Proof.
  induction 1 as [sc|sc x sc' Hp H (IH1 & IH2 & IH3)].
  - auto.
  - rewrite advance_s in IH1. rewrite advance_pos in IH2.
    rewrite advance_s, advance_pos in IH3.
    apply peek_Some_lt in Hp.
    split; [exact IH1|]. split; [lia|]. intros _. apply IH3. lia.
Qed.

(** The error of a sub-parser, when there is one, is raised with the cursor
    at the end of the buffer and stamped with the position of the scanner
    that is returned. *)
Lemma parseBackslashEscape_sound (sc : Scanner) (b : byte) :
  peek sc = Some b ->
  advances sc (fst (parseBackslashEscape sc))
  /\ error_at_end (fst (parseBackslashEscape sc))
                  (snd (snd (parseBackslashEscape sc))).
Proof.
  intros Hp. unfold parseBackslashEscape. rewrite Hp.
  pose proof (advances_one sc b Hp) as H1.
  destruct (peek (advance sc)) as [c|] eqn:Hp1.
  - pose proof (advances_one _ c Hp1) as H2.
    pose proof (advances_trans _ _ _ H1 H2) as H12.
    repeat match goal with
           | |- context [if ?c then _ else _] => destruct c
           end; cbn [fst snd error_at_end]; split; auto.
  - cbn [fst snd error_at_end]. split; [exact H1|].
    split; [exact Hp1|]. eexists. split; [|reflexivity]. cbn. tauto.
Qed.

Lemma parseBraceEscape_sound (sc : Scanner) (b : byte) :
  peek sc = Some b ->
  advances sc (fst (parseBraceEscape sc))
  /\ error_at_end (fst (parseBraceEscape sc))
                  (snd (snd (parseBraceEscape sc))).
Proof.
  intros Hp. unfold parseBraceEscape. rewrite Hp.
  pose proof (advances_one sc b Hp) as H1.
  destruct (peek (advance sc)) as [c|] eqn:Hp1.
  - pose proof (advances_one _ c Hp1) as H2.
    pose proof (advances_trans _ _ _ H1 H2) as H12.
    repeat match goal with
           | |- context [if ?c then _ else _] => destruct c
           end; cbn [fst snd error_at_end]; split; auto.
  - cbn [fst snd error_at_end]. split; [exact H1|].
    split; [exact Hp1|]. eexists. split; [|reflexivity]. cbn. tauto.
Qed.

Ltac sound_start fuel IH sc H b Hp :=
  induction fuel as [|fuel IH]; intros sc; intros;
  match goal with
  | Hr : _ = Some _ |- _ => rename Hr into H
  end;
  cbn [parseBackQuote_loop parseQuote1_loop parseQuote2_loop
       parseBareword_loop parseBrace_loop] in H;
  destruct (peek sc) as [b|] eqn:Hp; try discriminate H.

Ltac sound_eof H Hp :=
  injection H as <- <- <-; split; [apply adv_refl|];
  split; [exact Hp|]; eexists; split; [|reflexivity]; cbn; tauto.

Ltac sound_return H b Hp :=
  injection H as <- <- <-; split; [apply (advances_one _ b Hp)|exact I].

Ltac sound_again IH H b Hp :=
  apply IH in H; destruct H as [H1 H2];
  split; [exact (advances_trans _ _ _ (advances_one _ b Hp) H1)|exact H2].

Lemma parseBackQuote_loop_sound (fuel : nat) :
  forall (sc : Scanner) (i : nat) (sc' : Scanner) (out : gostring)
         (oerr : option error),
    parseBackQuote_loop fuel sc i = Some (sc', (out, oerr)) ->
    advances sc sc' /\ error_at_end sc' oerr.
Proof.
  sound_start fuel IH sc H b Hp.
  - sound_eof H Hp.
  - destruct (byte_eqb b ch_backquote).
    + sound_return H b Hp.
    + sound_again IH H b Hp.
  - sound_eof H Hp.
Qed.

Lemma parseQuote1_loop_sound (fuel : nat) :
  forall (sc : Scanner) (i : nat) (sc' : Scanner) (out : gostring)
         (oerr : option error),
    parseQuote1_loop fuel sc i = Some (sc', (out, oerr)) ->
    advances sc sc' /\ error_at_end sc' oerr.
Proof.
  sound_start fuel IH sc H b Hp.
  - sound_eof H Hp.
  - destruct (byte_eqb b ch_squote).
    + sound_return H b Hp.
    + sound_again IH H b Hp.
  - sound_eof H Hp.
Qed.

Lemma parseQuote2_loop_sound (fuel : nat) :
  forall (sc : Scanner) (i : nat) (acc : gostring) (sc' : Scanner)
         (out : gostring) (oerr : option error),
    parseQuote2_loop fuel sc i acc = Some (sc', (out, oerr)) ->
    advances sc sc' /\ error_at_end sc' oerr.
Proof.
  sound_start fuel IH sc H b Hp.
  - sound_eof H Hp.
  - destruct (byte_eqb b ch_dquote); [sound_return H b Hp|].
    destruct (byte_eqb b ch_backslash); [|sound_again IH H b Hp].
    destruct (parseBackslashEscape_sound sc b Hp) as [Ha He].
    destruct (parseBackslashEscape sc) as [sc1 [esc [err|]]];
      cbn [fst snd] in Ha, He.
    + injection H as <- <- <-. split; assumption.
    + apply IH in H. destruct H as [H1 H2].
      split; [exact (advances_trans _ _ _ Ha H1)|exact H2].
  - sound_eof H Hp.
Qed.

Lemma parseBrace_loop_sound (fuel : nat) :
  forall (sc : Scanner) (i : nat) (acc : gostring) (stack : Z)
         (sc' : Scanner) (out : gostring) (oerr : option error),
    parseBrace_loop fuel sc i acc stack = Some (sc', (out, oerr)) ->
    advances sc sc' /\ error_at_end sc' oerr.
Proof.
  sound_start fuel IH sc H b Hp.
  - sound_eof H Hp.
  - destruct (byte_eqb b ch_backslash).
    { destruct (parseBraceEscape_sound sc b Hp) as [Ha He].
      destruct (parseBraceEscape sc) as [sc1 [esc [err|]]];
        cbn [fst snd] in Ha, He.
      - injection H as <- <- <-. split; assumption.
      - apply IH in H. destruct H as [H1 H2].
        split; [exact (advances_trans _ _ _ Ha H1)|exact H2]. }
    destruct (byte_eqb b ch_lbrace); [sound_again IH H b Hp|].
    destruct (byte_eqb b ch_rbrace); [|sound_again IH H b Hp].
    destruct (int_sub stack 1 =? 0)%Z; [sound_return H b Hp|].
    sound_again IH H b Hp.
  - sound_eof H Hp.
Qed.

Lemma parseBackQuote_sound (sc sc' : Scanner) (b : byte) (out : gostring)
      (oerr : option error) :
  peek sc = Some b ->
  parseBackQuote sc = Some (sc', (out, oerr)) ->
  advances sc sc' /\ error_at_end sc' oerr.
Proof.
  intros Hp H. apply parseBackQuote_loop_sound in H. destruct H as [H1 H2].
  split; [exact (advances_trans _ _ _ (advances_one _ b Hp) H1)|exact H2].
Qed.

Lemma parseQuote1_sound (sc sc' : Scanner) (b : byte) (out : gostring)
      (oerr : option error) :
  peek sc = Some b ->
  parseQuote1 sc = Some (sc', (out, oerr)) ->
  advances sc sc' /\ error_at_end sc' oerr.
Proof.
  intros Hp H. apply parseQuote1_loop_sound in H. destruct H as [H1 H2].
  split; [exact (advances_trans _ _ _ (advances_one _ b Hp) H1)|exact H2].
Qed.

Lemma parseQuote2_sound (sc sc' : Scanner) (b : byte) (out : gostring)
      (oerr : option error) :
  peek sc = Some b ->
  parseQuote2 sc = Some (sc', (out, oerr)) ->
  advances sc sc' /\ error_at_end sc' oerr.
Proof.
  intros Hp H. apply parseQuote2_loop_sound in H. destruct H as [H1 H2].
  split; [exact (advances_trans _ _ _ (advances_one _ b Hp) H1)|exact H2].
Qed.

Lemma parseBrace_sound (sc sc' : Scanner) (b : byte) (out : gostring)
      (oerr : option error) :
  peek sc = Some b ->
  parseBrace sc = Some (sc', (out, oerr)) ->
  advances sc sc' /\ error_at_end sc' oerr.
Proof.
  intros Hp H. apply parseBrace_loop_sound in H. destruct H as [H1 H2].
  split; [exact (advances_trans _ _ _ (advances_one _ b Hp) H1)|exact H2].
Qed.

Lemma parseBareword_loop_sound (fuel : nat) :
  forall (sc : Scanner) (i : nat) (acc : gostring) (sc' : Scanner)
         (out : gostring) (oerr : option error),
    parseBareword_loop fuel sc i acc = Some (sc', (out, oerr)) ->
    advances sc sc' /\ error_at_end sc' oerr.
Proof.
  induction fuel as [|fuel IH]; intros sc i acc sc' out oerr H;
    cbn [parseBareword_loop] in H;
    destruct (peek sc) as [b|] eqn:Hp; try discriminate H.
  - destruct (is_empty acc); injection H as <- <- <-;
      (split; [apply adv_refl|exact I]).
  - destruct (isSpace b);
      [injection H as <- <- <-; split; [apply adv_refl|exact I]|].
    destruct (isQuote1 b).
    { destruct (parseQuote1 sc) as [[sc1 [inner [err|]]]|] eqn:E;
        try discriminate H.
      - injection H as <- <- <-. apply (parseQuote1_sound _ _ b _ _ Hp E).
      - apply (parseQuote1_sound _ _ b _ _ Hp) in E. destruct E as [Ha _].
        apply IH in H. destruct H as [H1 H2].
        split; [exact (advances_trans _ _ _ Ha H1)|exact H2]. }
    destruct (isQuote2 b).
    { destruct (parseQuote2 sc) as [[sc1 [inner [err|]]]|] eqn:E;
        try discriminate H.
      - injection H as <- <- <-. apply (parseQuote2_sound _ _ b _ _ Hp E).
      - apply (parseQuote2_sound _ _ b _ _ Hp) in E. destruct E as [Ha _].
        apply IH in H. destruct H as [H1 H2].
        split; [exact (advances_trans _ _ _ Ha H1)|exact H2]. }
    destruct (byte_eqb b ch_nl);
      [injection H as <- <- <-; split; [apply adv_refl|exact I]|].
    destruct (byte_eqb b ch_backslash).
    { destruct (parseBackslashEscape_sound sc b Hp) as [Ha He].
      destruct (parseBackslashEscape sc) as [sc1 [esc [err|]]];
        cbn [fst snd] in Ha, He.
      - injection H as <- <- <-. split; assumption.
      - apply IH in H. destruct H as [H1 H2].
        split; [exact (advances_trans _ _ _ Ha H1)|exact H2]. }
    apply IH in H. destruct H as [H1 H2].
    split; [exact (advances_trans _ _ _ (advances_one _ b Hp) H1)|exact H2].
  - destruct (is_empty acc); injection H as <- <- <-;
      (split; [apply adv_refl|exact I]).
Qed.

(** An iteration of the loop of [Next]. *)
Lemma Next_body_sound (sc : Scanner) (b : byte) (args : list gostring)
      (st : step) :
  peek sc = Some b ->
  Next_body sc b args = Some st ->
  match st with
  | Continue sc' _ => advances sc sc'
  | Return sc' (args', _, oerr) =>
      advances sc sc' /\ args' = args /\ error_at_end sc' oerr
  end.
Proof.
  intros Hp H. unfold Next_body in H.
  destruct (isSpace b); [injection H as <-; apply (advances_one _ b Hp)|].
  destruct (isBareword b || isQuote1 b || isQuote2 b || byte_eqb b ch_backslash).
  { destruct (parseBareword sc) as [[sc1 [arg [err|]]]|] eqn:E;
      try discriminate H; injection H as <-;
      apply parseBareword_loop_sound in E; destruct E as [Ha He]; auto. }
  destruct (isBackQuote b).
  { destruct (parseBackQuote sc) as [[sc1 [arg [err|]]]|] eqn:E;
      try discriminate H; injection H as <-;
      apply (parseBackQuote_sound _ _ b _ _ Hp) in E; destruct E as [Ha He];
      auto. }
  destruct (isLeftBrace b).
  { destruct (parseBrace sc) as [[sc1 [body oerr]]|] eqn:E;
      try discriminate H; injection H as <-.
    apply (parseBrace_sound _ _ b _ _ Hp) in E. destruct E as [Ha He]. auto. }
  destruct (isNewLine b).
  { destruct (0 <? length args); injection H as <-.
    - split; [apply (advances_one _ b Hp)|]. split; [reflexivity|exact I].
    - apply (advances_one _ b Hp). }
  injection H as <-. apply adv_refl.
Qed.

(** What a call of [Next] that returns has done. *)
Lemma Next_loop_sound (fuel : nat) :
  forall (sc : Scanner) (args : list gostring) (sc' : Scanner)
         (args' : list gostring) (body : gostring) (oerr : option error),
    Next_loop fuel sc args = Some (sc', (args', body, oerr)) ->
    advances sc sc'
    /\ match oerr with
       | Some io_EOF => args' = [] /\ body = [] /\ peek sc' = None
       | _ => error_at_end sc' oerr
       end.
Proof.
  induction fuel as [|fuel IH]; intros sc args sc' args' body oerr H;
    cbn [Next_loop] in H; destruct (peek sc) as [b|] eqn:Hp;
    try discriminate H.
  - destruct (length args =? 0); injection H as <- <- <- <-;
      (split; [apply adv_refl|]); [auto|exact I].
  - destruct (Next_body sc b args) as [[sc1 args1|sc1 [[a1 b1] o1]]|] eqn:E;
      try discriminate H;
      pose proof (Next_body_sound sc b args _ Hp E) as Hs; cbn in Hs.
    + apply IH in H. destruct H as [H1 H2].
      split; [exact (advances_trans _ _ _ Hs H1)|exact H2].
    + injection H as <- <- <- <-. destruct Hs as (Ha & _ & He).
      split; [exact Ha|].
      destruct o1 as [[|e]|]; [|exact He|exact I].
      destruct He as (_ & msg & _ & Heq). unfold errorAt in Heq.
      discriminate Heq.
  - destruct (length args =? 0); injection H as <- <- <- <-;
      (split; [apply adv_refl|]); [auto|exact I].
Qed.


(** ** Lines and columns *)

Lemma wrap64_add_l (a b : Z) : wrap64 (wrap64 a + b) = wrap64 (a + b).
Proof.
  unfold wrap64. f_equal.
  replace ((a + 2 ^ 63) mod 2 ^ 64 - 2 ^ 63 + b + 2 ^ 63)%Z
    with ((a + 2 ^ 63) mod 2 ^ 64 + b)%Z by lia.
  rewrite Zplus_mod_idemp_l. f_equal. lia.
Qed.

Lemma last_cons_nonempty {A : Type} (x : A) (l : list A) (d : A) :
  l <> [] -> last (x :: l) d = last l d.
Proof. destruct l; [congruence|reflexivity]. Qed.

(** The lines of a text with one more byte. *)
Lemma splitLines_snoc (p : gostring) (b : byte) :
  length (splitLines (p ++ [b]))
  = (if byte_eqb b ch_nl then S (length (splitLines p))
     else length (splitLines p))
  /\ last (splitLines (p ++ [b])) []
     = (if byte_eqb b ch_nl then [] else last (splitLines p) [] ++ [b]).
Proof.
  induction p as [|x p [IHl IHt]].
  - cbn. destruct (byte_eqb b ch_nl); split; reflexivity.
  - cbn [app splitLines].
    pose proof (splitLines_nonempty p) as Hp.
    pose proof (splitLines_nonempty (p ++ [b])) as Hpb.
    destruct (byte_eqb x ch_nl).
    + rewrite !last_cons_nonempty by assumption. cbn [length].
      rewrite IHl, IHt. destruct (byte_eqb b ch_nl); split; reflexivity.
    + destruct (splitLines (p ++ [b])) as [|l ls]; [congruence|].
      destruct (splitLines p) as [|l0 ls0]; [congruence|].
      cbn [length] in *. split; [exact IHl|].
      destruct (byte_eqb b ch_nl).
      * destruct ls as [|l1 ls]; [destruct ls0; discriminate IHl|].
        rewrite last_cons_nonempty in IHt by discriminate.
        rewrite last_cons_nonempty by discriminate. exact IHt.
      * destruct ls as [|l1 ls]; destruct ls0 as [|l2 ls0];
          try discriminate IHl.
        -- cbn in IHt |- *. rewrite IHt. reflexivity.
        -- rewrite last_cons_nonempty in IHt by discriminate.
           rewrite last_cons_nonempty by discriminate.
           rewrite (last_cons_nonempty (x :: l0)) by discriminate.
           rewrite (last_cons_nonempty l0) in IHt by discriminate.
           exact IHt.
Qed.

Lemma firstn_S_nth_error {A : Type} (l : list A) (n : nat) (x : A) :
  nth_error l n = Some x -> firstn (S n) l = firstn n l ++ [x].
Proof.
  revert l. induction n as [|n IH]; intros [|y l] H; try discriminate.
  - cbn in H. injection H as ->. reflexivity.
  - cbn [nth_error] in H. cbn [firstn app]. f_equal.
    apply (IH l H).
Qed.

Lemma consumed_advance (sc : Scanner) (b : byte) :
  peek sc = Some b -> consumed (advance sc) = consumed sc ++ [b].
Proof.
  intros Hp. unfold consumed. rewrite advance_s, advance_pos.
  apply firstn_S_nth_error. exact Hp.
Qed.

Lemma tracks_advance (L0 base : Z) (sc : Scanner) (b : byte) :
  peek sc = Some b -> tracks L0 base sc -> tracks L0 base (advance sc).
Proof.
  intros Hp (Hpos & Hl & Hc & Hb).
  pose proof (peek_Some_lt _ _ Hp) as Hlt.
  pose proof (consumed_advance sc b Hp) as Hcons.
  destruct (splitLines_snoc (consumed sc) b) as [Hlen Hlast].
  pose proof (splitLines_nonempty (consumed sc)) as Hne.
  unfold tracks, newlines, last_line. rewrite Hcons, Hlen, Hlast.
  rewrite advance_s, advance_pos.
  unfold advance. rewrite Hp.
  destruct (byte_eqb b ch_nl); cbn [line column baseOffset length].
  - split; [lia|]. split; [|split; [reflexivity|exact Hb]].
    unfold int_add. rewrite Hl, wrap64_add_l. f_equal.
    unfold newlines.
    destruct (splitLines (consumed sc)); [congruence|]. cbn [length]. lia.
  - split; [lia|]. split; [exact Hl|]. split; [|exact Hb].
    unfold int_add. rewrite Hc, wrap64_add_l. f_equal.
    unfold last_line. rewrite length_app. cbn [length]. lia.
Qed.

Lemma tracks_advances (L0 base : Z) (sc sc' : Scanner) :
  advances sc sc' -> tracks L0 base sc -> tracks L0 base sc'.
Proof.
  induction 1 as [sc|sc b sc' Hp H IH]; intros Ht; [exact Ht|].
  apply IH. apply (tracks_advance L0 base sc b Hp Ht).
Qed.

Lemma NewScanner_tracks (input : gostring) : tracks 1 0 (NewScanner input).
Proof.
  unfold tracks, consumed. cbn. split; [lia|]. repeat split.
Qed.

Lemma consumed_at_end (sc : Scanner) :
  pos sc <= length (s sc) -> peek sc = None -> consumed sc = s sc.
Proof.
  intros Hle Hp. apply peek_None_iff in Hp. unfold consumed.
  apply firstn_all2. exact Hp.
Qed.

(** X1: a call of [Next] that returns leaves the buffer as it is and the
    cursor at or after where it was, and inside the buffer if it was. *)
Theorem Next_moves_forward (fuel : nat) (sc sc' : Scanner) (r : command) :
  Next fuel sc = Some (sc', r) ->
  s sc' = s sc /\ pos sc <= pos sc'
  /\ (pos sc <= length (s sc) -> pos sc' <= length (s sc')).
Proof.
  destruct r as [[args body] oerr]. unfold Next. intros H.
  apply Next_loop_sound in H. destruct H as [H _].
  apply advances_moved. exact H.
Qed.

Lemma Next_moves_forward_witness :
  let sc := NewScanner (bytes "a b") in
  let sc' := {| s := bytes "a b"; pos := 3; line := 1; column := 4;
                baseOffset := 0 |} in
  Next 3 sc = Some (sc', ([bytes "a"; bytes "b"], [], None))
  /\ s sc' = s sc /\ pos sc <= pos sc'
  /\ (pos sc <= length (s sc) -> pos sc' <= length (s sc')).
Proof.
  intros sc sc'. split; [vm_compute; reflexivity|].
  apply (Next_moves_forward 3 sc sc' ([bytes "a"; bytes "b"], [], None)).
  vm_compute; reflexivity.
Defined.

(** X2: the line and the column are kept: a scanner that tracks its
    position still does after a call of [Next]; its line is the starting
    line plus the newlines before the cursor, its column one more than the
    bytes after the last of them. *)
Theorem Next_keeps_track (L0 base : Z) (fuel : nat) (sc sc' : Scanner)
        (r : command) :
  tracks L0 base sc ->
  Next fuel sc = Some (sc', r) ->
  tracks L0 base sc'.
Proof.
  destruct r as [[args body] oerr]. unfold Next. intros Ht H.
  apply Next_loop_sound in H. destruct H as [H _].
  apply (tracks_advances L0 base sc sc' H Ht).
Qed.


Lemma Next_keeps_track_witness :
  let sc := NewScanner (bytes "a b") in
  let sc' := {| s := bytes "a b"; pos := 3; line := 1; column := 4;
                baseOffset := 0 |} in
  tracks 1 0 sc
  /\ Next 3 sc = Some (sc', ([bytes "a"; bytes "b"], [], None))
  /\ tracks 1 0 sc'.
Proof.
  intros sc sc'.
  split; [apply NewScanner_tracks|].
  split; [vm_compute; reflexivity|].
  apply (Next_keeps_track 1 0 3 sc sc' ([bytes "a"; bytes "b"], [], None)).
  - apply NewScanner_tracks.
  - vm_compute; reflexivity.
Defined.

(** ** Errors and the end of input *)

(** X3: a [ScanError] that [Next] returns has one of the five messages, is
    raised with the cursor at or after the end of the buffer, and carries
    the position of the scanner as the call leaves it. *)
Theorem Next_error_at_end (fuel : nat) (sc sc' : Scanner)
        (args : list gostring) (body : gostring) (e : ScanError) :
  Next fuel sc = Some (sc', (args, body, Some (ScanErr e))) ->
  length (s sc') <= pos sc'
  /\ Pos e = currentPos sc'
  /\ In (Msg e) scan_messages.
Proof.
  unfold Next. intros H. apply Next_loop_sound in H.
  destruct H as (_ & Hp & msg & Hin & Heq).
  unfold errorAt in Heq. injection Heq as ->.
  split; [apply peek_None_iff; exact Hp|]. split; [reflexivity|exact Hin].
Qed.

Lemma Next_error_at_end_witness :
  let sc := NewScanner (bytes "a 'b") in
  let sc' := {| s := bytes "a 'b"; pos := 4; line := 1; column := 5;
                baseOffset := 0 |} in
  let e := {| Pos := {| Line := 1; Column := 5; Offset := 4 |};
              Msg := "got EOF in single quote" |} in
  Next 4 sc = Some (sc', ([bytes "a"], [], Some (ScanErr e)))
  /\ length (s sc') <= pos sc'
  /\ Pos e = currentPos sc'
  /\ In (Msg e) scan_messages.
Proof.
  intros sc sc' e. split; [vm_compute; reflexivity|].
  apply (Next_error_at_end 4 sc sc' [bytes "a"] [] e).
  vm_compute; reflexivity.
Defined.

Lemma error_position_of_tracks (L0 base : Z) (fuel : nat) (sc sc' : Scanner)
      (args args' : list gostring) (body : gostring) (e : ScanError) :
  tracks L0 base sc ->
  Next_loop fuel sc args = Some (sc', (args', body, Some (ScanErr e))) ->
  Pos e = {| Line := wrap64 (L0 + Z.of_nat (newlines (s sc)));
             Column := wrap64 (1 + Z.of_nat (length (last_line (s sc))));
             Offset := int_add base (Z.of_nat (length (s sc))) |}.
Proof.
  intros Ht H. apply Next_loop_sound in H.
  destruct H as (Ha & Hp & msg & _ & Heq).
  pose proof (tracks_advances L0 base sc sc' Ha Ht) as (Hpos & Hl & Hc & Hb).
  destruct (advances_moved sc sc' Ha) as (Hs & _ & _).
  rewrite (consumed_at_end sc' Hpos Hp) in Hl, Hc.
  apply peek_None_iff in Hp.
  unfold errorAt in Heq. injection Heq as ->. cbn [Pos].
  unfold currentPos. rewrite Hl, Hc, Hb, Hs.
  replace (pos sc') with (length (s sc)) by (rewrite Hs in *; lia).
  reflexivity.
Qed.

(** X4: error positions are exact.  When a scanner that tracks its position
    returns a [ScanError], the error carries the starting line plus the
    number of newlines of the whole buffer, one more than the number of
    bytes after the last newline as column, and the base offset plus the
    length of the buffer as offset (in Go's int). *)
Theorem Next_error_position (L0 base : Z) (fuel : nat) (sc sc' : Scanner)
        (args : list gostring) (body : gostring) (e : ScanError) :
  tracks L0 base sc ->
  Next fuel sc = Some (sc', (args, body, Some (ScanErr e))) ->
  Pos e = {| Line := wrap64 (L0 + Z.of_nat (newlines (s sc)));
             Column := wrap64 (1 + Z.of_nat (length (last_line (s sc))));
             Offset := int_add base (Z.of_nat (length (s sc))) |}.
Proof. unfold Next. apply error_position_of_tracks. Qed.

Lemma Next_error_position_witness :
  let input := ch_lbrace :: ch_nl :: bytes "line2" ++ ch_nl :: bytes "line3" in
  let sc := NewScanner input in
  let sc' := {| s := input; pos := 13; line := 3; column := 6;
                baseOffset := 0 |} in
  let e := {| Pos := {| Line := 3; Column := 6; Offset := 13 |};
              Msg := "got EOF in opening brace" |} in
  tracks 1 0 sc
  /\ Next 13 sc = Some (sc', ([], [], Some (ScanErr e)))
  /\ Pos e = {| Line := wrap64 (1 + Z.of_nat (newlines (s sc)));
                Column := wrap64 (1 + Z.of_nat (length (last_line (s sc))));
                Offset := int_add 0 (Z.of_nat (length (s sc))) |}.
Proof.
  intros input sc sc' e.
  split; [apply NewScanner_tracks|].
  split; [vm_compute; reflexivity|].
  apply (Next_error_position 1 0 13 sc sc' [] [] e).
  - apply NewScanner_tracks.
  - vm_compute; reflexivity.
Defined.

Lemma NewFromScanner_tracks (L0 base : Z) (parent : Scanner) (input : gostring) :
  tracks L0 base parent ->
  tracks (line parent) (Offset (currentPos parent)) (NewFromScanner parent input).
Proof.
  intros (_ & Hl & _ & _). unfold tracks, consumed, newlines, last_line.
  cbn. split; [lia|]. split; [|split; reflexivity].
  rewrite Z.add_0_r, Hl, wrap64_idem. reflexivity.
Qed.

(** X5: a scanner re-rooted by [NewFromScanner] on a parent that tracks its
    position reports errors in the parent's terms: the line is the parent's
    current line plus the newlines of the child's buffer, the offset the
    parent's current absolute offset plus the length of the child's
    buffer. *)
Theorem NewFromScanner_error_position (L0 base : Z) (fuel : nat)
        (parent sc' : Scanner) (input : gostring) (args : list gostring)
        (body : gostring) (e : ScanError) :
  tracks L0 base parent ->
  Next fuel (NewFromScanner parent input)
    = Some (sc', (args, body, Some (ScanErr e))) ->
  Pos e = {| Line := wrap64 (line parent + Z.of_nat (newlines input));
             Column := wrap64 (1 + Z.of_nat (length (last_line input)));
             Offset := int_add (Offset (currentPos parent))
                               (Z.of_nat (length input)) |}.
Proof.
  intros Ht H.
  apply (error_position_of_tracks (line parent) (Offset (currentPos parent))
           fuel (NewFromScanner parent input) sc' [] args body e).
  - apply (NewFromScanner_tracks L0 base). exact Ht.
  - exact H.
Qed.

Lemma NewFromScanner_error_position_witness :
  let parent := {| s := bytes "x" ++ ch_nl :: bytes "c { 'oops }";
                   pos := 13; line := 2; column := 12; baseOffset := 0 |} in
  let input := bytes " 'oops " in
  let e := {| Pos := {| Line := 2; Column := 8; Offset := 20 |};
              Msg := "got EOF in single quote" |} in
  let sc' := {| s := input; pos := 7; line := 2; column := 8;
                baseOffset := 13 |} in
  tracks 1 0 parent
  /\ Next 7 (NewFromScanner parent input) = Some (sc', ([], [], Some (ScanErr e)))
  /\ Pos e = {| Line := wrap64 (line parent + Z.of_nat (newlines input));
                Column := wrap64 (1 + Z.of_nat (length (last_line input)));
                Offset := int_add (Offset (currentPos parent))
                                  (Z.of_nat (length input)) |}.
Proof.
  intros parent input e sc'.
  assert (Ht : tracks 1 0 parent).
  { unfold tracks. vm_compute. repeat split. lia. }
  split; [exact Ht|]. split; [vm_compute; reflexivity|].
  apply (NewFromScanner_error_position 1 0 7 parent sc' input [] [] e Ht).
  vm_compute; reflexivity.
Defined.

(** X6: [Next] signals [io.EOF] only with no argument, an empty body and the
    cursor at the end of the buffer, and from then on every call signals it
    again and leaves the scanner as it is. *)
Theorem Next_EOF_is_final (fuel : nat) (sc sc' : Scanner)
        (args : list gostring) (body : gostring) :
  Next fuel sc = Some (sc', (args, body, Some io_EOF)) ->
  args = [] /\ body = [] /\ length (s sc') <= pos sc'
  /\ forall fuel', Next fuel' sc' = Some (sc', ([], [], Some io_EOF)).
Proof.
  unfold Next. intros H. apply Next_loop_sound in H.
  destruct H as (_ & Ha & Hb & Hp).
  split; [exact Ha|]. split; [exact Hb|].
  split; [apply peek_None_iff; exact Hp|].
  intros fuel'. destruct fuel'; cbn [Next_loop]; rewrite Hp; reflexivity.
Qed.

Lemma Next_EOF_is_final_witness :
  let input := [ch_space; ch_nl; ch_tab] in
  let sc' := {| s := input; pos := 3; line := 2; column := 2;
                baseOffset := 0 |} in
  Next 3 (NewScanner input) = Some (sc', ([], [], Some io_EOF))
  /\ length (s sc') <= pos sc'
  /\ forall fuel', Next fuel' sc' = Some (sc', ([], [], Some io_EOF)).
Proof.
  intros input sc'. split; [vm_compute; reflexivity|].
  apply (Next_EOF_is_final 3 (NewScanner input) sc' [] []).
  vm_compute; reflexivity.
Defined.


(** ** When [Next] returns *)

(** X7: from a scanner whose bytes from the cursor on are tabs, newlines or
    bytes from 32 on, [Next] returns, within as many iterations of its loop
    as bytes are left. *)
Theorem Next_returns_on_scannable (sc : Scanner) :
  forallb scannable (slice_from (s sc) (pos sc)) = true ->
  exists sc' r, Next (remaining sc) sc = Some (sc', r).
Proof.
  intros H. unfold Next.
  destruct (Next_loop_total (remaining sc) sc []) as [[sc' r] Hr].
  - rewrite forallb_forall in *. intros b Hb.
    rewrite classified_spec. apply (H b Hb).
  - apply le_n.
  - exists sc', r. exact Hr.
Qed.

Lemma Next_returns_on_scannable_witness :
  let sc := NewScanner (bytes "a { b") in
  forallb scannable (slice_from (s sc) (pos sc)) = true
  /\ exists sc' r, Next (remaining sc) sc = Some (sc', r).
Proof.
  intros sc. split; [vm_compute; reflexivity|].
  apply (Next_returns_on_scannable sc). vm_compute; reflexivity.
Defined.

(** X8: when the loop of [Next] comes to a byte below 32 that is neither a
    tab nor a newline, with the arguments collected so far, it repeats
    without moving the cursor: the call does not return, whatever the
    number of iterations. *)
Theorem Next_hangs_on_control_byte (n : nat) (sc sc0 : Scanner)
        (args0 : list gostring) (b : byte) :
  collect n sc [] = Some (sc0, args0) ->
  peek sc0 = Some b ->
  scannable b = false ->
  forall fuel, Next fuel sc = None.
Proof.
  intros Hc Hp Hb fuel. unfold Next.
  unfold scannable in Hb. rewrite <- classified_spec in Hb.
  destruct (Nat.le_gt_cases n fuel) as [Hle|Hgt].
  - replace fuel with (n + (fuel - n)) by lia.
    rewrite (collect_Next_loop n sc [] sc0 args0 _ Hc).
    apply (Next_loop_unclassified _ sc0 b args0 Hp Hb).
  - destruct (Next_loop fuel sc []) as [r|] eqn:E; [|reflexivity].
    apply (Next_loop_more_fuel fuel (n + 1)) in E; [|lia].
    rewrite (collect_Next_loop n sc [] sc0 args0 _ Hc) in E.
    rewrite (Next_loop_unclassified _ sc0 b args0 Hp Hb) in E.
    discriminate E.
Qed.

Lemma Next_hangs_on_control_byte_witness :
  let input := bytes "a " ++ ["000"%char] in
  let sc0 := {| s := input; pos := 2; line := 1; column := 3;
                baseOffset := 0 |} in
  collect 2 (NewScanner input) [] = Some (sc0, [bytes "a"])
  /\ peek sc0 = Some "000"%char
  /\ scannable "000"%char = false
  /\ forall fuel, Next fuel (NewScanner input) = None.
Proof.
  intros input sc0.
  split; [vm_compute; reflexivity|].
  split; [vm_compute; reflexivity|].
  split; [vm_compute; reflexivity|].
  apply (Next_hangs_on_control_byte 2 (NewScanner input) sc0 [bytes "a"]
           "000"%char); vm_compute; reflexivity.
Defined.

(** X9: on a scanner whose cursor is not past the end of its buffer, the
    five sub-parsers return: the number of bytes left is fuel enough for
    their loops. *)
Theorem subparsers_return (sc : Scanner) :
  pos sc <= length (s sc) ->
  (exists r, parseBareword sc = Some r)
  /\ (exists r, parseBackQuote sc = Some r)
  /\ (exists r, parseQuote1 sc = Some r)
  /\ (exists r, parseQuote2 sc = Some r)
  /\ (exists r, parseBrace sc = Some r).
Proof.
  intros _. split.
  { destruct (parseBareword_loop_total (remaining sc) sc (pos sc) [] (le_n _))
      as (sc' & r & H & _).
    exists (sc', r). exact H. }
  split.
  { destruct (parseBackQuote_total sc) as (sc' & r & H & _).
    exists (sc', r). exact H. }
  split.
  { destruct (parseQuote1_total sc) as (sc' & r & H & _).
    exists (sc', r). exact H. }
  split.
  { destruct (parseQuote2_total sc) as (sc' & r & H & _).
    exists (sc', r). exact H. }
  destruct (parseBrace_total sc) as (sc' & r & H & _).
  exists (sc', r). exact H.
Qed.

Lemma subparsers_return_witness :
  let sc := NewScanner (bytes "a'b {c") in
  pos sc <= length (s sc)
  /\ (exists r, parseBareword sc = Some r)
  /\ (exists r, parseBackQuote sc = Some r)
  /\ (exists r, parseQuote1 sc = Some r)
  /\ (exists r, parseQuote2 sc = Some r)
  /\ (exists r, parseBrace sc = Some r).
Proof.
  intros sc. split; [cbn; lia|].
  apply (subparsers_return sc). cbn; lia.
Defined.

(** The loop of [Next] over spaces, tabs and newlines, with no argument
    collected. *)
Lemma Next_loop_skips_blank (rest : gostring) :
  forall (pre tl : gostring) (sc : Scanner) (fuel : nat),
    forallb (fun b => isSpace b || isNewLine b) rest = true ->
    cursor pre (rest ++ tl) sc ->
    remaining sc <= fuel ->
    exists sc' fuel',
      cursor (pre ++ rest) tl sc' /\ remaining sc' <= fuel'
      /\ Next_loop fuel sc [] = Next_loop fuel' sc' [].
Proof.
  induction rest as [|b rest IH]; intros pre tl sc fuel Hall Hc Hf.
  - exists sc, fuel. rewrite app_nil_r. auto.
  - cbn [forallb] in Hall. apply andb_true_iff in Hall.
    destruct Hall as [Hb Hall]. cbn [app] in Hc.
    pose proof (cursor_peek _ _ _ _ Hc) as Hp.
    pose proof (cursor_remaining _ _ _ Hc) as Hr. cbn [length] in Hr.
    destruct fuel as [|fuel]; [lia|].
    apply cursor_advance in Hc.
    destruct (IH (pre ++ [b]) tl (advance sc) fuel Hall Hc)
      as (sc' & fuel' & Hc' & Hf' & Heq).
    { rewrite (cursor_remaining _ _ _ Hc). lia. }
    exists sc', fuel'. rewrite <- app_assoc in Hc'.
    split; [exact Hc'|]. split; [exact Hf'|].
    cbn [Next_loop]. rewrite Hp.
    assert (Hstep : Next_body sc b [] = Some (Continue (advance sc) [])).
    { unfold Next_body. destruct (isSpace b) eqn:E1; [reflexivity|].
      cbn [orb] in Hb. unfold isNewLine in Hb. apply byte_eqb_eq in Hb.
      subst b. reflexivity. }
    rewrite Hstep. exact Heq.
Qed.

(** X10: on an input of spaces, tabs and newlines only, the empty input
    among them, [Next] signals [io.EOF] with no argument. *)
Theorem blank_input_is_EOF (input : gostring) :
  forallb (fun b => isSpace b || isNewLine b) input = true ->
  parse input = Some ([], [], Some io_EOF).
Proof.
  intros H. unfold parse, Next.
  pose proof (cursor_NewScanner input) as Hc.
  rewrite <- (app_nil_r input) in Hc at 1.
  destruct (Next_loop_skips_blank input [] [] (NewScanner input)
              (length input) H Hc)
    as (sc' & fuel' & Hc' & _ & Heq).
  { rewrite (cursor_remaining _ _ _ Hc), app_nil_r. apply le_n. }
  rewrite Heq. pose proof (cursor_peek_end _ _ Hc') as Hp.
  destruct fuel'; cbn [Next_loop]; rewrite Hp; reflexivity.
Qed.

Lemma blank_input_is_EOF_witness :
  forallb (fun b => isSpace b || isNewLine b) [ch_space; ch_tab; ch_nl; ch_space]
  = true
  /\ parse [ch_space; ch_tab; ch_nl; ch_space] = Some ([], [], Some io_EOF).
Proof.
  split; [reflexivity|].
  apply (blank_input_is_EOF [ch_space; ch_tab; ch_nl; ch_space]). reflexivity.
Defined.


(** ** Quotes and escapes inside an argument *)

Lemma word_byte_literal (w : gostring) :
  forallb word_byte w = true -> forallb bareword_literal w = true.
Proof.
  intros H. rewrite forallb_forall in *. intros b Hb. specialize (H b Hb).
  unfold word_byte in H. apply andb_true_iff in H. destruct H as [H1 H2].
  unfold bareword_literal. rewrite H2. unfold isBareword in H1.
  destruct (byte_val b <? 32)%N eqn:E; [discriminate|].
  destruct (isSpace b); [discriminate|].
  destruct (isQuote1 b); [discriminate|].
  destruct (isQuote2 b); [discriminate|].
  destruct (byte_eqb b ch_nl) eqn:En; [|reflexivity].
  apply byte_eqb_eq in En. subst b. discriminate.
Qed.

Lemma word_byte_starts (b : byte) :
  word_byte b = true -> starts_argument b = true.
Proof.
  unfold word_byte, starts_argument. intros H.
  apply andb_true_iff in H. destruct H as [H _]. rewrite H.
  unfold isBareword in H.
  destruct (byte_val b <? 32)%N; [discriminate|].
  destruct (isSpace b); [discriminate|reflexivity].
Qed.

(** A call of [Next] on a fresh scanner whose whole input [parseBareword]
    takes as one argument. *)
Lemma parse_single_argument (input arg : gostring) (b : byte) (tl : gostring)
      (sc' : Scanner) :
  input = b :: tl ->
  starts_argument b = true ->
  parseBareword (NewScanner input) = Some (sc', (arg, None)) ->
  cursor input [] sc' ->
  parse input = Some ([arg], [], None).
Proof.
  intros Hin Hb Hpb Hc'. subst input. unfold parse, Next.
  pose proof (cursor_NewScanner (b :: tl)) as Hc.
  pose proof (cursor_peek _ _ _ _ Hc) as Hp.
  cbn [length Next_loop]. rewrite Hp. unfold Next_body.
  unfold starts_argument in Hb. apply andb_true_iff in Hb.
  destruct Hb as [Hb1 Hb2]. apply negb_true_iff in Hb1.
  rewrite Hb1, Hb2, Hpb.
  pose proof (cursor_peek_end _ _ Hc') as Hp'.
  destruct (length tl); cbn [Next_loop]; rewrite Hp'; reflexivity.
Qed.

Lemma parseQuote1_loop_literal (w : gostring) :
  forall (p0 lit rest : gostring) (sc : Scanner) (fuel : nat),
    ~ In ch_squote w ->
    cursor (p0 ++ lit) (w ++ ch_squote :: rest) sc ->
    remaining sc <= fuel ->
    exists sc',
      parseQuote1_loop fuel sc (length p0) = Some (sc', (lit ++ w, None))
      /\ cursor ((p0 ++ lit ++ w) ++ [ch_squote]) rest sc'.
Proof.
  induction w as [|b w IH]; intros p0 lit rest sc fuel Hw Hc Hf;
    cbn [app] in Hc;
    pose proof (cursor_peek _ _ _ _ Hc) as Hp;
    pose proof (cursor_remaining _ _ _ Hc) as Hr; cbn [length] in Hr;
    (destruct fuel as [|fuel]; [lia|]); cbn [parseQuote1_loop]; rewrite Hp.
  - change (byte_eqb ch_squote ch_squote) with true. cbv beta iota.
    rewrite (cursor_slice _ _ _ _ Hc). exists (advance sc).
    split; [rewrite app_nil_r; reflexivity|].
    apply cursor_advance in Hc. rewrite app_nil_r. exact Hc.
  - assert (Hb : byte_eqb b ch_squote = false).
    { apply byte_eqb_neq. intros ->. apply Hw. left. reflexivity. }
    rewrite Hb. apply cursor_advance in Hc. rewrite <- app_assoc in Hc.
    destruct (IH p0 (lit ++ [b]) rest (advance sc) fuel) as (sc' & H1 & H2).
    + intros Hin. apply Hw. right. exact Hin.
    + exact Hc.
    + rewrite (cursor_remaining _ _ _ Hc). lia.
    + exists sc'. rewrite <- !app_assoc in *. cbn [app] in *. auto.
Qed.

(** [parseQuote1] takes the bytes between two single quotes as they are. *)
Lemma parseQuote1_literal (w pre rest : gostring) (sc : Scanner) :
  ~ In ch_squote w ->
  cursor pre (ch_squote :: w ++ ch_squote :: rest) sc ->
  exists sc', parseQuote1 sc = Some (sc', (w, None))
              /\ cursor (pre ++ ch_squote :: w ++ [ch_squote]) rest sc'.
Proof.
  intros Hw Hc. unfold parseQuote1. apply cursor_advance in Hc.
  pose proof Hc as [_ Hpos].
  rewrite <- (app_nil_r (pre ++ [ch_squote])) in Hc.
  destruct (parseQuote1_loop_literal w (pre ++ [ch_squote]) [] rest
              (advance sc) (remaining (advance sc)) Hw Hc (le_n _))
    as (sc' & H1 & H2).
  exists sc'. rewrite Hpos. split; [exact H1|].
  cbn [app] in H2. rewrite <- !app_assoc in H2. exact H2.
Qed.

Lemma parseBackQuote_loop_literal (w : gostring) :
  forall (p0 lit rest : gostring) (sc : Scanner) (fuel : nat),
    ~ In ch_backquote w ->
    cursor (p0 ++ lit) (w ++ ch_backquote :: rest) sc ->
    remaining sc <= fuel ->
    exists sc',
      parseBackQuote_loop fuel sc (length p0) = Some (sc', (lit ++ w, None))
      /\ cursor ((p0 ++ lit ++ w) ++ [ch_backquote]) rest sc'.
Proof.
  induction w as [|b w IH]; intros p0 lit rest sc fuel Hw Hc Hf;
    cbn [app] in Hc;
    pose proof (cursor_peek _ _ _ _ Hc) as Hp;
    pose proof (cursor_remaining _ _ _ Hc) as Hr; cbn [length] in Hr;
    (destruct fuel as [|fuel]; [lia|]); cbn [parseBackQuote_loop]; rewrite Hp.
  - change (byte_eqb ch_backquote ch_backquote) with true. cbv beta iota.
    rewrite (cursor_slice _ _ _ _ Hc). exists (advance sc).
    split; [rewrite app_nil_r; reflexivity|].
    apply cursor_advance in Hc. rewrite app_nil_r. exact Hc.
  - assert (Hb : byte_eqb b ch_backquote = false).
    { apply byte_eqb_neq. intros ->. apply Hw. left. reflexivity. }
    rewrite Hb. apply cursor_advance in Hc. rewrite <- app_assoc in Hc.
    destruct (IH p0 (lit ++ [b]) rest (advance sc) fuel) as (sc' & H1 & H2).
    + intros Hin. apply Hw. right. exact Hin.
    + exact Hc.
    + rewrite (cursor_remaining _ _ _ Hc). lia.
    + exists sc'. rewrite <- !app_assoc in *. cbn [app] in *. auto.
Qed.

(** The loop of [parseBareword] after a quoted or escaped part [mid] that
    decodes to [dec]: over the run [v] to the end of the input. *)
Lemma parseBareword_loop_tail (pre v out : gostring) (sc : Scanner)
      (fuel : nat) :
  forallb word_byte v = true ->
  cursor pre v sc ->
  remaining sc <= fuel ->
  exists sc', parseBareword_loop fuel sc (length pre) out
              = Some (sc', (out ++ v, None))
              /\ cursor (pre ++ v) [] sc'.
Proof.
  intros Hv Hc Hf. rewrite <- (app_nil_r v) in Hc.
  destruct (parseBareword_loop_run v pre [] sc fuel (length pre) out
              (word_byte_literal v Hv) Hc Hf)
    as (sc' & fuel' & Hc' & Hf' & Heq).
  exists sc'. split; [|exact Hc'].
  rewrite Heq.
  apply (parseBareword_loop_end pre v [] out sc' fuel'); auto.
  left. reflexivity.
Qed.

(** X11: single quotes splice into a bareword.  An input made of a run of
    bareword bytes, a single-quoted part without a single quote in it, and
    another run of bareword bytes (the runs without backslash, either may be
    empty) is one argument: the first run, the quoted bytes as they are,
    backslashes, newlines and braces included, and the second run. *)
Theorem single_quotes_splice (u w v : gostring) :
  forallb word_byte u = true ->
  forallb word_byte v = true ->
  ~ In ch_squote w ->
  parse (u ++ ch_squote :: w ++ ch_squote :: v)
  = Some ([u ++ w ++ v], [], None).
Proof.
  intros Hu Hv Hw.
  set (input := u ++ ch_squote :: w ++ ch_squote :: v).
  pose proof (cursor_NewScanner input) as Hc.
  assert (Hpb : exists sc', parseBareword (NewScanner input)
                            = Some (sc', (u ++ w ++ v, None))
                            /\ cursor input [] sc').
  { unfold parseBareword. change (pos (NewScanner input)) with (length (@nil byte)).
    destruct (parseBareword_loop_run u [] (ch_squote :: w ++ ch_squote :: v)
                (NewScanner input) (remaining (NewScanner input)) 0 []
                (word_byte_literal u Hu) Hc (le_n _))
      as (sc1 & fuel1 & Hc1 & Hf1 & Heq).
    cbn [length] in *. rewrite Heq. cbn [app] in Hc1.
    pose proof (cursor_peek _ _ _ _ Hc1) as Hp1.
    pose proof (cursor_remaining _ _ _ Hc1) as Hr1. cbn [length] in Hr1.
    destruct fuel1 as [|fuel1]; [lia|].
    destruct (parseQuote1_literal w u (v ++ []) sc1 Hw) as (sc2 & Hq & Hc2).
    { rewrite app_nil_r. exact Hc1. }
    cbn [parseBareword_loop]. rewrite Hp1.
    change (isSpace ch_squote) with false.
    change (isQuote1 ch_squote) with true. cbv beta iota.
    rewrite Hq.
    pose proof (cursor_slice [] u _ sc1 Hc1) as Hs1. cbn [length] in Hs1.
    rewrite Hs1. cbn [app].
    destruct Hc2 as [Hs2 Hpos2]. rewrite Hpos2.
    rewrite app_nil_r in Hs2.
    destruct (parseBareword_loop_tail (u ++ ch_squote :: w ++ [ch_squote]) v
                (u ++ w) sc2 fuel1 Hv (conj Hs2 Hpos2))
      as (sc3 & H3 & Hc3).
    { rewrite (cursor_remaining _ _ _ (conj Hs2 Hpos2)).
      rewrite length_app in Hr1. cbn [length] in Hr1. lia. }
    exists sc3. rewrite H3, <- !app_assoc. split; [reflexivity|].
    unfold input. rewrite <- !app_assoc in Hc3. cbn [app] in Hc3.
    rewrite <- app_assoc in Hc3. exact Hc3. }
  destruct Hpb as (sc' & Hpb & Hc').
  destruct u as [|b u'].
  - apply (parse_single_argument input _ ch_squote (w ++ ch_squote :: v) sc');
      auto.
  - apply (parse_single_argument input _ b
             (u' ++ ch_squote :: w ++ ch_squote :: v) sc'); auto.
    cbn [forallb] in Hu. apply andb_true_iff in Hu.
    apply word_byte_starts. tauto.
Qed.

Lemma single_quotes_splice_witness :
  let u := bytes "first=" in
  let w := bytes "mary \ann {" in
  let v := bytes ",x" in
  forallb word_byte u = true
  /\ forallb word_byte v = true
  /\ ~ In ch_squote w
  /\ parse (bytes "first='mary \ann {',x")
     = Some ([bytes "first=mary \ann {,x"], [], None).
Proof.
  intros u w v.
  split; [reflexivity|]. split; [reflexivity|].
  assert (Hw : ~ In ch_squote w).
  { cbn. intros H. repeat (destruct H as [H|H]; [discriminate H|]). exact H. }
  split; [exact Hw|].
  apply (single_quotes_splice u w v); [reflexivity|reflexivity|exact Hw].
Defined.

(** X12: a backtick-quoted input without a backtick in it is one argument,
    the bytes between the backticks as they are. *)
Theorem backquotes_are_literal (w : gostring) :
  ~ In ch_backquote w ->
  parse (ch_backquote :: w ++ [ch_backquote]) = Some ([w], [], None).
Proof.
  intros Hw. unfold parse, Next.
  set (input := ch_backquote :: w ++ [ch_backquote]).
  pose proof (cursor_NewScanner input) as Hc.
  pose proof (cursor_peek _ _ _ _ Hc) as Hp.
  subst input. cbn [length Next_loop]. rewrite Hp.
  apply cursor_advance in Hc. pose proof Hc as [_ Hpos].
  rewrite <- (app_nil_r ([] ++ [ch_backquote])) in Hc.
  destruct (parseBackQuote_loop_literal w ([] ++ [ch_backquote]) [] []
              (advance (NewScanner (ch_backquote :: w ++ [ch_backquote])))
              (remaining (advance (NewScanner (ch_backquote :: w ++ [ch_backquote]))))
              Hw Hc (le_n _))
    as (sc' & H1 & H2).
  unfold Next_body.
  change (isSpace ch_backquote) with false.
  change (isBareword ch_backquote || isQuote1 ch_backquote
          || isQuote2 ch_backquote || byte_eqb ch_backquote ch_backslash)
    with false.
  change (isBackQuote ch_backquote) with true. cbv beta iota.
  unfold parseBackQuote. rewrite Hpos. cbn [app length] in H1.
  cbn [app length]. rewrite H1.
  pose proof (cursor_peek_end _ _ H2) as Hp'.
  destruct (length (w ++ [ch_backquote])); cbn [Next_loop]; rewrite Hp';
    reflexivity.
Qed.

Lemma backquotes_are_literal_witness :
  ~ In ch_backquote (bytes "git 'status' \n {")
  /\ parse (bytes "`git 'status' \n {`")
     = Some ([bytes "git 'status' \n {"], [], None).
Proof.
  assert (Hw : ~ In ch_backquote (bytes "git 'status' \n {")).
  { cbn. intros H. repeat (destruct H as [H|H]; [discriminate H|]). exact H. }
  split; [exact Hw|].
  apply (backquotes_are_literal (bytes "git 'status' \n {") Hw).
Defined.

(** X13: a backslash in a bareword stands, with the byte after it, for what
    the full decoder makes of that byte: a newline for [n], a carriage
    return for [r], a tab for [t], the byte for a backslash or a quote,
    nothing for a newline (the line goes on), and [string(c)] for any other
    byte [c]: the byte itself below 128, the two bytes of the UTF-8 encoding
    of the code point [c] from 128 on; the argument goes on after it. *)
Theorem backslash_in_bareword (u v : gostring) (c : byte) :
  forallb word_byte u = true ->
  forallb word_byte v = true ->
  parse (u ++ ch_backslash :: c :: v) = Some ([u ++ unescape c ++ v], [], None).
Proof.
  intros Hu Hv.
  set (input := u ++ ch_backslash :: c :: v).
  pose proof (cursor_NewScanner input) as Hc.
  assert (Hpb : exists sc', parseBareword (NewScanner input)
                            = Some (sc', (u ++ unescape c ++ v, None))
                            /\ cursor input [] sc').
  { unfold parseBareword.
    change (pos (NewScanner input)) with (length (@nil byte)).
    destruct (parseBareword_loop_run u [] (ch_backslash :: c :: v)
                (NewScanner input) (remaining (NewScanner input)) 0 []
                (word_byte_literal u Hu) Hc (le_n _))
      as (sc1 & fuel1 & Hc1 & Hf1 & Heq).
    cbn [length] in *. rewrite Heq. cbn [app] in Hc1.
    pose proof (cursor_peek _ _ _ _ Hc1) as Hp1.
    pose proof (cursor_remaining _ _ _ Hc1) as Hr1. cbn [length] in Hr1.
    destruct fuel1 as [|fuel1]; [lia|].
    destruct (parseBackslashEscape_cursor u v c sc1 Hc1) as (sc2 & He & Hc2).
    cbn [parseBareword_loop]. rewrite Hp1.
    change (isSpace ch_backslash) with false.
    change (isQuote1 ch_backslash) with false.
    change (isQuote2 ch_backslash) with false.
    change (byte_eqb ch_backslash ch_nl) with false.
    change (byte_eqb ch_backslash ch_backslash) with true. cbv beta iota.
    rewrite He.
    pose proof (cursor_slice [] u _ sc1 Hc1) as Hs1. cbn [length] in Hs1.
    rewrite Hs1. cbn [app].
    pose proof Hc2 as [_ Hpos2]. rewrite Hpos2.
    destruct (parseBareword_loop_tail (u ++ [ch_backslash; c]) v
                (u ++ unescape c) sc2 fuel1 Hv Hc2)
      as (sc3 & H3 & Hc3).
    { rewrite (cursor_remaining _ _ _ Hc2). lia. }
    exists sc3. rewrite H3, <- !app_assoc. split; [reflexivity|].
    unfold input. rewrite <- !app_assoc in Hc3. exact Hc3. }
  destruct Hpb as (sc' & Hpb & Hc').
  destruct u as [|b u'].
  - apply (parse_single_argument input _ ch_backslash (c :: v) sc'); auto.
  - apply (parse_single_argument input _ b (u' ++ ch_backslash :: c :: v) sc');
      auto.
    cbn [forallb] in Hu. apply andb_true_iff in Hu.
    apply word_byte_starts. tauto.
Qed.

Lemma backslash_in_bareword_witness :
  forallb word_byte (bytes "a") = true
  /\ forallb word_byte (bytes "b") = true
  /\ parse (bytes "a\" ++ ch_nl :: bytes "b") = Some ([bytes "ab"], [], None).
Proof.
  split; [reflexivity|]. split; [reflexivity|].
  apply (backslash_in_bareword (bytes "a") (bytes "b") ch_nl); reflexivity.
Defined.


(** ** What [dedent] does to the lines *)

Lemma Join_splitLines (str : gostring) : Join (splitLines str) [ch_nl] = str.
Proof.
  induction str as [|b str IH]; [reflexivity|].
  cbn [splitLines]. pose proof (splitLines_nonempty str) as Hne.
  destruct (byte_eqb b ch_nl) eqn:E.
  - apply byte_eqb_eq in E. subst b.
    destruct (splitLines str) as [|l ls]; [congruence|].
    change (Join ([] :: l :: ls) [ch_nl]) with (ch_nl :: Join (l :: ls) [ch_nl]).
    rewrite IH. reflexivity.
  - destruct (splitLines str) as [|l ls]; [congruence|].
    destruct ls as [|l' ls'].
    + cbn in IH |- *. rewrite IH. reflexivity.
    + change (Join ((b :: l) :: l' :: ls') [ch_nl])
        with (b :: Join (l :: l' :: ls') [ch_nl]).
      rewrite IH. reflexivity.
Qed.

(** [dedent] leaves a text of one line, one without a newline, as it
    is, whatever its indentation. *)
Lemma dedent_single_line (str : gostring) :
  no_newline str -> dedent str = str.
Proof.
  intros H. unfold dedent. destruct (is_empty str); [reflexivity|].
  rewrite (splitLines_line str H). reflexivity.
Qed.


Lemma leadingWS_firstn (cp t l : gostring) :
  leadingWS l = cp ++ t -> firstn (length cp) l = cp.
Proof.
  intros H. destruct (leadingWS_prefix l) as [rest Hl].
  rewrite H, <- app_assoc in Hl. rewrite Hl. apply firstn_length_app.
Qed.

Lemma map_dedentLine_nil (ls : list gostring) : map (dedentLine []) ls = ls.
Proof.
  rewrite <- (map_id ls) at 2. apply map_ext. intros l.
  unfold dedentLine. destruct (TrimSpace_is_empty l); reflexivity.
Qed.

(** The prefix that [dedent] strips, and what it does with it. *)
Lemma dedent_prefix (str : gostring) :
  exists cp,
    blanks cp
    /\ Forall (fun l => nonblank l = true -> exists t, leadingWS l = cp ++ t)
              (splitLines str)
    /\ dedent str = Join (map (dedentLine cp) (splitLines str)) [ch_nl]
    /\ (2 <= length (splitLines str) ->
        forall first others,
          map leadingWS (filter nonblank (splitLines str)) = first :: others ->
          fold_left newCommon others first = cp).
Proof.
  assert (Hnil : blanks []
             /\ Forall (fun l => nonblank l = true ->
                                 exists t, leadingWS l = [] ++ t)
                       (splitLines str)
             /\ str = Join (map (dedentLine []) (splitLines str)) [ch_nl]).
  { split; [constructor|]. split.
    - apply Forall_forall. intros l _ _. exists (leadingWS l). reflexivity.
    - rewrite map_dedentLine_nil. symmetry. apply Join_splitLines. }
  destruct Hnil as (N1 & N2 & N3).
  unfold dedent.
  destruct (is_empty str) eqn:Ee.
  { exists []. repeat (split; [assumption|]). intros Hlen.
    destruct str; [cbn in Hlen; lia|discriminate Ee]. }
  destruct (length (splitLines str) <=? 1) eqn:Elen.
  { exists []. repeat (split; [assumption|]). intros Hlen.
    apply Nat.leb_le in Elen. lia. }
  fold nonblank.
  destruct (map leadingWS (filter nonblank (splitLines str)))
    as [|first others] eqn:Hlw.
  { exists []. repeat (split; [assumption|]). intros _ f o Hfo.
    discriminate Hfo. }
  destruct (is_empty (fold_left newCommon others first)) eqn:Ecp.
  { exists []. repeat (split; [assumption|]). intros _ f o Hfo.
    injection Hfo as <- <-.
    destruct (fold_left newCommon others first); [reflexivity|discriminate Ecp]. }
  set (cp := fold_left newCommon others first) in *.
  destruct (commonPrefix_prefix others first) as [Hf Ho].
  cbn in Hf, Ho. fold cp in Hf, Ho.
  assert (Hall : Forall (fun ws : gostring => exists t, ws = cp ++ t)
                        (first :: others)) by (constructor; assumption).
  exists cp. split; [|split; [|split]].
  - destruct (filter nonblank (splitLines str)) as [|l0 ls0];
      [discriminate Hlw|].
    cbn [map] in Hlw. injection Hlw as Hl0 _.
    destruct Hf as [t Ht]. apply (blanks_app_l cp t).
    rewrite <- Ht, <- Hl0. apply leadingWS_blanks.
  - apply (Forall_map_filter (fun ws : gostring => exists t, ws = cp ++ t)
             leadingWS nonblank (splitLines str)).
    exact (eq_ind_r (Forall _) Hall Hlw).
  - reflexivity.
  - intros _ f o Hfo. injection Hfo as <- <-. reflexivity.
Qed.

(** X15: [dedent] works line by line.  There is a run [cp] of spaces and
    tabs with which every non-blank line of the input starts, and the lines
    of the result are those of the input, in the same number and order: a
    blank line as it is, any other line without its first [length cp]
    bytes. *)
Theorem dedent_line_by_line (str : gostring) :
  exists cp,
    blanks cp
    /\ Forall (fun l => TrimSpace_is_empty l = false ->
                        firstn (length cp) l = cp) (splitLines str)
    /\ splitLines (dedent str)
       = map (fun l => if TrimSpace_is_empty l then l
                       else skipn (length cp) l) (splitLines str).
Proof.
  destruct (dedent_prefix str) as (cp & Hb & Hpre & Hd & _).
  exists cp. split; [exact Hb|]. split.
  - eapply Forall_impl; [|exact Hpre]. intros l Hl Hnb.
    destruct Hl as [t Ht]; [unfold nonblank; rewrite Hnb; reflexivity|].
    apply (leadingWS_firstn cp t l Ht).
  - rewrite Hd. rewrite splitLines_Join.
    + apply map_ext_Forall. eapply Forall_impl; [|exact Hpre].
      intros l Hl. destruct (TrimSpace_is_empty l) eqn:E.
      * apply dedentLine_blank. exact E.
      * destruct Hl as [t Ht]; [unfold nonblank; rewrite E; reflexivity|].
        apply (dedentLine_prefixed cp t l Ht E).
    + intros Hnil. apply map_eq_nil in Hnil.
      exact (splitLines_nonempty str Hnil).
    + apply Forall_map. eapply Forall_impl; [|apply (splitLines_no_newline str)].
      intros l. apply dedentLine_no_newline.
Qed.

(** X16: [dedent] leaves alone a text in which some non-blank line starts
    with a byte that is neither a space nor a tab. *)
Theorem dedent_unindented_line (str l : gostring) :
  In l (splitLines str) ->
  nonblank l = true ->
  leadingWS l = [] ->
  dedent str = str.
Proof.
  intros Hin Hnb Hws.
  destruct (dedent_prefix str) as (cp & _ & Hpre & Hd & _).
  rewrite Forall_forall in Hpre. destruct (Hpre l Hin Hnb) as [t Ht].
  rewrite Hws in Ht. symmetry in Ht. apply app_eq_nil in Ht.
  destruct Ht as [-> _]. rewrite Hd.
  rewrite map_dedentLine_nil. apply Join_splitLines.
Qed.

Lemma dedent_unindented_line_witness :
  let str := bytes "  line1" ++ ch_nl :: bytes "line2" ++ ch_nl :: bytes "  line3" in
  In (bytes "line2") (splitLines str)
  /\ nonblank (bytes "line2") = true
  /\ leadingWS (bytes "line2") = []
  /\ dedent str = str.
Proof.
  intros str.
  assert (Hin : In (bytes "line2") (splitLines str)) by (right; left; reflexivity).
  split; [exact Hin|]. split; [reflexivity|]. split; [reflexivity|].
  apply (dedent_unindented_line str (bytes "line2") Hin); reflexivity.
Defined.

Lemma newCommon_head (b : byte) (x y : gostring) :
  hd_error (newCommon x y) <> Some b ->
  hd_error x <> Some b \/ hd_error y <> Some b.
Proof.
  destruct x as [|a x]; [left; discriminate|].
  destruct y as [|c y]; [right; discriminate|].
  cbn. destruct (byte_eqb a c) eqn:E.
  - cbn. intros H. left. exact H.
  - intros _. apply byte_eqb_neq in E.
    destruct (ascii_dec a b) as [->|Hab]; [right|left]; congruence.
Qed.

(** When the common prefix is empty, no byte stands at the head of all the
    runs. *)
Lemma empty_commonPrefix (b : byte) (others : list gostring) :
  forall first : gostring,
    fold_left newCommon others first = [] ->
    Exists (fun ws => hd_error ws <> Some b) (first :: others).
Proof.
  induction others as [|x others IH]; intros first H; cbn in H.
  - subst first. left. discriminate.
  - apply IH in H. inversion H as [? ? Hh|? ? Ht]; subst.
    + destruct (newCommon_head b first x Hh) as [H1|H1].
      * left. exact H1.
      * right. left. exact H1.
    + right. right. exact Ht.
Qed.

Lemma Exists_map_filter {A B : Type} (P : B -> Prop) (f : A -> B)
      (g : A -> bool) (l : list A) :
  Exists P (map f (filter g l)) -> exists x, In x l /\ g x = true /\ P (f x).
Proof.
  induction l as [|x l IH]; cbn; intros H; [inversion H|].
  destruct (g x) eqn:E.
  - inversion H as [? ? Hh|? ? Ht]; subst.
    + exists x. auto.
    + destruct (IH Ht) as (y & Hy & Hg & Hp). exists y. auto.
  - destruct (IH H) as (y & Hy & Hg & Hp). exists y. auto.
Qed.

(** X17: [dedent] strips the longest common prefix.  In the result of
    [dedent] on a text of two lines or more, one of them not blank, no space
    or tab stands at the head of all the non-blank lines: for each of the
    two bytes some non-blank line does not start with it. *)
Theorem dedent_strips_all (str : gostring) (b : byte) :
  2 <= length (splitLines str) ->
  existsb nonblank (splitLines str) = true ->
  isSpace b = true ->
  exists l, In l (splitLines (dedent str)) /\ nonblank l = true
            /\ hd_error l <> Some b.
Proof.
  intros Hlen Hex Hb.
  assert (Hlw : exists f o,
             map leadingWS (filter nonblank (splitLines (dedent str))) = f :: o
             /\ fold_left newCommon o f = []).
  { destruct (dedent_prefix str) as (cp & Hbl & Hpre & Hd & Hcp).
    assert (Hsplit : splitLines (dedent str)
                     = map (dedentLine cp) (splitLines str)).
    { rewrite Hd. apply splitLines_Join.
      - intros Hnil. apply map_eq_nil in Hnil.
        exact (splitLines_nonempty str Hnil).
      - apply Forall_map.
        eapply Forall_impl; [|apply (splitLines_no_newline str)].
        intros l. apply dedentLine_no_newline. }
    destruct (leading_after_dedentLine cp (splitLines str) Hpre)
      as (lw' & H1 & H2).
    rewrite Hsplit, H2.
    destruct (map leadingWS (filter nonblank (splitLines str)))
      as [|first others] eqn:Elw.
    { exfalso. apply existsb_exists in Hex. destruct Hex as (l & Hin & Hnb).
      assert (Hf : In l (filter nonblank (splitLines str)))
        by (apply filter_In; auto).
      destruct (filter nonblank (splitLines str)); [exact Hf|discriminate Elw]. }
    destruct lw' as [|f o]; [discriminate H1|].
    exists f, o. split; [reflexivity|].
    cbn [map] in H1. injection H1 as Hfirst Hothers.
    specialize (Hcp Hlen first others eq_refl).
    rewrite Hfirst, Hothers, fold_newCommon_app in Hcp.
    rewrite <- (app_nil_r cp) in Hcp at 2.
    apply app_inv_head in Hcp. exact Hcp. }
  destruct Hlw as (f & o & Hlw & Hfold).
  pose proof (empty_commonPrefix b o f Hfold) as Hex'.
  rewrite <- Hlw in Hex'.
  apply Exists_map_filter in Hex'. destruct Hex' as (l & Hin & Hnb & Hhd).
  exists l. split; [exact Hin|]. split; [exact Hnb|].
  intros Hl. apply Hhd. destruct l as [|x l]; [discriminate Hl|].
  cbn in Hl. injection Hl as ->. cbn.
  unfold isSpace in Hb. rewrite Hb. reflexivity.
Qed.

Lemma dedent_strips_all_witness :
  let str := bytes "    a" ++ ch_nl :: bytes "  b" in
  2 <= length (splitLines str)
  /\ existsb nonblank (splitLines str) = true
  /\ isSpace ch_space = true
  /\ exists l, In l (splitLines (dedent str)) /\ nonblank l = true
               /\ hd_error l <> Some ch_space.
Proof.
  intros str.
  split; [vm_compute; lia|]. split; [reflexivity|]. split; [reflexivity|].
  apply (dedent_strips_all str ch_space);
    [vm_compute; lia|reflexivity|reflexivity].
Defined.


(** ** Indented bodies *)

Lemma Join_cons2 (a b : gostring) (ls : list gostring) (sep : gostring) :
  Join (a :: b :: ls) sep = a ++ sep ++ Join (b :: ls) sep.
Proof. reflexivity. Qed.

(** The loop of [FormatIndent] over the lines of the body. *)
Lemma FormatIndent_loop (indent : gostring) (lines : list gostring) :
  forall acc : gostring,
    lines <> [] ->
    fold_left (fun res line => res ++ indent ++ line ++ [ch_nl]) lines acc
    = acc ++ Join (map (app indent) lines) [ch_nl] ++ [ch_nl].
Proof.
  induction lines as [|l lines IH]; intros acc Hne; [congruence|].
  cbn [fold_left]. destruct lines as [|l' lines'].
  - cbn. rewrite <- !app_assoc. reflexivity.
  - rewrite IH by discriminate. cbn [map]. rewrite Join_cons2.
    rewrite <- !app_assoc. reflexivity.
Qed.

Lemma FormatIndent_is_Format_of_indented_aux (tbl : Z -> bool)
      (args : list gostring) (body indent : gostring) :
  body <> [] ->
  FormatIndent tbl args body indent = Format tbl args (indented indent body).
Proof.
  intros Hne. unfold Format, indented.
  destruct indent as [|i indent].
  - replace (map (app []) (splitLines body)) with (splitLines body)
      by (rewrite <- (map_id (splitLines body)) at 1; reflexivity).
    rewrite Join_splitLines. reflexivity.
  - unfold FormatIndent.
    destruct body as [|b body]; [congruence|]. cbn [is_empty negb].
    rewrite FormatIndent_loop by apply splitLines_nonempty.
    assert (He : is_empty (Join (map (app (i :: indent)) (splitLines (b :: body)))
                             [ch_nl]) = false).
    { pose proof (splitLines_nonempty (b :: body)) as Hs.
      destruct (splitLines (b :: body)) as [|l [|l' ls]]; [congruence| |];
        reflexivity. }
    rewrite He. cbn [negb]. rewrite <- !app_assoc. reflexivity.
Qed.

(** X18: with a body that is not empty, [FormatIndent] writes what [Format]
    writes for the body with the indent put before each of its lines, the
    empty ones included. *)
Theorem FormatIndent_is_Format_of_indented (tbl : Z -> bool)
        (args : list gostring) (body indent : gostring) :
  body <> [] ->
  FormatIndent tbl args body indent = Format tbl args (indented indent body).
Proof. apply FormatIndent_is_Format_of_indented_aux. Qed.

Lemma FormatIndent_is_Format_of_indented_witness :
  let body := bytes "line1" ++ ch_nl :: ch_nl :: bytes "line3" in
  body <> []
  /\ FormatIndent noTable [bytes "config"] body (bytes "  ")
     = Format noTable [bytes "config"]
         (bytes "  line1" ++ ch_nl :: bytes "  " ++ ch_nl :: bytes "  line3").
Proof.
  intros body. split; [discriminate|].
  apply (FormatIndent_is_Format_of_indented noTable [bytes "config"] body
           (bytes "  ")).
  discriminate.
Defined.


Lemma indented_eq (indent body : gostring) :
  indented indent body = indent ++ indent_after_newlines indent body.
Proof.
  unfold indented. induction body as [|b body IH].
  - cbn. reflexivity.
  - cbn [splitLines indent_after_newlines].
    pose proof (splitLines_nonempty body) as Hne.
    destruct (byte_eqb b ch_nl) eqn:E.
    + apply byte_eqb_eq in E. subst b.
      destruct (splitLines body) as [|l ls]; [congruence|].
      cbn [map]. rewrite Join_cons2, app_nil_r. cbn [app].
      f_equal. f_equal. exact IH.
    + destruct (splitLines body) as [|l ls]; [congruence|].
      destruct ls as [|l' ls'].
      * cbn in IH |- *. apply app_inv_head in IH. f_equal. f_equal. exact IH.
      * cbn [map]. rewrite Join_cons2, <- app_assoc. cbn [app].
        f_equal. f_equal.
        cbn [map] in IH.
        assert (IH' : (indent ++ l) ++ [ch_nl]
                        ++ Join (map (app indent) (l' :: ls')) [ch_nl]
                      = indent ++ indent_after_newlines indent body)
          by exact IH.
        rewrite <- app_assoc in IH'. apply app_inv_head in IH'. exact IH'.
Qed.

Lemma body_closes_blanks (p : gostring) :
  blanks p ->
  forall (depth : nat) (B : gostring),
    body_closes depth (p ++ B) = body_closes depth B.
Proof.
  induction 1 as [|b p Hb Hp IH]; intros depth B; [reflexivity|].
  cbn [app body_closes].
  unfold isSpace in Hb. apply orb_true_iff in Hb.
  destruct Hb as [Hb|Hb]; apply byte_eqb_eq in Hb; subst b; apply IH.
Qed.

Lemma body_closes_indent (indent : gostring) (n : nat) :
  blanks indent ->
  forall (B : gostring) (depth : nat),
    length B <= n ->
    body_closes depth (indent_after_newlines indent B) = body_closes depth B.
Proof.
  intros Hi. induction n as [n IH] using lt_wf_ind. intros B depth Hn.
  destruct B as [|b r]; [reflexivity|].
  cbn [length] in Hn. cbn [indent_after_newlines].
  destruct (byte_eqb b ch_nl) eqn:E.
  - apply byte_eqb_eq in E. subst b. cbn [body_closes].
    change (byte_eqb ch_nl ch_backslash) with false.
    change (byte_eqb ch_nl ch_lbrace) with false.
    change (byte_eqb ch_nl ch_rbrace) with false. cbv beta iota.
    rewrite (body_closes_blanks indent Hi).
    apply (IH (length r)); lia.
  - cbn [body_closes]. destruct (byte_eqb b ch_backslash).
    + destruct r as [|c r']; [reflexivity|].
      cbn [length] in Hn. cbn [indent_after_newlines].
      destruct (byte_eqb c ch_nl) eqn:Ec.
      * apply byte_eqb_eq in Ec. subst c.
        rewrite (body_closes_blanks indent Hi).
        rewrite (IH (length r')); [reflexivity|lia|lia].
      * rewrite (IH (length r')); [reflexivity|lia|lia].
    + destruct (byte_eqb b ch_lbrace); [apply (IH (length r)); lia|].
      destruct (byte_eqb b ch_rbrace).
      * destruct depth; [reflexivity|apply (IH (length r)); lia].
      * apply (IH (length r)); lia.
Qed.

Lemma body_closes_indented (indent B : gostring) (depth : nat) :
  blanks indent ->
  body_closes depth (indented indent B) = body_closes depth B.
Proof.
  intros Hi. rewrite indented_eq, (body_closes_blanks indent Hi).
  apply (body_closes_indent indent (length B) Hi). apply le_n.
Qed.

Lemma splitLines_snoc_newline (str : gostring) :
  splitLines (str ++ [ch_nl]) = splitLines str ++ [[]].
Proof.
  induction str as [|b str IH]; [reflexivity|].
  cbn [app splitLines]. rewrite IH.
  pose proof (splitLines_nonempty str) as Hne.
  destruct (byte_eqb b ch_nl); [reflexivity|].
  destruct (splitLines str) as [|l ls]; [congruence|reflexivity].
Qed.

(** The lines of a body between the two newlines of the formatter. *)
Lemma splitLines_wrapped (B : gostring) :
  splitLines (ch_nl :: B ++ [ch_nl]) = [] :: splitLines B ++ [[]].
Proof.
  change (splitLines (ch_nl :: B ++ [ch_nl]))
    with ([] :: splitLines (B ++ [ch_nl])).
  rewrite splitLines_snoc_newline. reflexivity.
Qed.

Lemma blanks_no_newline (p : gostring) : blanks p -> no_newline p.
Proof.
  unfold no_newline. induction 1 as [|b p Hb Hp IH]; [intros []|].
  intros [->|Hin]; [discriminate Hb|exact (IH Hin)].
Qed.

Lemma no_newline_app (a b : gostring) :
  no_newline a -> no_newline b -> no_newline (a ++ b).
Proof.
  unfold no_newline. intros Ha Hb Hin. apply in_app_or in Hin. tauto.
Qed.

Lemma nonblank_indent (indent l : gostring) :
  blanks indent -> nonblank (indent ++ l) = nonblank l.
Proof.
  intros Hi. unfold nonblank. rewrite TrimSpace_is_empty_blanks_app by exact Hi.
  reflexivity.
Qed.

(** Indenting the non-blank lines of a text of two lines or more by spaces
    and tabs does not change what [dedent] makes of it. *)
Lemma dedent_indent_lines (indent : gostring) (L : list gostring) :
  blanks indent ->
  2 <= length L ->
  Forall no_newline L ->
  dedent (Join (map (indent_line indent) L) [ch_nl]) = dedent (Join L [ch_nl]).
Proof.
  intros Hi Hlen Hnl.
  assert (HL : L <> []) by (destruct L; [cbn in Hlen; lia|discriminate]).
  assert (Hnl' : Forall no_newline (map (indent_line indent) L)).
  { apply Forall_map. eapply Forall_impl; [|exact Hnl]. intros l Hl.
    unfold indent_line. destruct (nonblank l); [|exact Hl].
    apply no_newline_app; [apply blanks_no_newline; exact Hi|exact Hl]. }
  assert (HL' : map (indent_line indent) L <> []).
  { intros H. apply map_eq_nil in H. congruence. }
  destruct (dedent_prefix (Join L [ch_nl])) as (cp & _ & Hpre & Hd & Hcp).
  destruct (dedent_prefix (Join (map (indent_line indent) L) [ch_nl]))
    as (cp' & _ & Hpre' & Hd' & Hcp').
  rewrite (splitLines_Join L HL Hnl) in *.
  rewrite (splitLines_Join _ HL' Hnl') in *.
  rewrite length_map in Hcp'.
  rewrite Hd, Hd'. f_equal.
  assert (Hlw : map leadingWS (filter nonblank (map (indent_line indent) L))
                = map (app indent) (map leadingWS (filter nonblank L))).
  { clear - Hi. induction L as [|l L IH]; [reflexivity|].
    cbn [map filter].
    assert (Hnb : nonblank (indent_line indent l) = nonblank l).
    { unfold indent_line. destruct (nonblank l) eqn:E; [|exact E].
      rewrite (nonblank_indent indent l Hi). exact E. }
    rewrite Hnb. destruct (nonblank l) eqn:E; [|exact IH].
    cbn [map]. f_equal; [|exact IH].
    unfold indent_line. rewrite E. apply (leadingWS_app indent l Hi). }
  destruct (map leadingWS (filter nonblank L)) as [|f o] eqn:Elw.
  - (* no line is non-blank: nothing is indented *)
    assert (Hall : Forall (fun l => nonblank l = false) L).
    { clear - Elw. induction L as [|l L IH]; [constructor|].
      cbn [filter] in Elw. destruct (nonblank l) eqn:E; [discriminate Elw|].
      constructor; [exact E|exact (IH Elw)]. }
    rewrite map_map. apply map_ext_Forall.
    eapply Forall_impl; [|exact Hall]. intros l Hl.
    unfold indent_line. rewrite Hl.
    unfold nonblank in Hl. apply negb_false_iff in Hl.
    rewrite !dedentLine_blank by exact Hl. reflexivity.
  - specialize (Hcp Hlen f o eq_refl).
    cbn [map] in Hlw. specialize (Hcp' Hlen _ _ Hlw).
    rewrite fold_newCommon_app, Hcp in Hcp'. subst cp'.
    rewrite map_map. apply map_ext_Forall.
    eapply Forall_impl; [|exact Hpre]. intros l Hl.
    unfold indent_line. destruct (nonblank l) eqn:E.
    + destruct (Hl E) as [t Ht].
      assert (Hb : TrimSpace_is_empty l = false)
        by (apply negb_true_iff; exact E).
      destruct (dedentLine_prefixed cp t l Ht Hb) as (H1 & _ & _).
      assert (Ht' : leadingWS (indent ++ l) = (indent ++ cp) ++ t)
        by (rewrite (leadingWS_app indent l Hi), Ht, app_assoc; reflexivity).
      assert (Hb' : TrimSpace_is_empty (indent ++ l) = false)
        by (rewrite TrimSpace_is_empty_blanks_app by exact Hi; exact Hb).
      destruct (dedentLine_prefixed (indent ++ cp) t (indent ++ l) Ht' Hb')
        as (H1' & _ & _).
      rewrite H1, H1', length_app, Nat.add_comm, <- skipn_skipn.
      rewrite skipn_length_app. reflexivity.
    + unfold nonblank in E. apply negb_false_iff in E.
      rewrite !dedentLine_blank by exact E. reflexivity.
Qed.

(** What the scanner makes of the body that [FormatIndent] writes, when no
    line of the body is blank and the indent is made of spaces and tabs. *)
Lemma dedent_indented (indent B : gostring) :
  blanks indent ->
  forallb nonblank (splitLines B) = true ->
  dedent (ch_nl :: indented indent B ++ [ch_nl]) = dedent (ch_nl :: B ++ [ch_nl]).
Proof.
  intros Hi Hnb.
  pose proof (splitLines_nonempty B) as Hne.
  pose proof (splitLines_no_newline B) as Hnl.
  assert (Hlines : Forall no_newline ([] :: splitLines B ++ [[]])).
  { constructor; [intros []|]. apply Forall_app. split; [exact Hnl|].
    constructor; [intros []|constructor]. }
  assert (Hmap : map (app indent) (splitLines B)
                 = map (indent_line indent) (splitLines B)).
  { apply map_ext_Forall. apply Forall_forall. intros l Hl.
    rewrite forallb_forall in Hnb. unfold indent_line.
    rewrite (Hnb l Hl). reflexivity. }
  assert (Hsplit' : splitLines (indented indent B)
                    = map (indent_line indent) (splitLines B)).
  { unfold indented. rewrite Hmap. apply splitLines_Join.
    - intros H. apply map_eq_nil in H. congruence.
    - apply Forall_map. eapply Forall_impl; [|exact Hnl]. intros l Hl.
      unfold indent_line. destruct (nonblank l); [|exact Hl].
      apply no_newline_app; [apply blanks_no_newline; exact Hi|exact Hl]. }
  rewrite <- (Join_splitLines (ch_nl :: B ++ [ch_nl])).
  rewrite <- (Join_splitLines (ch_nl :: indented indent B ++ [ch_nl])).
  rewrite !splitLines_wrapped, Hsplit'.
  replace ([] :: map (indent_line indent) (splitLines B) ++ [[]])
    with (map (indent_line indent) ([] :: splitLines B ++ [[]]))
    by (cbn [map]; rewrite map_app; reflexivity).
  apply dedent_indent_lines; [exact Hi| |exact Hlines].
  cbn [length]. rewrite length_app. cbn [length]. lia.
Qed.

(** Parsing what [Format] wrote. *)
Lemma parse_Format (tbl : Z -> bool) (A : list gostring) (B : gostring) :
  A <> [] \/ B <> [] ->
  forallb (arg_round_trips tbl) A = true ->
  body_closes 0 B = true ->
  (Z.of_nat (length B) < 2 ^ 63 - 1)%Z ->
  parse (Format tbl A B) = Some (A, body_of B, None).
Proof.
  intros Hne HA HB Hbound.
  unfold parse, Next. rewrite Format_text.
  set (input := Join (map (formatArg tbl) A) [ch_space] ++ tail_of B).
  pose proof (cursor_NewScanner input) as Hc.
  assert (Hf : remaining (NewScanner input) <= length input)
    by (rewrite (cursor_remaining _ _ _ Hc); apply le_n).
  destruct A as [|a A].
  - cbn [map Join app] in input.
    apply (Next_loop_tail B [] (NewScanner input) (length input) []);
      assumption.
  - apply (Next_loop_arguments tbl B (a :: A) [] (NewScanner input)
             (length input) []); try assumption.
    discriminate.
Qed.

(** X19: the indentation that [FormatIndent] writes is taken off again by
    the scanner.  For arguments that read back, a body that closes (balanced
    braces, no backslash before a brace, a backslash or a byte from 128 on)
    and has no blank line, and an indent of spaces and tabs, parsing
    [FormatIndent A B indent] gives the arguments [A] and the body that
    parsing [Format A B] gives: [dedent ("\n" + B + "\n")]. *)
Theorem FormatIndent_round_trip (tbl : Z -> bool) (A : list gostring)
        (B indent : gostring) :
  B <> [] ->
  forallb isSpace indent = true ->
  forallb nonblank (splitLines B) = true ->
  forallb (arg_round_trips tbl) A = true ->
  body_closes 0 B = true ->
  (Z.of_nat (length (indented indent B)) < 2 ^ 63 - 1)%Z ->
  parse (FormatIndent tbl A B indent)
  = Some (A, dedent (ch_nl :: B ++ [ch_nl]), None).
Proof.
  intros HB Hi Hnb HA Hcl Hbound.
  assert (Hbl : blanks indent).
  { unfold blanks. apply Forall_forall. rewrite forallb_forall in Hi. exact Hi. }
  rewrite (FormatIndent_is_Format_of_indented_aux tbl A B indent HB).
  assert (Hne : indented indent B <> []).
  { rewrite indented_eq. destruct B as [|b B]; [congruence|].
    cbn [indent_after_newlines]. destruct (byte_eqb b ch_nl);
      intros H; apply app_eq_nil in H; destruct H as [_ H]; discriminate H. }
  rewrite (parse_Format tbl A (indented indent B)); auto.
  - unfold body_of. destruct (indented indent B) eqn:E; [congruence|].
    cbn [is_empty]. rewrite <- E. rewrite (dedent_indented indent B Hbl Hnb).
    reflexivity.
  - rewrite (body_closes_indented indent B 0 Hbl). exact Hcl.
Qed.

Lemma FormatIndent_round_trip_witness :
  let A := [bytes "config"; bytes "set"] in
  let B := bytes "port: 8080" ++ ch_nl :: bytes "host: localhost" in
  B <> []
  /\ forallb isSpace (bytes "  ") = true
  /\ forallb nonblank (splitLines B) = true
  /\ forallb (arg_round_trips noTable) A = true
  /\ body_closes 0 B = true
  /\ (Z.of_nat (length (indented (bytes "  ") B)) < 2 ^ 63 - 1)%Z
  /\ parse (FormatIndent noTable A B (bytes "  "))
     = Some (A, ch_nl :: B ++ [ch_nl], None).
Proof.
  intros A B.
  split; [discriminate|]. split; [reflexivity|]. split; [reflexivity|].
  split; [reflexivity|]. split; [reflexivity|].
  split; [vm_compute; reflexivity|].
  apply (FormatIndent_round_trip noTable A B (bytes "  ")).
  - discriminate.
  - reflexivity.
  - reflexivity.
  - reflexivity.
  - reflexivity.
  - vm_compute; reflexivity.
Defined.

(** ** A text of several commands *)

Lemma parseBareword_loop_stop (p0 lit rest out : gostring) (sc : Scanner)
      (fuel : nat) :
  arg_stop rest ->
  cursor (p0 ++ lit) rest sc ->
  remaining sc <= fuel ->
  parseBareword_loop fuel sc (length p0) out = Some (sc, (out ++ lit, None)).
Proof.
  intros [He|[rest' ->]] Hc Hf.
  - apply (parseBareword_loop_end p0 lit rest out sc fuel He Hc Hf).
  - pose proof (cursor_peek _ _ _ _ Hc) as Hp.
    pose proof (cursor_slice _ _ _ _ Hc) as Hs.
    pose proof (cursor_remaining _ _ _ Hc) as Hr. cbn in Hr.
    destruct fuel as [|fuel]; [lia|].
    cbn [parseBareword_loop]. rewrite Hp, Hs. reflexivity.
Qed.

Lemma parseBareword_formatArg_stop (tbl : Z -> bool) (a pre rest : gostring)
      (sc : Scanner) :
  arg_round_trips tbl a = true ->
  arg_stop rest ->
  cursor pre (formatArg tbl a ++ rest) sc ->
  exists sc', parseBareword sc = Some (sc', (a, None))
              /\ cursor (pre ++ formatArg tbl a) rest sc'.
Proof.
  intros H He Hc.
  destruct (formatArg_cases tbl a H) as [[Hb Heq]|(enc & Heq & Hq)];
    rewrite Heq in *.
  - unfold parseBareword.
    destruct (parseBareword_loop_run a pre rest sc (remaining sc) (pos sc) []
                (isBarewordString_literal a Hb) Hc (le_n _))
      as (sc' & fuel' & Hc' & Hf' & Heq').
    exists sc'. split; [|exact Hc'].
    rewrite Heq'. destruct Hc as [_ Hpos]. rewrite Hpos.
    apply (parseBareword_loop_stop pre a rest [] sc' fuel' He Hc' Hf').
  - cbn [app] in Hc. rewrite <- app_assoc in Hc. cbn [app] in Hc.
    unfold parseBareword.
    pose proof (cursor_peek _ _ _ _ Hc) as Hp.
    pose proof (cursor_remaining _ _ _ Hc) as Hr. cbn [length] in Hr.
    destruct (parseQuote2_quoted enc a pre rest sc Hq Hc) as (sc' & Hq2 & Hc').
    exists sc'. split; [|exact Hc'].
    rewrite Hr. cbn [parseBareword_loop]. rewrite Hp.
    change (isSpace ch_dquote) with false.
    change (isQuote1 ch_dquote) with false.
    change (isQuote2 ch_dquote) with true.
    cbv beta iota. rewrite Hq2.
    pose proof Hc' as Hc''.
    rewrite <- (app_nil_r (pre ++ ch_dquote :: enc ++ [ch_dquote])) in Hc''.
    destruct Hc' as [_ Hpos]. rewrite Hpos.
    rewrite (parseBareword_loop_stop _ [] rest _ sc' _ He Hc'').
    + rewrite app_nil_r.
      destruct Hc as [_ Hpos0]. rewrite Hpos0.
      replace (slice (s sc) (length pre) (length pre)) with (@nil byte)
        by (unfold slice; rewrite Nat.sub_diag; reflexivity).
      reflexivity.
    + rewrite (cursor_remaining _ _ _ Hc'').
      rewrite length_app. cbn [length]. lia.
Qed.

(** One iteration of the loop of [Next] on a written argument, whatever
    ends it. *)
Lemma Next_loop_argument_stop (tbl : Z -> bool) (a pre rest : gostring)
      (sc : Scanner) (fuel : nat) (acc : list gostring) :
  arg_round_trips tbl a = true ->
  arg_stop rest ->
  cursor pre (formatArg tbl a ++ rest) sc ->
  remaining sc <= fuel ->
  exists sc' fuel',
    cursor (pre ++ formatArg tbl a) rest sc'
    /\ remaining sc' <= fuel'
    /\ Next_loop fuel sc acc = Next_loop fuel' sc' (acc ++ [a]).
Proof.
  intros Ha He Hc Hf.
  destruct (formatArg_start tbl a Ha) as (b & tl & Hfa & Hb).
  destruct (parseBareword_formatArg_stop tbl a pre rest sc Ha He Hc)
    as (sc' & Hpb & Hc').
  pose proof (cursor_remaining _ _ _ Hc) as Hr.
  pose proof (cursor_remaining _ _ _ Hc') as Hr'.
  rewrite Hfa in Hc, Hr. cbn [app] in Hc. cbn [app length] in Hr.
  pose proof (cursor_peek _ _ _ _ Hc) as Hp.
  destruct fuel as [|fuel]; [lia|].
  exists sc', fuel. split; [exact Hc'|].
  split; [rewrite length_app in Hr; lia|].
  cbn [Next_loop]. rewrite Hp. unfold Next_body.
  unfold starts_argument in Hb. apply andb_true_iff in Hb.
  destruct Hb as [Hb1 Hb2]. apply negb_true_iff in Hb1.
  rewrite Hb1, Hb2, Hpb. reflexivity.
Qed.

(** [parseBrace] on a written block leaves the cursor after its closing
    brace. *)
Lemma parseBrace_block_cursor (B pre rest : gostring) (sc : Scanner) :
  body_closes 0 B = true ->
  (Z.of_nat (length B) < 2 ^ 63 - 1)%Z ->
  cursor pre (ch_lbrace :: ch_nl :: B ++ ch_nl :: ch_rbrace :: rest) sc ->
  exists sc' pre',
    parseBrace sc = Some (sc', (dedent (ch_nl :: B ++ [ch_nl]), None))
    /\ cursor pre' rest sc'.
Proof.
  intros Hb Hbound Hc. unfold parseBrace.
  apply cursor_advance in Hc.
  pose proof (cursor_peek _ _ _ _ Hc) as Hp.
  pose proof (cursor_remaining _ _ _ Hc) as Hr. cbn [length] in Hr.
  destruct Hc as [Hs Hpos]. rewrite Hr, Hpos.
  rewrite (parseBrace_loop_other _ (advance sc) _ [] 1 ch_nl Hp eq_refl eq_refl eq_refl).
  assert (Hc1 : cursor ((pre ++ [ch_lbrace]) ++ [ch_nl])
                       (B ++ ch_nl :: ch_rbrace :: rest) (advance (advance sc)))
    by (apply cursor_advance; split; assumption).
  destruct (parseBrace_loop_body (length B) B 0 (pre ++ [ch_lbrace]) [ch_nl]
              (ch_rbrace :: rest) (advance (advance sc))
              (length (B ++ ch_nl :: ch_rbrace :: rest)) [] (le_n _) Hb
              ltac:(cbn [Z.of_nat]; lia) Hc1)
    as (sc' & fuel' & p0' & lit' & out' & Hc' & Hf' & Hout & Heq).
  { rewrite (cursor_remaining _ _ _ Hc1). apply le_n. }
  change (1 + Z.of_nat 0)%Z with 1%Z in Heq. rewrite Heq.
  pose proof (cursor_peek _ _ _ _ Hc') as Hp'.
  pose proof (cursor_remaining _ _ _ Hc') as Hr'. cbn [length] in Hr'.
  pose proof (cursor_slice _ _ _ _ Hc') as Hs'.
  destruct fuel' as [|fuel']; [lia|].
  exists (advance sc'), ((p0' ++ lit') ++ [ch_rbrace]).
  split; [|apply cursor_advance; exact Hc'].
  cbn [parseBrace_loop]. rewrite Hp'.
  change (byte_eqb ch_rbrace ch_backslash) with false.
  change (byte_eqb ch_rbrace ch_lbrace) with false.
  change (byte_eqb ch_rbrace ch_rbrace) with true.
  change (int_sub 1 1 =? 0)%Z with true. cbv beta iota.
  rewrite Hs', Hout. reflexivity.
Qed.

(** The loop of [Next] at what [Format] writes after the arguments: it
    returns with the cursor after the block, or after the newline that ends
    a command without body. *)
Lemma Next_loop_tail_cursor (B pre rest : gostring) (sc : Scanner)
      (fuel : nat) (acc : list gostring) :
  acc <> [] \/ B <> [] ->
  body_closes 0 B = true ->
  (Z.of_nat (length B) < 2 ^ 63 - 1)%Z ->
  line_end rest ->
  cursor pre (tail_of B ++ rest) sc ->
  remaining sc <= fuel ->
  exists sc' pre' rest',
    Next_loop fuel sc acc = Some (sc', (acc, body_of B, None))
    /\ cursor pre' rest' sc'
    /\ (rest' = rest \/ rest = ch_nl :: rest').
Proof.
  unfold tail_of, body_of. intros Hne Hb Hbound He Hc Hf.
  destruct B as [|b B]; cbn [is_empty] in *.
  - assert (Hacc : acc <> []) by (destruct Hne as [H|H]; [exact H|congruence]).
    cbn [app] in Hc.
    destruct acc as [|a acc]; [congruence|].
    destruct He as [->|[rest' ->]].
    + exists sc, pre, []. split; [|split; [exact Hc|left; reflexivity]].
      pose proof (cursor_peek_end _ _ Hc) as Hp.
      destruct fuel; cbn [Next_loop]; rewrite Hp; reflexivity.
    + pose proof (cursor_peek _ _ _ _ Hc) as Hp.
      pose proof (cursor_remaining _ _ _ Hc) as Hr. cbn [length] in Hr.
      destruct fuel as [|fuel]; [lia|].
      exists (advance sc), (pre ++ [ch_nl]), rest'.
      split; [|split; [apply cursor_advance; exact Hc|right; reflexivity]].
      cbn [Next_loop]. rewrite Hp. reflexivity.
  - unfold block in Hc. rewrite <- !app_assoc in Hc. cbn [app] in Hc.
    pose proof (cursor_peek _ _ _ _ Hc) as Hp.
    pose proof (cursor_remaining _ _ _ Hc) as Hr. cbn [length] in Hr.
    destruct fuel as [|fuel]; [lia|].
    cbn [Next_loop]. rewrite Hp.
    change (Next_body sc ch_space acc) with (Some (Continue (advance sc) acc)).
    cbv beta iota.
    apply cursor_advance in Hc.
    pose proof (cursor_peek _ _ _ _ Hc) as Hp1.
    destruct fuel as [|fuel]; [lia|].
    cbn [Next_loop]. rewrite Hp1.
    destruct (parseBrace_block_cursor (b :: B) _ rest (advance sc) Hb Hbound Hc)
      as (sc' & pre' & Hpb & Hc').
    exists sc', pre', rest.
    split; [|split; [exact Hc'|left; reflexivity]].
    unfold Next_body.
    change (isSpace ch_lbrace) with false.
    change (isBareword ch_lbrace || isQuote1 ch_lbrace || isQuote2 ch_lbrace
            || byte_eqb ch_lbrace ch_backslash) with false.
    change (isBackQuote ch_lbrace) with false.
    change (isLeftBrace ch_lbrace) with true.
    cbv beta iota. rewrite Hpb. reflexivity.
Qed.

Lemma arg_stop_tail_of (B rest : gostring) :
  line_end rest -> arg_stop (tail_of B ++ rest).
Proof.
  unfold tail_of, arg_stop, arg_end, line_end. intros He.
  destruct B; cbn [is_empty app].
  - destruct He as [->|He]; [left; left; reflexivity|right; exact He].
  - left. right. unfold block. cbn [app]. eexists. reflexivity.
Qed.

(** The loop of [Next] over the written arguments of a command and what
    follows them. *)
Lemma Next_loop_arguments_cursor (tbl : Z -> bool) (B rest : gostring)
      (A : list gostring) :
  forall (pre : gostring) (sc : Scanner) (fuel : nat) (acc : list gostring),
    A <> [] ->
    forallb (arg_round_trips tbl) A = true ->
    body_closes 0 B = true ->
    (Z.of_nat (length B) < 2 ^ 63 - 1)%Z ->
    line_end rest ->
    cursor pre (Join (map (formatArg tbl) A) [ch_space] ++ tail_of B ++ rest) sc ->
    remaining sc <= fuel ->
    exists sc' pre' rest',
      Next_loop fuel sc acc = Some (sc', (acc ++ A, body_of B, None))
      /\ cursor pre' rest' sc'
      /\ (rest' = rest \/ rest = ch_nl :: rest').
Proof.
  induction A as [|a A IH]; intros pre sc fuel acc Hne HA Hb Hbound He Hc Hf;
    [congruence|].
  cbn [forallb] in HA. apply andb_true_iff in HA. destruct HA as [Ha HA].
  destruct A as [|a2 A].
  - cbn [map Join] in Hc.
    destruct (Next_loop_argument_stop tbl a pre (tail_of B ++ rest) sc fuel acc
                Ha (arg_stop_tail_of B rest He) Hc Hf)
      as (sc' & fuel' & Hc' & Hf' & Heq).
    rewrite Heq.
    apply (Next_loop_tail_cursor B (pre ++ formatArg tbl a) rest sc' fuel'
             (acc ++ [a])); try assumption.
    left. destruct acc; discriminate.
  - change (Join (map (formatArg tbl) (a :: a2 :: A)) [ch_space])
      with (formatArg tbl a ++ [ch_space]
            ++ Join (map (formatArg tbl) (a2 :: A)) [ch_space]) in Hc.
    rewrite <- !app_assoc in Hc. cbn [app] in Hc.
    destruct (Next_loop_argument_stop tbl a pre _ sc fuel acc Ha
                (or_introl (or_intror (ex_intro _ _ eq_refl))) Hc Hf)
      as (sc' & fuel' & Hc' & Hf' & Heq).
    rewrite Heq.
    pose proof (cursor_peek _ _ _ _ Hc') as Hp.
    pose proof (cursor_remaining _ _ _ Hc') as Hr. cbn [length] in Hr.
    destruct fuel' as [|fuel']; [lia|].
    cbn [Next_loop]. rewrite Hp.
    change (Next_body sc' ch_space (acc ++ [a]))
      with (Some (Continue (advance sc') (acc ++ [a]))).
    cbv beta iota.
    apply cursor_advance in Hc'.
    destruct (IH ((pre ++ formatArg tbl a) ++ [ch_space]) (advance sc') fuel'
                (acc ++ [a])) as (sc2 & pre2 & rest2 & Heq2 & Hc2 & Hr2);
      try assumption.
    + discriminate.
    + rewrite (cursor_remaining _ _ _ Hc'). lia.
    + exists sc2, pre2, rest2. split; [|split; assumption].
      rewrite Heq2. rewrite <- app_assoc. reflexivity.
Qed.

(** One call of [Next] at a written command: it returns the command and
    leaves the cursor before what follows the command, the newline that
    ends it taken or not. *)
Lemma Next_loop_command (tbl : Z -> bool) (A : list gostring)
      (B pre rest : gostring) (sc : Scanner) (fuel : nat) :
  readable_command tbl (A, B) = true ->
  line_end rest ->
  cursor pre (Format tbl A B ++ rest) sc ->
  remaining sc <= fuel ->
  exists sc' pre' rest',
    Next_loop fuel sc [] = Some (sc', (A, body_of B, None))
    /\ cursor pre' rest' sc'
    /\ (rest' = rest \/ rest = ch_nl :: rest').
Proof.
  unfold readable_command. cbn [fst snd]. intros Hok He Hc Hf.
  apply andb_true_iff in Hok. destruct Hok as [Hok Hbound].
  apply andb_true_iff in Hok. destruct Hok as [Hok Hb].
  apply andb_true_iff in Hok. destruct Hok as [Hne HA].
  apply Z.ltb_lt in Hbound.
  rewrite Format_text, <- app_assoc in Hc.
  destruct A as [|a A].
  - cbn [map Join app] in Hc.
    apply (Next_loop_tail_cursor B pre rest sc fuel []); try assumption.
    right. intros ->. discriminate.
  - apply (Next_loop_arguments_cursor tbl B rest (a :: A) pre sc fuel []);
      try assumption.
    discriminate.
Qed.

(** The text of several commands, one on a line. *)
Lemma Join_lines_cons (p : gostring) (ps : list gostring) :
  exists rest,
    Join (p :: ps) [ch_nl] = p ++ rest
    /\ line_end rest
    /\ (rest = [] /\ ps = []
        \/ rest = ch_nl :: Join ps [ch_nl] /\ ps <> []).
Proof.
  destruct ps as [|p2 ps].
  - exists []. cbn [Join]. rewrite app_nil_r.
    split; [reflexivity|]. split; [left; reflexivity|]. left. auto.
  - exists (ch_nl :: Join (p2 :: ps) [ch_nl]).
    split; [reflexivity|]. split; [right; eexists; reflexivity|].
    right. split; [reflexivity|discriminate].
Qed.

Lemma scanAll_formatted (tbl : Z -> bool)
      (cmds : list (list gostring * gostring)) :
  forall (ws pre : gostring) (sc : Scanner) (fuel : nat),
    forallb (readable_command tbl) cmds = true ->
    forallb (fun b => isSpace b || isNewLine b) ws = true ->
    cursor pre (ws ++ Join (map (fun c => Format tbl (fst c) (snd c)) cmds)
                           [ch_nl]) sc ->
    remaining sc <= fuel ->
    scanAll (S (length cmds)) fuel sc
    = Some (map (fun c => (fst c, body_of (snd c))) cmds, None).
Proof.
  induction cmds as [|[A B] cmds IH]; intros ws pre sc fuel Hok Hws Hc Hf.
  - cbn [map Join] in Hc.
    destruct (Next_loop_skips_blank ws pre [] sc fuel Hws Hc Hf)
      as (sc1 & fuel1 & Hc1 & Hf1 & Heq).
    pose proof (cursor_peek_end _ _ Hc1) as Hp.
    cbn [scanAll length map]. unfold Next. rewrite Heq.
    destruct fuel1; cbn [Next_loop]; rewrite Hp; reflexivity.
  - cbn [forallb] in Hok. apply andb_true_iff in Hok.
    destruct Hok as [Hcmd Hok].
    cbn [map fst snd] in Hc.
    destruct (Join_lines_cons (Format tbl A B)
                (map (fun c => Format tbl (fst c) (snd c)) cmds))
      as (rest & Hj & He & Hrest).
    rewrite Hj in Hc.
    pose proof (cursor_remaining _ _ _ Hc) as Hr.
    destruct (Next_loop_skips_blank ws pre _ sc fuel Hws Hc Hf)
      as (sc1 & fuel1 & Hc1 & Hf1 & Heq).
    destruct (Next_loop_command tbl A B (pre ++ ws) rest sc1 fuel1 Hcmd He
                Hc1 Hf1)
      as (sc' & pre' & rest' & Hn & Hc' & Hrel).
    pose proof (cursor_remaining _ _ _ Hc') as Hr'.
    assert (Hf' : remaining sc' <= fuel).
    { rewrite Hr'. rewrite !length_app in Hr.
      destruct Hrel as [->| ->]; cbn [length] in *; lia. }
    change (scanAll (S (length ((A, B) :: cmds))) fuel sc)
      with (match Next fuel sc with
            | None => None
            | Some (_, (_, _, Some io_EOF)) => Some ([], None)
            | Some (_, (_, _, Some err)) => Some ([], Some err)
            | Some (sc', (args, body, None)) =>
                match scanAll (S (length cmds)) fuel sc' with
                | None => None
                | Some (cmds, err) => Some ((args, body) :: cmds, err)
                end
            end).
    unfold Next. rewrite Heq, Hn. cbv beta iota.
    assert (Hgo : exists ws' pre2,
               forallb (fun b => isSpace b || isNewLine b) ws' = true
               /\ cursor pre2
                    (ws' ++ Join (map (fun c => Format tbl (fst c) (snd c)) cmds)
                                 [ch_nl]) sc').
    { destruct Hrest as [[-> Hnil]|[-> Hcons]].
      - assert (rest' = []) by (destruct Hrel as [H|H]; [exact H|discriminate]).
        subst rest'. apply map_eq_nil in Hnil. subst cmds.
        exists [], pre'. split; [reflexivity|exact Hc']. 
      - destruct Hrel as [->|Hrel].
        + exists [ch_nl], pre'. split; [reflexivity|exact Hc'].
        + injection Hrel as <-. exists [], pre'.
          split; [reflexivity|exact Hc']. }
    destruct Hgo as (ws' & pre2 & Hws' & Hc2).
    rewrite (IH ws' pre2 sc' fuel Hok Hws' Hc2 Hf'). reflexivity.
Qed.

(** X20: a text of commands reads back.  When commands that read back
    ([readable_command]: arguments or a body, arguments that read back, a
    body that closes) are
    written by [Format], one on a line, the loop that calls [Next] until
    [io.EOF] reads them one by one, in order, each with its arguments and
    its body between newlines and dedented, and ends without an error,
    after one call more than there are commands. *)
Theorem formatted_text_reads_back (tbl : Z -> bool)
        (cmds : list (list gostring * gostring)) :
  forallb (readable_command tbl) cmds = true ->
  let text := Join (map (fun c => Format tbl (fst c) (snd c)) cmds) [ch_nl] in
  scanAll (S (length cmds)) (length text) (NewScanner text)
  = Some (map (fun c => (fst c, body_of (snd c))) cmds, None).
Proof.
  intros Hok text.
  apply (scanAll_formatted tbl cmds [] [] (NewScanner text) (length text) Hok
           eq_refl).
  - apply cursor_NewScanner.
  - rewrite (cursor_remaining _ _ _ (cursor_NewScanner text)). apply le_n.
Qed.

Lemma formatted_text_reads_back_witness :
  let cmds := [([bytes "name"; bytes "My App"], []);
               ([bytes "database"], bytes "host localhost");
               ([bytes "port"; bytes "8080"], [])] in
  forallb (readable_command noTable) cmds = true
  /\ scanAll 4 (length (Join (map (fun c => Format noTable (fst c) (snd c)) cmds)
                             [ch_nl]))
       (NewScanner (Join (map (fun c => Format noTable (fst c) (snd c)) cmds)
                         [ch_nl]))
     = Some ([([bytes "name"; bytes "My App"], []);
              ([bytes "database"], ch_nl :: bytes "host localhost" ++ [ch_nl]);
              ([bytes "port"; bytes "8080"], [])], None).
Proof.
  intros cmds. split; [vm_compute; reflexivity|].
  apply (formatted_text_reads_back noTable cmds). vm_compute; reflexivity.
Defined.

(** ** The body between braces *)

Lemma brace_outcome_put (res : option (Scanner * parsed))
      (out x whole : gostring) (bt : brace_text) :
  brace_outcome res (out ++ x) bt whole ->
  brace_outcome res out (brace_put x bt) whole.
Proof.
  destruct bt as [body rest| |partial]; cbn [brace_outcome brace_put].
  - rewrite app_assoc. exact (fun H => H).
  - exact (fun H => H).
  - rewrite app_assoc. exact (fun H => H).
Qed.

Lemma brace_outcome_eq (res : option (Scanner * parsed))
      (out out' whole whole' : gostring) (bt : brace_text) :
  out = out' -> whole = whole' ->
  brace_outcome res out bt whole -> brace_outcome res out' bt whole'.
Proof. intros -> ->. exact (fun H => H). Qed.

Lemma parseBraceEscape_any (pre rest : gostring) (c : byte) (sc : Scanner) :
  cursor pre (ch_backslash :: c :: rest) sc ->
  exists sc', parseBraceEscape sc = (sc', (brace_unescape c, None))
              /\ cursor (pre ++ [ch_backslash; c]) rest sc'.
Proof.
  intros Hc. unfold parseBraceEscape.
  rewrite (cursor_peek _ _ _ _ Hc).
  apply cursor_advance in Hc. rewrite (cursor_peek _ _ _ _ Hc).
  apply cursor_advance in Hc. rewrite <- app_assoc in Hc. cbn [app] in Hc.
  exists (advance (advance sc)). split; [|exact Hc].
  unfold brace_unescape.
  destruct (byte_eqb c ch_lbrace); [reflexivity|].
  destruct (byte_eqb c ch_rbrace); [reflexivity|].
  destruct (byte_eqb c ch_backslash); reflexivity.
Qed.

(** The loop of [parseBrace] against [brace_body]. *)
Lemma parseBrace_loop_scan (n : nat) :
  forall (text : gostring) (depth : nat) (p0 lit : gostring) (sc : Scanner)
         (fuel : nat) (out : gostring),
    length text <= n ->
    (Z.of_nat depth + Z.of_nat (length text) < 2 ^ 63 - 1)%Z ->
    cursor (p0 ++ lit) text sc ->
    remaining sc <= fuel ->
    brace_outcome
      (parseBrace_loop fuel sc (length p0) out (1 + Z.of_nat depth))
      (out ++ lit) (brace_body depth text) (p0 ++ lit ++ text).
Proof.
  induction n as [n IH] using lt_wf_ind.
  intros text depth p0 lit sc fuel out Hn Hbound Hc Hf.
  pose proof (cursor_remaining _ _ _ Hc) as Hr.
  destruct text as [|b r].
  - pose proof (cursor_peek_end _ _ Hc) as Hp.
    cbn [brace_body brace_outcome]. exists sc.
    split; [destruct fuel; cbn [parseBrace_loop]; rewrite Hp; reflexivity|].
    rewrite app_nil_r. exact Hc.
  - cbn [length] in Hr, Hn, Hbound.
    pose proof (cursor_peek _ _ _ _ Hc) as Hp.
    pose proof (cursor_slice _ _ _ _ Hc) as Hs.
    destruct fuel as [|fuel]; [lia|].
    cbn [brace_body].
    destruct (byte_eqb b ch_backslash) eqn:E1.
    + apply byte_eqb_eq in E1. subst b.
      destruct r as [|c r'].
      * (* a backslash, and the text ends *)
        cbn [brace_outcome]. exists (advance sc).
        apply cursor_advance in Hc.
        split; [|rewrite app_assoc; exact Hc].
        cbn [parseBrace_loop]. rewrite Hp.
        change (byte_eqb ch_backslash ch_backslash) with true. cbv beta iota.
        rewrite Hs. unfold parseBraceEscape. rewrite Hp.
        rewrite (cursor_peek_end _ _ Hc). rewrite app_nil_r. reflexivity.
      * destruct (parseBraceEscape_any _ _ c _ Hc) as (sc1 & He & Hc1).
        rewrite <- (app_nil_r ((p0 ++ lit) ++ [ch_backslash; c])) in Hc1.
        cbn [length] in Hr, Hn, Hbound.
        pose proof (IH (length r') ltac:(lia) r' depth
                       ((p0 ++ lit) ++ [ch_backslash; c]) [] sc1 fuel
                       ((out ++ lit) ++ brace_unescape c) (le_n _)
                       ltac:(lia) Hc1
                       ltac:(rewrite (cursor_remaining _ _ _ Hc1); lia))
          as Hrec.
        apply brace_outcome_put.
        cbn [parseBrace_loop]. rewrite Hp.
        change (byte_eqb ch_backslash ch_backslash) with true. cbv beta iota.
        rewrite Hs, He. destruct Hc1 as [_ Hpos1].
        rewrite app_nil_r in Hpos1. rewrite Hpos1.
        refine (brace_outcome_eq _ _ _ _ _ _ _ _ Hrec).
        -- rewrite app_nil_r. reflexivity.
        -- cbn [app]. rewrite <- !app_assoc. reflexivity.
    + pose proof Hc as Hc1. apply cursor_advance in Hc1.
      rewrite <- app_assoc in Hc1.
      assert (Hf1 : remaining (advance sc) <= fuel)
        by (rewrite (cursor_remaining _ _ _ Hc1); lia).
      destruct (byte_eqb b ch_lbrace) eqn:E2.
      * (* an opening brace: one level deeper *)
        pose proof (IH (length r) ltac:(lia) r (S depth) p0 (lit ++ [b])
                       (advance sc) fuel out (le_n _) ltac:(lia) Hc1 Hf1)
          as Hrec.
        apply brace_outcome_put.
        cbn [parseBrace_loop]. rewrite Hp, E1, E2.
        unfold int_add. rewrite wrap64_small by lia.
        replace (1 + Z.of_nat depth + 1)%Z with (1 + Z.of_nat (S depth))%Z by lia.
        refine (brace_outcome_eq _ _ _ _ _ _ _ _ Hrec).
        -- rewrite <- !app_assoc. reflexivity.
        -- rewrite <- !app_assoc. reflexivity.
      * destruct (byte_eqb b ch_rbrace) eqn:E3.
        -- destruct depth as [|d].
           ++ (* the closing brace of the body *)
              cbn [brace_outcome]. exists (advance sc), ((p0 ++ lit) ++ [b]).
              split; [|apply cursor_advance; exact Hc].
              cbn [parseBrace_loop]. rewrite Hp, E1, E2, E3.
              change (int_sub (1 + Z.of_nat 0) 1 =? 0)%Z with true.
              cbv beta iota. rewrite Hs, app_nil_r. reflexivity.
           ++ (* a closing brace inside the body: one level up *)
              pose proof (IH (length r) ltac:(lia) r d p0 (lit ++ [b])
                             (advance sc) fuel out (le_n _) ltac:(lia) Hc1 Hf1)
                as Hrec.
              apply brace_outcome_put.
              cbn [parseBrace_loop]. rewrite Hp, E1, E2, E3.
              unfold int_sub. rewrite wrap64_small by lia.
              replace (1 + Z.of_nat (S d) - 1)%Z with (1 + Z.of_nat d)%Z by lia.
              replace (1 + Z.of_nat d =? 0)%Z with false
                by (symmetry; apply Z.eqb_neq; lia).
              refine (brace_outcome_eq _ _ _ _ _ _ _ _ Hrec).
              ** rewrite <- !app_assoc. reflexivity.
              ** rewrite <- !app_assoc. reflexivity.
        -- pose proof (IH (length r) ltac:(lia) r depth p0 (lit ++ [b])
                          (advance sc) fuel out (le_n _) ltac:(lia) Hc1 Hf1)
             as Hrec.
           apply brace_outcome_put.
           rewrite (parseBrace_loop_other fuel sc _ out _ b Hp E1 E2 E3).
           refine (brace_outcome_eq _ _ _ _ _ _ _ _ Hrec).
           ++ rewrite <- !app_assoc. reflexivity.
           ++ rewrite <- !app_assoc. reflexivity.
Qed.

Lemma parseBrace_scan (pre text : gostring) (sc : Scanner) :
  (Z.of_nat (length text) < 2 ^ 63 - 1)%Z ->
  cursor pre (ch_lbrace :: text) sc ->
  brace_outcome (parseBrace sc) [] (brace_body 0 text)
                (pre ++ ch_lbrace :: text).
Proof.
  intros Hbound Hc. unfold parseBrace.
  apply cursor_advance in Hc.
  pose proof (cursor_remaining _ _ _ Hc) as Hr.
  pose proof Hc as [_ Hpos]. rewrite Hpos.
  rewrite <- (app_nil_r (pre ++ [ch_lbrace])) in Hc.
  pose proof (parseBrace_loop_scan (length text) text 0 (pre ++ [ch_lbrace]) []
                (advance sc) (remaining (advance sc)) [] (le_n _)
                ltac:(cbn [Z.of_nat]; lia) Hc (le_n _)) as H.
  refine (brace_outcome_eq _ _ _ _ _ _ _ _ H).
  - reflexivity.
  - cbn [app]. rewrite <- app_assoc. reflexivity.
Qed.

(** X21: what [parseBrace] returns.  With the cursor at an opening brace,
    [parseBrace] returns the dedented body that [brace_body] reads up to the
    matching brace, escaped braces and backslashes decoded and not counted,
    any other byte [c] after a backslash written as the backslash and
    [string(c)] ([c] itself below 128, two bytes from 128 on),
    and leaves the cursor after that brace; when the text ends first it
    returns the error of the opening brace with an empty body, and when the
    text ends on a backslash the error of the backslash, with the body read
    so far, not dedented; both with the cursor at the end. *)
Theorem parseBrace_reads_body (pre text : gostring) (sc : Scanner) :
  (Z.of_nat (length text) < 2 ^ 63 - 1)%Z ->
  cursor pre (ch_lbrace :: text) sc ->
  match brace_body 0 text with
  | Closed body rest =>
      exists sc' pre',
        parseBrace sc = Some (sc', (dedent body, None))
        /\ cursor pre' rest sc'
  | Unclosed =>
      exists sc',
        parseBrace sc
        = Some (sc', ([], Some (errorAt sc' "got EOF in opening brace")))
        /\ cursor (pre ++ ch_lbrace :: text) [] sc'
  | Dangling partial =>
      exists sc',
        parseBrace sc
        = Some (sc', (partial, Some (errorAt sc' "got EOF after backslash")))
        /\ cursor (pre ++ ch_lbrace :: text) [] sc'
  end.
Proof.
  intros Hbound Hc.
  pose proof (parseBrace_scan pre text sc Hbound Hc) as H.
  unfold brace_outcome in H.
  destruct (brace_body 0 text); exact H.
Qed.

Lemma parseBrace_reads_body_witness :
  let text := bytes "a \{ {b} \n}c" in
  (Z.of_nat (length text) < 2 ^ 63 - 1)%Z
  /\ cursor [] (ch_lbrace :: text) (NewScanner (ch_lbrace :: text))
  /\ exists sc' pre',
       parseBrace (NewScanner (ch_lbrace :: text))
       = Some (sc', (bytes "a { {b} \n", None))
       /\ cursor pre' (bytes "c") sc'.
Proof.
  intros text.
  split; [vm_compute; reflexivity|]. split; [split; reflexivity|].
  apply (parseBrace_reads_body [] text (NewScanner (ch_lbrace :: text))).
  - vm_compute; reflexivity.
  - split; reflexivity.
Defined.

(** ** Inline bodies, double quotes and quotes left open *)





(** X23: double quotes decode.  A double-quoted input whose content [enc]
    is made of bytes other than the double quote and the backslash, and of
    backslashes each with the byte after it, is one argument: the bytes as
    they are and each backslash pair decoded by [unescape], as in a
    bareword ([string(c)] for a byte [c] that is no escape letter: two
    bytes for [c] from 128 on). *)
Theorem double_quotes_decode (enc dec : gostring) :
  quoted enc dec ->
  parse (ch_dquote :: enc ++ [ch_dquote]) = Some ([dec], [], None).
Proof.
  intros Hq.
  pose proof (cursor_NewScanner (ch_dquote :: enc ++ [ch_dquote])) as Hc.
  destruct (parseBareword_quoted enc dec [] [] _ Hq (or_introl eq_refl) Hc)
    as (sc' & Hpb & Hc').
  apply (parse_single_argument _ dec ch_dquote (enc ++ [ch_dquote]) sc'
           eq_refl eq_refl Hpb).
  cbn [app] in Hc'. exact Hc'.
Qed.

Lemma double_quotes_decode_witness :
  quoted (bytes "a\tb" ++ ch_backslash :: ch_dquote :: bytes "c")
         (bytes "a" ++ ch_tab :: bytes "b" ++ ch_dquote :: bytes "c")
  /\ parse (ch_dquote :: (bytes "a\tb" ++ ch_backslash :: ch_dquote :: bytes "c") ++ [ch_dquote])
     = Some ([bytes "a" ++ ch_tab :: bytes "b" ++ ch_dquote :: bytes "c"], [], None).
Proof.
  assert (Hq : quoted (bytes "a\tb" ++ ch_backslash :: ch_dquote :: bytes "c")
                      (bytes "a" ++ ch_tab :: bytes "b" ++ ch_dquote :: bytes "c")).
  { apply quoted_byte; [reflexivity|reflexivity|].
    apply (quoted_escape "t"%char).
    apply quoted_byte; [reflexivity|reflexivity|].
    apply (quoted_escape ch_dquote).
    apply quoted_byte; [reflexivity|reflexivity|].
    apply quoted_nil. }
  split; [exact Hq|]. apply (double_quotes_decode _ _ Hq).
Defined.

(** A failure of the first sub-parser at the end of the input, seen from
    [parse]. *)
Lemma parse_error_at_end (input : gostring) (sc' : Scanner)
      (args : list gostring) (body : gostring) (msg : string) :
  Next_loop (length input) (NewScanner input) []
  = Some (sc', (args, body, Some (errorAt sc' msg))) ->
  parse input
  = Some (args, body,
          Some (ScanErr {| Pos := end_position input; Msg := msg |})).
Proof.
  intros H. unfold parse, Next, results. rewrite H.
  unfold errorAt in H.
  pose proof (error_position_of_tracks 1 0 _ _ _ _ _ _ _
                (NewScanner_tracks input) H) as Hpos.
  cbn [Pos] in Hpos. unfold errorAt. rewrite Hpos. reflexivity.
Qed.

Lemma parse_failing_bareword (input : gostring) (b : byte) (tl out : gostring)
      (sc' : Scanner) (msg : string) :
  input = b :: tl ->
  starts_argument b = true ->
  parseBareword (NewScanner input)
  = Some (sc', (out, Some (errorAt sc' msg))) ->
  parse input
  = Some ([], [], Some (ScanErr {| Pos := end_position input; Msg := msg |})).
Proof.
  intros Hin Hb Hpb. apply (parse_error_at_end input sc').
  subst input.
  pose proof (cursor_NewScanner (b :: tl)) as Hc.
  pose proof (cursor_peek _ _ _ _ Hc) as Hp.
  cbn [length Next_loop]. rewrite Hp. unfold Next_body.
  unfold starts_argument in Hb. apply andb_true_iff in Hb.
  destruct Hb as [Hb1 Hb2]. apply negb_true_iff in Hb1.
  rewrite Hb1, Hb2, Hpb. reflexivity.
Qed.


Lemma parseBackQuote_loop_unclosed (w : gostring) :
  forall (pre : gostring) (sc : Scanner) (fuel i : nat),
    ~ In ch_backquote w ->
    cursor pre w sc ->
    remaining sc <= fuel ->
    exists sc',
      parseBackQuote_loop fuel sc i
      = Some (sc', ([], Some (errorAt sc' "got EOF in back quote"))).
Proof.
  induction w as [|b w IH]; intros pre sc fuel i Hno Hc Hf.
  - pose proof (cursor_peek_end _ _ Hc) as Hp. exists sc.
    destruct fuel; cbn [parseBackQuote_loop]; rewrite Hp; reflexivity.
  - pose proof (cursor_peek _ _ _ _ Hc) as Hp.
    pose proof (cursor_remaining _ _ _ Hc) as Hr. cbn [length] in Hr.
    destruct fuel as [|fuel]; [lia|].
    assert (E : byte_eqb b ch_backquote = false).
    { apply byte_eqb_neq. intros ->. apply Hno. left. reflexivity. }
    apply cursor_advance in Hc.
    destruct (IH (pre ++ [b]) (advance sc) fuel i) as (sc' & H).
    + intros H. apply Hno. right. exact H.
    + exact Hc.
    + rewrite (cursor_remaining _ _ _ Hc). lia.
    + exists sc'. cbn [parseBackQuote_loop]. rewrite Hp, E. exact H.
Qed.



(** X25: a backtick left open.  An input that starts with a backtick and
    has no other gives no argument and the error of the back quote, at the
    position after the last byte of the input. *)
Theorem unclosed_back_quote (w : gostring) :
  ~ In ch_backquote w ->
  parse (ch_backquote :: w)
  = Some ([], [],
          Some (ScanErr {| Pos := end_position (ch_backquote :: w);
                           Msg := "got EOF in back quote" |})).
Proof.
  intros Hw.
  pose proof (cursor_NewScanner (ch_backquote :: w)) as Hc.
  pose proof (cursor_peek _ _ _ _ Hc) as Hp.
  apply cursor_advance in Hc.
  destruct (parseBackQuote_loop_unclosed w _
              (advance (NewScanner (ch_backquote :: w)))
              (remaining (advance (NewScanner (ch_backquote :: w))))
              (pos (advance (NewScanner (ch_backquote :: w)))) Hw Hc (le_n _))
    as (sc' & Hq).
  apply (parse_error_at_end (ch_backquote :: w) sc').
  cbn [length Next_loop]. rewrite Hp. unfold Next_body.
  change (isSpace ch_backquote) with false.
  change (isBareword ch_backquote || isQuote1 ch_backquote
          || isQuote2 ch_backquote || byte_eqb ch_backquote ch_backslash)
    with false.
  change (isBackQuote ch_backquote) with true. cbv beta iota.
  unfold parseBackQuote. rewrite Hq. reflexivity.
Qed.

Lemma unclosed_back_quote_witness :
  ~ In ch_backquote (ch_nl :: bytes "raw")
  /\ parse (ch_backquote :: ch_nl :: bytes "raw")
     = Some ([], [],
             Some (ScanErr {| Pos := {| Line := 2; Column := 4; Offset := 5 |};
                              Msg := "got EOF in back quote" |})).
Proof.
  assert (Hno : ~ In ch_backquote (ch_nl :: bytes "raw")).
  { cbn. intros H.
    repeat (destruct H as [H|H]; [discriminate H|]). exact H. }
  split; [exact Hno|].
  apply (unclosed_back_quote (ch_nl :: bytes "raw") Hno).
Defined.

(** X26: a double quote left open.  When the content after an opening
    double quote has no closing quote (every double quote in it is escaped),
    [Next] returns no argument and the error of the double quote; when the
    input ends on a backslash after such a content, the error of the
    backslash; both at the position after the last byte. *)
Theorem unclosed_double_quote (enc dec : gostring) :
  quoted enc dec ->
  parse (ch_dquote :: enc)
  = Some ([], [],
          Some (ScanErr {| Pos := end_position (ch_dquote :: enc);
                           Msg := "got EOF in double quote" |}))
  /\ parse (ch_dquote :: enc ++ [ch_backslash])
     = Some ([], [],
             Some (ScanErr {| Pos := end_position
                                       (ch_dquote :: enc ++ [ch_backslash]);
                              Msg := "got EOF after backslash" |})).
Proof.
  intros Hq. split.
  - set (input := ch_dquote :: enc).
    pose proof (cursor_NewScanner input) as Hc.
    pose proof (cursor_peek _ _ _ _ Hc) as Hp.
    pose proof (cursor_remaining _ _ _ Hc) as Hr.
    unfold input in Hr at 2. cbn [length] in Hr.
    pose proof Hc as Hc1. apply cursor_advance in Hc1.
    rewrite <- (app_nil_r enc) in Hc1.
    rewrite <- (app_nil_r ([] ++ [ch_dquote])) in Hc1.
    destruct (parseQuote2_loop_quoted enc dec Hq ([] ++ [ch_dquote]) [] []
                (advance (NewScanner input))
                (remaining (advance (NewScanner input))) [] Hc1 (le_n _))
      as (sc' & fuel' & p0' & lit' & out' & Hc' & _ & _ & _ & Heq).
    pose proof (cursor_peek_end _ _ Hc') as Hp'.
    apply (parse_failing_bareword input ch_dquote enc
             ([] ++ slice (s (NewScanner input)) (pos (NewScanner input))
                          (pos (NewScanner input))) sc' _ eq_refl eq_refl).
    unfold parseBareword. rewrite Hr. cbn [parseBareword_loop]. rewrite Hp.
    change (isSpace ch_dquote) with false.
    change (isQuote1 ch_dquote) with false.
    change (isQuote2 ch_dquote) with true.
    cbv beta iota. unfold parseQuote2.
    change (length ([] ++ [ch_dquote])) with (pos (advance (NewScanner input)))
      in Heq.
    rewrite Heq.
    destruct fuel'; cbn [parseQuote2_loop]; rewrite Hp'; reflexivity.
  - set (input := ch_dquote :: enc ++ [ch_backslash]).
    pose proof (cursor_NewScanner input) as Hc.
    pose proof (cursor_peek _ _ _ _ Hc) as Hp.
    pose proof (cursor_remaining _ _ _ Hc) as Hr.
    unfold input in Hr at 2. cbn [length] in Hr.
    pose proof Hc as Hc1. apply cursor_advance in Hc1.
    rewrite <- (app_nil_r ([] ++ [ch_dquote])) in Hc1.
    destruct (parseQuote2_loop_quoted enc dec Hq ([] ++ [ch_dquote]) []
                [ch_backslash] (advance (NewScanner input))
                (remaining (advance (NewScanner input))) [] Hc1 (le_n _))
      as (sc' & fuel' & p0' & lit' & out' & Hc' & _ & Hf' & _ & Heq).
    pose proof (cursor_peek _ _ _ _ Hc') as Hp'.
    pose proof (cursor_remaining _ _ _ Hc') as Hr'. cbn [length] in Hr'.
    pose proof Hc' as Hc2. apply cursor_advance in Hc2.
    pose proof (cursor_peek_end _ _ Hc2) as Hp2.
    apply (parse_failing_bareword input ch_dquote (enc ++ [ch_backslash])
             ([] ++ slice (s (NewScanner input)) (pos (NewScanner input))
                          (pos (NewScanner input))) (advance sc') _
             eq_refl eq_refl).
    unfold parseBareword. rewrite Hr. cbn [parseBareword_loop]. rewrite Hp.
    change (isSpace ch_dquote) with false.
    change (isQuote1 ch_dquote) with false.
    change (isQuote2 ch_dquote) with true.
    cbv beta iota. unfold parseQuote2.
    change (length ([] ++ [ch_dquote])) with (pos (advance (NewScanner input)))
      in Heq.
    rewrite Heq.
    destruct fuel' as [|fuel']; [lia|].
    cbn [parseQuote2_loop]. rewrite Hp'.
    change (byte_eqb ch_backslash ch_dquote) with false.
    change (byte_eqb ch_backslash ch_backslash) with true.
    cbv beta iota. unfold parseBackslashEscape. rewrite Hp', Hp2.
    reflexivity.
Qed.

Lemma unclosed_double_quote_witness :
  quoted (bytes "say " ++ ch_backslash :: ch_dquote :: bytes "hi")
         (bytes "say " ++ ch_dquote :: bytes "hi")
  /\ parse (ch_dquote :: (bytes "say " ++ ch_backslash :: ch_dquote :: bytes "hi"))
     = Some ([], [],
             Some (ScanErr {| Pos := {| Line := 1; Column := 10; Offset := 9 |};
                              Msg := "got EOF in double quote" |})).
Proof.
  assert (Hq : quoted (bytes "say " ++ ch_backslash :: ch_dquote :: bytes "hi")
                      (bytes "say " ++ ch_dquote :: bytes "hi")).
  { do 4 (apply quoted_byte; [reflexivity|reflexivity|]).
    apply (quoted_escape ch_dquote).
    do 2 (apply quoted_byte; [reflexivity|reflexivity|]).
    apply quoted_nil. }
  split; [exact Hq|].
  apply (proj1 (unclosed_double_quote _ _ Hq)).
Defined.

(** ** The argument line of a written command *)

Lemma plain_byte_of_Z (z : Z) : (32 <= z < 256)%Z -> plain_byte (byte_of_Z z).
Proof.
  intros H. unfold plain_byte, byte_of_Z, byte_val.
  rewrite N_ascii_embedding by lia. lia.
Qed.

Lemma lor_lead_byte (c y : Z) :
  Z.log2 c = 7%Z -> (0 <= c)%Z -> (0 <= y < 256)%Z ->
  (32 <= Z.lor c y < 256)%Z.
Proof.
  intros Hc Hc0 Hy.
  assert (Hly : (Z.log2 y <= 7)%Z).
  { destruct (Z.eq_dec y 0) as [->|Hne]; [cbn; lia|].
    assert (Z.log2 y < 8)%Z by (apply Z.log2_lt_pow2; lia). lia. }
  pose proof (Z.log2_lor c y Hc0 ltac:(lia)) as Hl.
  rewrite Hc, Z.max_l in Hl by exact Hly.
  assert (H0 : (0 <= Z.lor c y)%Z) by (apply Z.lor_nonneg; lia).
  destruct (Z.eq_dec (Z.lor c y) 0) as [E|E].
  - rewrite E in Hl. cbn in Hl. discriminate Hl.
  - pose proof (Z.log2_spec (Z.lor c y) ltac:(lia)) as Hs.
    rewrite Hl in Hs. change (2 ^ 7)%Z with 128%Z in Hs.
    change (2 ^ Z.succ 7)%Z with 256%Z in Hs. lia.
Qed.

Lemma plain_byte_cont (x : Z) :
  plain_byte (byte_of_Z (Z.lor 128 (Z.land x 63))).
Proof.
  apply plain_byte_of_Z. apply lor_lead_byte; [reflexivity|lia|].
  change 63%Z with (Z.ones 6). rewrite Z.land_ones by lia.
  pose proof (Z.mod_pos_bound x (2 ^ 6) ltac:(lia)) as H.
  change (2 ^ 6)%Z with 64%Z in *. lia.
Qed.

Lemma plain_byte_lead (c r k : Z) :
  Z.log2 c = 7%Z -> (0 <= c)%Z -> (0 <= k)%Z -> (0 <= r < 256 * 2 ^ k)%Z ->
  plain_byte (byte_of_Z (Z.lor c (Z.shiftr r k))).
Proof.
  intros Hc Hc0 Hk Hr.
  apply plain_byte_of_Z. apply lor_lead_byte; [exact Hc|exact Hc0|].
  rewrite Z.shiftr_div_pow2 by exact Hk.
  assert (0 < 2 ^ k)%Z by (apply Z.pow_pos_nonneg; lia).
  split.
  - apply Z.div_pos; lia.
  - apply Z.div_lt_upper_bound; lia.
Qed.

Lemma plain_byte_lowerhex (d : Z) : plain_byte (lowerhex d).
Proof.
  unfold lowerhex.
  destruct (nth_in_or_default (Z.to_nat d) (bytes "0123456789abcdef")
              "0"%char) as [Hin | ->]; [|vm_compute; discriminate].
  assert (Hall : Forall plain_byte (bytes "0123456789abcdef")).
  { repeat (constructor; [vm_compute; discriminate|]). constructor. }
  rewrite Forall_forall in Hall. apply Hall. exact Hin.
Qed.

Lemma plain_hexEscape (c : Z) : Forall plain_byte (hexEscape c).
Proof.
  unfold hexEscape.
  repeat (constructor; [first [apply plain_byte_lowerhex
                              |vm_compute; discriminate]|]).
  constructor.
Qed.

Lemma plain_AppendRune (r : Z) :
  (32 <= r)%Z -> Forall plain_byte (AppendRune r).
Proof.
  intros Hr. unfold AppendRune.
  destruct ((0 <=? r)%Z && (r <=? 127)%Z) eqn:E1.
  - apply andb_true_iff in E1. destruct E1 as [_ E1]. apply Z.leb_le in E1.
    constructor; [apply plain_byte_of_Z; lia|constructor].
  - destruct ((0 <=? r)%Z && (r <=? 2047)%Z) eqn:E2.
    + apply andb_true_iff in E2. destruct E2 as [_ E2]. apply Z.leb_le in E2.
      constructor; [|constructor; [apply plain_byte_cont|constructor]].
      apply plain_byte_lead; [reflexivity|lia|lia|].
      change (2 ^ 6)%Z with 64%Z. lia.
    + set (r' := if (r <? 0)%Z || (1114111 <? r)%Z
                    || (55296 <=? r)%Z && (r <=? 57343)%Z
                 then RuneError else r).
      assert (Hr' : (0 <= r' <= 1114111)%Z).
      { subst r'. unfold RuneError.
        destruct (r <? 0)%Z eqn:A1; [cbn; lia|].
        destruct (1114111 <? r)%Z eqn:A2; [cbn; lia|].
        apply Z.ltb_ge in A1, A2.
        destruct ((55296 <=? r)%Z && (r <=? 57343)%Z); cbn; lia. }
      destruct (r' <=? 65535)%Z eqn:E3.
      * apply Z.leb_le in E3.
        constructor; [|constructor; [apply plain_byte_cont
                                    |constructor; [apply plain_byte_cont
                                                  |constructor]]].
        apply plain_byte_lead; [reflexivity|lia|lia|].
        change (2 ^ 12)%Z with 4096%Z. lia.
      * constructor; [|repeat (constructor; [apply plain_byte_cont|]);
                       constructor].
        apply plain_byte_lead; [reflexivity|lia|lia|].
        change (2 ^ 18)%Z with 262144%Z. lia.
Qed.

Section PlainArguments.

Variable tbl : Z -> bool.

Lemma IsPrint_from_32 (r : Z) : IsPrint tbl r = true -> (32 <= r)%Z.
Proof.
  intros H. destruct (Z.le_gt_cases 32 r) as [Hle|Hlt]; [exact Hle|].
  exfalso. unfold IsPrint in H.
  assert (E1 : (r <=? 255)%Z = true) by (apply Z.leb_le; lia).
  assert (E2 : (32 <=? r)%Z = false) by (apply Z.leb_gt; lia).
  assert (E3 : (161 <=? r)%Z = false) by (apply Z.leb_gt; lia).
  rewrite E1, E2, E3 in H. discriminate H.
Qed.

Lemma plain_appendEscapedRune (r : Z) :
  Forall plain_byte (appendEscapedRune tbl r).
Proof.
  assert (Hfix : forall c : byte,
             plain_byte c -> Forall plain_byte [ch_backslash; c]).
  { intros c Hc. constructor; [vm_compute; discriminate|].
    constructor; [exact Hc|constructor]. }
  assert (Hhex : forall (x : Z) (n : nat),
             Forall plain_byte
               (map (fun k => lowerhex
                                (Z.land (Z.shiftr x (4 * Z.of_nat k)) 15))
                    (rev (seq 0 n)))).
  { intros x n. apply Forall_forall. intros b Hb.
    apply in_map_iff in Hb. destruct Hb as (k & <- & _).
    apply plain_byte_lowerhex. }
  unfold appendEscapedRune.
  destruct ((r =? 34)%Z || (r =? 92)%Z) eqn:E0.
  { apply Hfix. apply orb_true_iff in E0.
    destruct E0 as [E0|E0]; apply Z.eqb_eq in E0; subst r;
      vm_compute; discriminate. }
  destruct (IsPrint tbl r) eqn:E1.
  { apply plain_AppendRune. apply IsPrint_from_32. exact E1. }
  repeat match goal with
         | |- Forall plain_byte (if ?c then _ else _) =>
             destruct c;
             [first [apply Hfix; vm_compute; discriminate
                    |apply plain_hexEscape
                    |constructor; [vm_compute; discriminate|];
                     constructor; [vm_compute; discriminate|];
                     apply Hhex]|]
         end.
  constructor; [vm_compute; discriminate|].
  constructor; [vm_compute; discriminate|].
  apply Hhex.
Qed.

Lemma plain_appendQuoted_loop (fuel : nat) :
  forall str : gostring, Forall plain_byte (appendQuoted_loop tbl fuel str).
Proof.
  induction fuel as [|fuel IH]; intros [|b0 str]; cbn [appendQuoted_loop];
    try constructor.
  destruct (if (Z_of_byte b0 <? 128)%Z then (Z_of_byte b0, 1)
            else DecodeRuneInString (b0 :: str)) as [r width].
  apply Forall_app. split; [|apply IH].
  destruct ((width =? 1) && (r =? RuneError)%Z).
  - apply plain_hexEscape.
  - apply plain_appendEscapedRune.
Qed.

Lemma plain_quoteByte (b : byte) : Forall plain_byte (quoteByte b).
Proof.
  unfold quoteByte.
  repeat match goal with
         | |- Forall plain_byte (if ?c then _ else _) =>
             destruct c eqn:?;
             [first [apply plain_hexEscape
                    |constructor; [vm_compute; discriminate|];
                     constructor; [vm_compute; discriminate|];
                     constructor]|]
         end.
  constructor; [|constructor].
  unfold plain_byte.
  match goal with H : (byte_val b <? 32)%N = false |- _ =>
    apply N.ltb_ge in H; exact H end.
Qed.

Lemma plain_formatArg (a : gostring) : Forall plain_byte (formatArg tbl a).
Proof.
  unfold formatArg.
  destruct (isBarewordString a) eqn:Hb.
  - unfold isBarewordString in Hb. destruct a as [|a0 a]; [constructor|].
    cbn [is_empty] in Hb. rewrite forallb_forall in Hb.
    apply Forall_forall. intros b Hin. specialize (Hb b Hin).
    apply negb_true_iff, orb_false_iff in Hb. destruct Hb as [Hb _].
    apply negb_false_iff in Hb. unfold isBareword in Hb. unfold plain_byte.
    destruct (byte_val b <? 32)%N eqn:E; [discriminate|].
    apply N.ltb_ge in E. exact E.
  - unfold quoteArg.
    destruct (ContainsAny a [ch_lbrace; ch_rbrace]).
    + constructor; [vm_compute; discriminate|].
      apply Forall_app. split.
      * apply Forall_forall. intros b Hin. apply in_flat_map in Hin.
        destruct Hin as (x & _ & Hin).
        pose proof (plain_quoteByte x) as H.
        rewrite Forall_forall in H. apply H. exact Hin.
      * constructor; [vm_compute; discriminate|constructor].
    + unfold strconv_Quote.
      constructor; [vm_compute; discriminate|].
      apply Forall_app. split; [apply plain_appendQuoted_loop|].
      constructor; [vm_compute; discriminate|constructor].
Qed.

Lemma plain_Join (parts : list gostring) :
  Forall (Forall plain_byte) parts ->
  Forall plain_byte (Join parts [ch_space]).
Proof.
  induction parts as [|p parts IH]; intros H; [constructor|].
  inversion H as [|? ? Hp Hps]; subst.
  cbn [Join]. destruct parts as [|p2 parts]; [exact Hp|].
  apply Forall_app. split; [exact Hp|].
  apply Forall_app. split; [|apply IH; exact Hps].
  constructor; [vm_compute; discriminate|constructor].
Qed.

Lemma plain_arguments (A : list gostring) :
  Forall plain_byte (Format tbl A []).
Proof.
  unfold Format, FormatIndent. cbn [is_empty negb].
  apply plain_Join. apply Forall_forall. intros p Hin.
  apply in_map_iff in Hin. destruct Hin as (a & <- & _).
  apply plain_formatArg.
Qed.

End PlainArguments.

(** X27: a command without body is written on one line, without control
    bytes.  Whatever the arguments, every byte that [Format] writes for them
    is 32 or more: no newline, tab or other control byte is written as it
    is, so [Next] returns on the text (it has a case for each byte), and
    the text has one line. *)
Theorem Format_arguments_plain (tbl : Z -> bool) (A : list gostring) :
  Forall plain_byte (Format tbl A [])
  /\ no_newline (Format tbl A [])
  /\ exists sc' r,
       Next (length (Format tbl A [])) (NewScanner (Format tbl A []))
       = Some (sc', r).
Proof.
  pose proof (plain_arguments tbl A) as H.
  split; [exact H|]. split.
  - intros Hin. rewrite Forall_forall in H. specialize (H _ Hin).
    vm_compute in H. apply H. reflexivity.
  - set (text := Format tbl A []) in *. unfold Next.
    destruct (Next_loop_total (length text) (NewScanner text) [])
      as [[sc' r] Hn].
    + change (slice_from (s (NewScanner text)) (pos (NewScanner text)))
        with text.
      apply forallb_forall. intros b Hb.
      rewrite Forall_forall in H. specialize (H b Hb).
      rewrite classified_spec. unfold plain_byte in H. unfold scannable.
      apply N.leb_le in H. rewrite H. reflexivity.
    + rewrite (cursor_remaining _ _ _ (cursor_NewScanner text)). apply le_n.
    + exists sc', r. exact Hn.
Qed.

(** ** Words on a line *)

Lemma parseBareword_loop_word_stop (p0 lit rest out : gostring)
      (sc : Scanner) (fuel : nat) :
  word_stop rest ->
  cursor (p0 ++ lit) rest sc ->
  remaining sc <= fuel ->
  parseBareword_loop fuel sc (length p0) out = Some (sc, (out ++ lit, None)).
Proof.
  intros [->|(b & rest' & -> & Hb)] Hc Hf.
  - apply (parseBareword_loop_end p0 lit [] out sc fuel (or_introl eq_refl)
             Hc Hf).
  - pose proof (cursor_peek _ _ _ _ Hc) as Hp.
    pose proof (cursor_slice _ _ _ _ Hc) as Hs.
    pose proof (cursor_remaining _ _ _ Hc) as Hr. cbn in Hr.
    destruct fuel as [|fuel]; [lia|].
    cbn [parseBareword_loop]. rewrite Hp, Hs.
    destruct (isSpace b) eqn:E; [reflexivity|].
    cbn [orb] in Hb. unfold isNewLine in Hb. apply byte_eqb_eq in Hb.
    subst b. reflexivity.
Qed.

(** One iteration of the loop of [Next] on a word. *)
Lemma Next_loop_word_stop (u pre rest : gostring) (sc : Scanner) (fuel : nat)
      (acc : list gostring) :
  word u = true ->
  word_stop rest ->
  cursor pre (u ++ rest) sc ->
  remaining sc <= fuel ->
  exists sc' fuel',
    cursor (pre ++ u) rest sc'
    /\ remaining sc' <= fuel'
    /\ Next_loop fuel sc acc = Next_loop fuel' sc' (acc ++ [u]).
Proof.
  unfold word. intros Hw He Hc Hf.
  apply andb_true_iff in Hw. destruct Hw as [Hne Hu].
  pose proof (cursor_remaining _ _ _ Hc) as Hr.
  destruct (parseBareword_loop_run u pre rest sc (remaining sc) (pos sc) []
              (word_byte_literal u Hu) Hc (le_n _))
    as (sc' & fuel' & Hc' & Hf' & Heq).
  assert (Hpb : parseBareword sc = Some (sc', (u, None))).
  { unfold parseBareword. rewrite Heq. destruct Hc as [_ Hpos]. rewrite Hpos.
    apply (parseBareword_loop_word_stop pre u rest [] sc' fuel' He Hc' Hf'). }
  pose proof (cursor_remaining _ _ _ Hc') as Hr'.
  destruct u as [|b u]; [discriminate|].
  cbn [forallb] in Hu. apply andb_true_iff in Hu. destruct Hu as [Hb _].
  apply word_byte_starts in Hb.
  cbn [app] in Hc. cbn [app length] in Hr.
  pose proof (cursor_peek _ _ _ _ Hc) as Hp.
  destruct fuel as [|fuel]; [lia|].
  exists sc', fuel. split; [exact Hc'|].
  split; [rewrite length_app in Hr; lia|].
  cbn [Next_loop]. rewrite Hp. unfold Next_body.
  unfold starts_argument in Hb. apply andb_true_iff in Hb.
  destruct Hb as [Hb1 Hb2]. apply negb_true_iff in Hb1.
  rewrite Hb1, Hb2, Hpb. reflexivity.
Qed.

(** The loop of [Next] over spaces and tabs, whatever it has collected. *)
Lemma Next_loop_skips_spaces (sp : gostring) :
  forall (pre tl : gostring) (sc : Scanner) (fuel : nat)
         (acc : list gostring),
    forallb isSpace sp = true ->
    cursor pre (sp ++ tl) sc ->
    remaining sc <= fuel ->
    exists sc' fuel',
      cursor (pre ++ sp) tl sc' /\ remaining sc' <= fuel'
      /\ Next_loop fuel sc acc = Next_loop fuel' sc' acc.
Proof.
  induction sp as [|b sp IH]; intros pre tl sc fuel acc Hall Hc Hf.
  - exists sc, fuel. rewrite app_nil_r. auto.
  - cbn [forallb] in Hall. apply andb_true_iff in Hall.
    destruct Hall as [Hb Hall]. cbn [app] in Hc.
    pose proof (cursor_peek _ _ _ _ Hc) as Hp.
    pose proof (cursor_remaining _ _ _ Hc) as Hr. cbn [length] in Hr.
    destruct fuel as [|fuel]; [lia|].
    apply cursor_advance in Hc.
    destruct (IH (pre ++ [b]) tl (advance sc) fuel acc Hall Hc)
      as (sc' & fuel' & Hc' & Hf' & Heq).
    { rewrite (cursor_remaining _ _ _ Hc). lia. }
    exists sc', fuel'. rewrite <- app_assoc in Hc'.
    split; [exact Hc'|]. split; [exact Hf'|].
    cbn [Next_loop]. rewrite Hp. unfold Next_body. rewrite Hb. exact Heq.
Qed.

Lemma word_stop_blank (sp rest : gostring) :
  forallb isSpace sp = true -> line_end rest -> word_stop (sp ++ rest).
Proof.
  intros Hsp He. destruct sp as [|b sp].
  - destruct He as [->|[rest' ->]]; [left; reflexivity|].
    right. exists ch_nl, rest'. split; reflexivity.
  - cbn [forallb] in Hsp. apply andb_true_iff in Hsp.
    right. exists b, (sp ++ rest). split; [reflexivity|].
    destruct Hsp as [-> _]. reflexivity.
Qed.

(** The loop of [Next] at the end of a line, with arguments collected. *)
Lemma Next_loop_line_end (tr pre tail : gostring) (sc : Scanner) (fuel : nat)
      (acc : list gostring) :
  acc <> [] ->
  forallb isSpace tr = true ->
  line_end tail ->
  cursor pre (tr ++ tail) sc ->
  remaining sc <= fuel ->
  results (Next_loop fuel sc acc) = Some (acc, [], None).
Proof.
  intros Hacc Htr He Hc Hf.
  destruct (Next_loop_skips_spaces tr pre tail sc fuel acc Htr Hc Hf)
    as (sc' & fuel' & Hc' & Hf' & Heq).
  rewrite Heq. destruct acc as [|a acc]; [congruence|].
  destruct He as [->|[rest' ->]].
  - pose proof (cursor_peek_end _ _ Hc') as Hp.
    destruct fuel'; cbn [Next_loop]; rewrite Hp; reflexivity.
  - pose proof (cursor_peek _ _ _ _ Hc') as Hp.
    pose proof (cursor_remaining _ _ _ Hc') as Hr. cbn [length] in Hr.
    destruct fuel' as [|fuel']; [lia|].
    cbn [Next_loop]. rewrite Hp. reflexivity.
Qed.

(** The loop of [Next] over the words of a line after the first. *)
Lemma Next_loop_spaced (more : list (gostring * gostring)) :
  forall (pre tr tail : gostring) (sc : Scanner) (fuel : nat)
         (acc : list gostring),
    acc <> [] ->
    forallb (fun it => separator (fst it) && word (snd it)) more = true ->
    forallb isSpace tr = true ->
    line_end tail ->
    cursor pre (spaced more ++ tr ++ tail) sc ->
    remaining sc <= fuel ->
    results (Next_loop fuel sc acc) = Some (acc ++ map snd more, [], None).
Proof.
  induction more as [|[sp w] more IH];
    intros pre tr tail sc fuel acc Hacc Hall Htr He Hc Hf.
  - cbn [spaced flat_map app map] in *. rewrite app_nil_r.
    apply (Next_loop_line_end tr pre tail sc fuel acc Hacc Htr He Hc Hf).
  - cbn [forallb fst snd] in Hall. apply andb_true_iff in Hall.
    destruct Hall as [Hit Hall]. apply andb_true_iff in Hit.
    destruct Hit as [Hsp Hw]. unfold separator in Hsp.
    apply andb_true_iff in Hsp. destruct Hsp as [_ Hsp].
    unfold spaced in Hc. cbn [flat_map fst snd] in Hc.
    rewrite <- !app_assoc in Hc.
    destruct (Next_loop_skips_spaces sp pre _ sc fuel acc Hsp Hc Hf)
      as (sc1 & fuel1 & Hc1 & Hf1 & Heq1).
    assert (Hstop : word_stop (spaced more ++ tr ++ tail)).
    { destruct more as [|[sp2 w2] more'].
      - cbn [spaced flat_map app]. apply word_stop_blank; assumption.
      - cbn [forallb fst snd] in Hall. apply andb_true_iff in Hall.
        destruct Hall as [Hit2 _]. apply andb_true_iff in Hit2.
        destruct Hit2 as [Hsp2 _]. unfold separator in Hsp2.
        apply andb_true_iff in Hsp2. destruct Hsp2 as [Hne2 Hsp2].
        destruct sp2 as [|b sp2]; [discriminate|].
        cbn [forallb] in Hsp2. apply andb_true_iff in Hsp2.
        right. exists b. eexists. split.
        + unfold spaced. cbn [flat_map fst snd app]. reflexivity.
        + destruct Hsp2 as [-> _]. reflexivity. }
    destruct (Next_loop_word_stop w (pre ++ sp) _ sc1 fuel1 acc Hw Hstop
                Hc1 Hf1)
      as (sc2 & fuel2 & Hc2 & Hf2 & Heq2).
    rewrite Heq1, Heq2.
    rewrite (IH ((pre ++ sp) ++ w) tr tail sc2 fuel2 (acc ++ [w]));
      try assumption.
    + cbn [map snd]. rewrite <- app_assoc. reflexivity.
    + destruct acc; discriminate.
Qed.

(** X14: words on a line.  A line of words (runs of bareword bytes without
    backslash) separated by runs of spaces and tabs, after any blank lines
    and before the end of the text or a newline, is read by [Next] as the
    list of its words, with no body, whatever follows the newline. *)
Theorem words_on_a_line (lead w1 tr tail : gostring)
        (more : list (gostring * gostring)) :
  forallb (fun b => isSpace b || isNewLine b) lead = true ->
  word w1 = true ->
  forallb (fun it => separator (fst it) && word (snd it)) more = true ->
  forallb isSpace tr = true ->
  line_end tail ->
  parse (lead ++ w1 ++ spaced more ++ tr ++ tail)
  = Some (w1 :: map snd more, [], None).
Proof.
  intros Hlead Hw1 Hmore Htr He. unfold parse, Next.
  set (input := lead ++ w1 ++ spaced more ++ tr ++ tail).
  pose proof (cursor_NewScanner input) as Hc.
  destruct (Next_loop_skips_blank lead [] _ (NewScanner input) (length input)
              Hlead Hc)
    as (sc1 & fuel1 & Hc1 & Hf1 & Heq1).
  { rewrite (cursor_remaining _ _ _ Hc). apply le_n. }
  assert (Hstop : word_stop (spaced more ++ tr ++ tail)).
  { destruct more as [|[sp2 w2] more'].
    - cbn [spaced flat_map app]. apply word_stop_blank; assumption.
    - cbn [forallb fst snd] in Hmore. apply andb_true_iff in Hmore.
      destruct Hmore as [Hit2 _]. apply andb_true_iff in Hit2.
      destruct Hit2 as [Hsp2 _]. unfold separator in Hsp2.
      apply andb_true_iff in Hsp2. destruct Hsp2 as [Hne2 Hsp2].
      destruct sp2 as [|b sp2]; [discriminate|].
      cbn [forallb] in Hsp2. apply andb_true_iff in Hsp2.
      right. exists b. eexists. split.
      + unfold spaced. cbn [flat_map fst snd app]. reflexivity.
      + destruct Hsp2 as [-> _]. reflexivity. }
  destruct (Next_loop_word_stop w1 ([] ++ lead) _ sc1 fuel1 [] Hw1 Hstop
              Hc1 Hf1)
    as (sc2 & fuel2 & Hc2 & Hf2 & Heq2).
  rewrite Heq1, Heq2.
  apply (Next_loop_spaced more (([] ++ lead) ++ w1) tr tail sc2 fuel2
           ([] ++ [w1])); try assumption.
  discriminate.
Qed.

Lemma words_on_a_line_witness :
  let more := [([ch_space; ch_tab], bytes "8080"); (bytes "  ", bytes "tcp")] in
  forallb (fun b => isSpace b || isNewLine b) [ch_nl; ch_space] = true
  /\ word (bytes "port") = true
  /\ forallb (fun it => separator (fst it) && word (snd it)) more = true
  /\ forallb isSpace [ch_tab] = true
  /\ line_end (ch_nl :: bytes "next line")
  /\ parse ([ch_nl; ch_space] ++ bytes "port" ++ spaced more ++ [ch_tab]
            ++ ch_nl :: bytes "next line")
     = Some ([bytes "port"; bytes "8080"; bytes "tcp"], [], None).
Proof.
  intros more.
  split; [reflexivity|]. split; [reflexivity|]. split; [reflexivity|].
  split; [reflexivity|].
  split; [right; exists (bytes "next line"); reflexivity|].
  apply (words_on_a_line [ch_nl; ch_space] (bytes "port") [ch_tab]
           (ch_nl :: bytes "next line") more).
  - reflexivity.
  - reflexivity.
  - reflexivity.
  - reflexivity.
  - right. exists (bytes "next line"). reflexivity.
Defined.
